(** * SARC archive codec (SARC.py): a shallow embedding and its properties

    The development follows the layout of [SARC.py]:
    - [Py]   : the pieces of the Python runtime the module relies on
               (exceptions, [str] as code points, [bytes], slicing,
               [struct.pack]/[struct.unpack], UTF-8, [str.split],
               the stable [list.sort]);
    - [SARC] : [File], [Folder], [FileArchive] with its path accessors,
               and [SARC_Archive] with [_load], [filenameHash], [save];
    - [Spec] : what the specification says, written independently of the code (the
               hash, rounding, the order of the structural checks, the
               full paths of a tree, the names a tree may hold).
    Then come the byte layout the proofs work with, the notions the
    further properties are stated with, some concrete archives and
    buffers, and the properties: first those the specification states,
    then further properties of the code.

    Modelling choices.
    - A Python [set] of objects hashed by identity is the list of its
      elements in one iteration order; [add] puts an object the set
      does not hold at the end and leaves a set that holds the object
      as it is.  Statements are quantified over the list, hence over
      every iteration order, and none depends on where [add] puts an
      element (where a statement shows the list after an [add], any
      other place would do).
    - Objects are values: a [Folder] holds its entries, and no object
      is shared between two places of a tree or holds itself.  In-place
      updates of a folder reached by a path are written as updates of
      the tree.  Where the identity of an object matters, in
      [set.add], the caller says whether the set holds the object
      ([Held]) or not ([Obj]).
    - A function that can raise returns a [result]; a method that also
      mutates [self] returns the archive it leaves behind as well.
    - The recursion limit.  [save] and [__str__] call functions that
      call themselves once per level of folders, so whether they
      return depends on the room left on the interpreter's stack: they
      take it as [frames], the number of calls that can still be
      nested in their body, and every call of a [def] or [lambda] they
      make is a [call].  The other methods nest a fixed number of
      calls whatever their input ([_load] and the path accessors loop
      and do not recurse); they are modelled where there is room for
      these.
    - [save]'s [while] loop runs on fuel; [alignment_fuel_suffices] shows
      the fuel given to it is always enough.
    - [addFile], [removeFile], [addFolder] and [removeFolder] add or
      remove an object by identity ([set.add], [set.remove]); with
      objects as values a removal by identity cannot be told from a
      removal by value, and they are left out. *)

From Stdlib Require Import ZArith Lia Bool String Ascii List Permutation Sorted FinFun.
From coqutil Require Import Byte Word.LittleEndianList Z.bitblast.
Import ListNotations.
Local Open Scope Z_scope.
#[local] Set Warnings "-register-all".

(* ================================================================== *)
(** * The Python runtime *)
(* ================================================================== *)
Module Py.

(** Exceptions the module can raise.  [Diverges] is not an exception: it
    marks a [while] loop that ran out of the fuel the model gives it. *)
Inductive exn : Type :=
| KeyError | IndexError | TypeError | RuntimeError | AttributeError
| struct_error | UnicodeEncodeError | UnicodeDecodeError | ValueError
| RecursionError
| Diverges.

Inductive result (A : Type) : Type :=
| Ok (a : A)
| Raise (e : exn).
Arguments Ok {A} a.
Arguments Raise {A} e.

Definition bind {A B} (r : result A) (k : A -> result B) : result B :=
  match r with
  | Ok a => k a
  | Raise e => Raise e
  end.

Notation "x <- r ;; k" := (bind r (fun x => k))
  (at level 61, r at next level, right associativity).
Notation "' p <- r ;; k" := (bind r (fun p => k))
  (at level 61, p pattern, r at next level, right associativity).

Fixpoint mapM {A B} (f : A -> result B) (l : list A) : result (list B) :=
  match l with
  | [] => Ok []
  | x :: r => y <- f x ;; ys <- mapM f r ;; Ok (y :: ys)
  end.

(** ** The recursion limit.  A call of a function written in Python (a
    [def] or a [lambda]) takes a frame of the interpreter's stack.
    [frames] is the number of calls that can still be nested at the
    place of the call, that is the recursion limit less the depth of
    the stack there: with none left the call raises [RecursionError],
    otherwise the body runs with one frame fewer for the calls it makes
    itself.  Built-in functions and the methods of built-in types take
    no frame. *)
Definition call {A} (frames : nat) (body : nat -> result A) : result A :=
  match frames with
  | O => Raise RecursionError
  | S frames => body frames
  end.

(** ** [str]: a sequence of code points *)
Definition str : Type := list Z.

Definition ord (c : Z) : Z := c.

(** A literal: the code points of an ASCII string. *)
Definition lit (s : string) : str :=
  map (fun a => Z.of_N (N_of_ascii a)) (list_ascii_of_string s).

Definition str_eqb (a b : str) : bool :=
  if list_eq_dec Z.eq_dec a b then true else false.

Definition SLASH : Z := 47.      (* "/" *)
Definition BACKSLASH : Z := 92.  (* "\\" *)

(** [s.split(sep)] for a one-character separator. *)
Fixpoint split (sep : Z) (s : str) : list str :=
  match s with
  | [] => [[]]
  | c :: r =>
      if c =? sep then [] :: split sep r
      else match split sep r with
           | h :: t => (c :: h) :: t
           | [] => [[c]]
           end
  end.

(** [sep.join(parts)] *)
Fixpoint join (sep : Z) (parts : list str) : str :=
  match parts with
  | [] => []
  | [p] => p
  | p :: r => p ++ sep :: join sep r
  end.

(** [s.replace(a, b)] for one-character [a], [b]. *)
Definition replace (a b : Z) (s : str) : str :=
  map (fun c => if c =? a then b else c) s.

(** [c in s] *)
Definition contains (c : Z) (s : str) : bool := existsb (Z.eqb c) s.

(** [l[:-1]] and [l[-1]] (the latter raises [IndexError] on an empty
    sequence), [l[1:]]. *)
Definition but_last {A} (l : list A) : list A := removelast l.
Definition last_item {A} (l : list A) : result A :=
  match rev l with
  | [] => Raise IndexError
  | x :: _ => Ok x
  end.

(** ** [bytes] *)
Definition bytes : Type := list byte.

Definition bytes_eqb (a b : bytes) : bool :=
  if list_eq_dec Byte.byte_eq_dec a b then true else false.

Definition blen (b : bytes) : Z := Z.of_nat (length b).

(** An index, a slice bound or the start of a search as Python reads it:
    a negative one counts from the end of the data; a bound, and the
    start of a search, are moreover clipped to the data. *)
Definition from_end (data : bytes) (i : Z) : Z :=
  if i <? 0 then blen data + i else i.

Definition bound (data : bytes) (i : Z) : Z := Z.max 0 (from_end data i).

(** [data[a:b]] *)
Definition slice (data : bytes) (a b : Z) : bytes :=
  let a := bound data a in
  let b := bound data b in
  firstn (Z.to_nat (b - a)) (skipn (Z.to_nat a) data).

(** [data[a:]] *)
Definition slice_from (data : bytes) (a : Z) : bytes :=
  skipn (Z.to_nat (bound data a)) data.

(** [data[i]] *)
Definition index (data : bytes) (i : Z) : result byte :=
  let i := from_end data i in
  if i <? 0 then Raise IndexError
  else match nth_error data (Z.to_nat i) with
       | Some b => Ok b
       | None => Raise IndexError
       end.

(** [b'\x00' * n] *)
Definition zeros (n : Z) : bytes := repeat Byte.x00 (Z.to_nat n).

(** [data.find(b'\0', offset)]: position of the first zero byte at or
    after [offset], or -1. *)
Fixpoint find_zero (bs : bytes) (pos : Z) : Z :=
  match bs with
  | [] => -1
  | b :: r => if Byte.eqb b Byte.x00 then pos else find_zero r (pos + 1)
  end.
Definition find (data : bytes) (offset : Z) : Z :=
  let start := bound data offset in
  find_zero (skipn (Z.to_nat start) data) start.

(** A [bytes] literal. *)
Definition blit (s : string) : bytes := list_byte_of_string s.

(** ** [struct] with the formats ['>H'], ['<H'], ['>I'], ['<I'] *)
Inductive endianness : Type := Big | Little.   (* '>' and '<' *)

Definition endianness_eqb (a b : endianness) : bool :=
  match a, b with
  | Big, Big | Little, Little => true
  | _, _ => false
  end.

Definition order (e : endianness) (bs : bytes) : bytes :=
  match e with
  | Little => bs
  | Big => rev bs
  end.

Definition pack (e : endianness) (size : nat) (v : Z) : result bytes :=
  if (0 <=? v) && (v <? 2 ^ (8 * Z.of_nat size))
  then Ok (order e (le_split size v))
  else Raise struct_error.

Definition unpack (e : endianness) (size : nat) (bs : bytes) : result Z :=
  if Nat.eqb (length bs) size
  then Ok (le_combine (order e bs))
  else Raise struct_error.

Definition pack_H e v := pack e 2 v.
Definition pack_I e v := pack e 4 v.
Definition unpack_H e bs := unpack e 2 bs.
Definition unpack_I e bs := unpack e 4 bs.

(** ** UTF-8 ([str.encode('utf-8')], [bytes.decode('utf-8')], strict) *)
Definition encode_char (c : Z) : result bytes :=
  if c <? 0 then Raise UnicodeEncodeError
  else if c <? 0x80 then Ok [byte.of_Z c]
  else if c <? 0x800 then
    Ok [byte.of_Z (0xC0 + c / 64); byte.of_Z (0x80 + c mod 64)]
  else if c <? 0x10000 then
    if (0xD800 <=? c) && (c <? 0xE000) then Raise UnicodeEncodeError
    else Ok [byte.of_Z (0xE0 + c / 4096);
             byte.of_Z (0x80 + (c / 64) mod 64);
             byte.of_Z (0x80 + c mod 64)]
  else if c <? 0x110000 then
    Ok [byte.of_Z (0xF0 + c / 262144);
        byte.of_Z (0x80 + (c / 4096) mod 64);
        byte.of_Z (0x80 + (c / 64) mod 64);
        byte.of_Z (0x80 + c mod 64)]
  else Raise UnicodeEncodeError.

Fixpoint encode (s : str) : result bytes :=
  match s with
  | [] => Ok []
  | c :: r => b <- encode_char c ;; bs <- encode r ;; Ok (b ++ bs)
  end.

Definition is_cont (b : byte) : bool :=
  (0x80 <=? byte.unsigned b) && (byte.unsigned b <? 0xC0).
Definition cont (b : byte) : Z := byte.unsigned b - 0x80.

Fixpoint decode (bs : bytes) : result str :=
  match bs with
  | [] => Ok []
  | b0 :: r =>
    let x := byte.unsigned b0 in
    if x <? 0x80 then s <- decode r ;; Ok (x :: s)
    else if x <? 0xC2 then Raise UnicodeDecodeError
    else if x <? 0xE0 then
      match r with
      | b1 :: r1 =>
        if is_cont b1
        then s <- decode r1 ;; Ok (((x - 0xC0) * 64 + cont b1) :: s)
        else Raise UnicodeDecodeError
      | _ => Raise UnicodeDecodeError
      end
    else if x <? 0xF0 then
      match r with
      | b1 :: b2 :: r2 =>
        let c := (x - 0xE0) * 4096 + cont b1 * 64 + cont b2 in
        if is_cont b1 && is_cont b2 && (0x800 <=? c)
           && negb ((0xD800 <=? c) && (c <? 0xE000))
        then s <- decode r2 ;; Ok (c :: s)
        else Raise UnicodeDecodeError
      | _ => Raise UnicodeDecodeError
      end
    else if x <? 0xF5 then
      match r with
      | b1 :: b2 :: b3 :: r3 =>
        let c := (x - 0xF0) * 262144 + cont b1 * 4096 + cont b2 * 64 + cont b3 in
        if is_cont b1 && is_cont b2 && is_cont b3
           && (0x10000 <=? c) && (c <? 0x110000)
        then s <- decode r3 ;; Ok (c :: s)
        else Raise UnicodeDecodeError
      | _ => Raise UnicodeDecodeError
      end
    else Raise UnicodeDecodeError
  end.

(** ** [list.sort(key=...)]: the stable sort.  The keys are computed
    first, one per element, then the elements are ordered by key with
    equal keys left in their original order (an element is inserted in
    front of the sorted rest of the list, before the first key that is
    not smaller than its own). *)
Fixpoint insert_sorted {A} (x : Z * A) (l : list (Z * A)) : list (Z * A) :=
  match l with
  | [] => [x]
  | y :: r => if fst x <=? fst y then x :: l else y :: insert_sorted x r
  end.

Definition sort_keyed {A} (l : list (Z * A)) : list (Z * A) :=
  fold_right insert_sorted [] l.

Definition sort {A} (key : A -> result Z) (l : list A) : result (list A) :=
  keys <- mapM key l ;;
  Ok (map snd (sort_keyed (combine keys l))).

Definition NEWLINE : Z := 10.   (* "\n" *)
Definition SPACE : Z := 32.     (* " " *)

(** [a < b] on [str]: code point by code point, a proper prefix first. *)
Fixpoint str_ltb (a b : str) : bool :=
  match a, b with
  | _, [] => false
  | [], _ :: _ => true
  | x :: a', y :: b' =>
      if x <? y then true else if y <? x then false else str_ltb a' b'
  end.

(** [sorted(iterable, key=...)] with [str] keys: the keys are computed
    first, one call of [key] per element; then the stable sort again, an
    element going in front of the first key that is not smaller than its
    own. *)
Fixpoint insert_by_name {A} (x : str * A) (l : list (str * A)) : list (str * A) :=
  match l with
  | [] => [x]
  | y :: r => if str_ltb (fst y) (fst x) then y :: insert_by_name x r else x :: l
  end.

Definition sorted_by_name {A} (l : list (str * A)) : list (str * A) :=
  fold_right insert_by_name [] l.

Definition sorted {A} (key : A -> result str) (l : list A) : result (list A) :=
  keys <- mapM key l ;;
  Ok (map snd (sorted_by_name (combine keys l))).

(** [' ' * indent] *)
Definition spaces (indent : Z) : str := repeat SPACE (Z.to_nat indent).

End Py.

(* ================================================================== *)
(** * SARC.py *)
(* ================================================================== *)
Module SARC.
Import Py.

(** [bytes_to_string(data, offset)] *)
Definition bytes_to_string (data : bytes) (offset : Z) : result str :=
  let end_ := find data offset in
  if end_ =? -1 then decode (slice_from data offset)
  else decode (slice data offset end_).

(** ** [class File], [class Folder] *)
Record File : Type := new_File { name : str; data : bytes }.

Inductive entry : Type :=
| is_File (file : File)
| Folder (folder_name : str) (folder_contents : list entry).

Definition entry_name (e : entry) : str :=
  match e with
  | is_File f => name f
  | Folder n _ => n
  end.

(** What a caller can pass where a [File] or [Folder] is expected.  A
    set holds an object once: adding an object it already holds changes
    nothing, whereas an object it does not hold is added even when it
    has the name and the content of one it holds.  Objects being values
    here, the caller says which of the two is passed: [Obj], a [File]
    or [Folder] that the set it is stored into does not hold, or
    [Held], one that this set holds already. *)
Inductive value : Type :=
| Obj (e : entry)
| Held (e : entry)
| Other.

(** Attributes set on the class [File] itself (not on an instance).
    Every instance gets its own [name] in [__init__], so reading
    [file.name] on an instance never consults the class attribute. *)
Record class_attrs : Type := { File_name : option str }.

(** ** [class FileArchive] / [class SARC_Archive] *)
Record SARC_Archive : Type := {
  contents : list entry;
  endian : endianness;
  hashMultiplier : Z
}.

(** [SARC_Archive(endianness='>', hashMultiplier=0x65)] *)
Definition new_archive (e : endianness) (m : Z) : SARC_Archive :=
  {| contents := []; endian := e; hashMultiplier := m |}.

Definition set_contents (self : SARC_Archive) (c : list entry) :=
  {| contents := c; endian := endian self; hashMultiplier := hashMultiplier self |}.
Definition set_endian (self : SARC_Archive) (e : endianness) :=
  {| contents := contents self; endian := e; hashMultiplier := hashMultiplier self |}.
Definition set_hashMultiplier (self : SARC_Archive) (m : Z) :=
  {| contents := contents self; endian := endian self; hashMultiplier := m |}.

Definition clear (self : SARC_Archive) : SARC_Archive := set_contents self [].

(** [FileArchive.__str__].  [addFolderStructure(folder, indent)] appends
    to the string [s] of the enclosing call; it is a call, and so are
    the [lambda]s that give [sorted] its keys (none is called on an
    empty set).  Its first loop sorts the entries of [folder] into the
    sets [folders] and [files], listed here in the order of the
    container.  [frames] is the room for calls in the body of
    [__str__]. *)
Definition folders_in (folder : list entry) : list entry :=
  flat_map (fun thing => match thing with
                         | is_File _ => []
                         | Folder _ _ => [thing]
                         end) folder.

Definition files_in (folder : list entry) : list entry :=
  flat_map (fun thing => match thing with
                         | is_File _ => [thing]
                         | Folder _ _ => []
                         end) folder.

(** [folder.contents] *)
Definition entry_contents (e : entry) : list entry :=
  match e with
  | is_File _ => []
  | Folder _ c => c
  end.

Fixpoint addFolderStructure (frames : nat) (folder : list entry) (indent : Z)
    (s : str) : result str :=
  match frames with
  | O => Raise RecursionError
  | S frames =>
      let folders := folders_in folder in
      let files := files_in folder in
      folders <-
        sorted (fun entry => call frames (fun _ => Ok (entry_name entry))) folders ;;
      files <-
        sorted (fun entry => call frames (fun _ => Ok (entry_name entry))) files ;;
      s <- (fix loop (folders : list entry) (s : str) : result str :=
              match folders with
              | [] => Ok s
              | folder :: rest =>
                  let s := s ++ [NEWLINE] ++ spaces indent
                             ++ entry_name folder ++ [SLASH] in
                  s <- addFolderStructure frames (entry_contents folder)
                         (indent + 2) s ;;
                  loop rest s
              end) folders s ;;
      Ok (fold_left (fun s file =>
                       s ++ [NEWLINE] ++ spaces indent ++ entry_name file)
                    files s)
  end.

Definition __str__ (frames : nat) (self : SARC_Archive) : result str :=
  s <- addFolderStructure frames (contents self) 0 [] ;;
  Ok (tl s).

(** The inner loop shared by the path accessors and the loader:
      for lookObj in currentPlaceToLook:
          if isinstance(lookObj, Folder) and lookObj.name == folderName:
              currentPlaceToLook = lookObj.contents; break
    [with_folder cur folderName k] runs [k] on the contents of the first
    such folder and stores what [k] leaves there (the folder object is
    mutated in place); [None] is the loop's [else] branch. *)
Fixpoint with_folder {R} (cur : list entry) (folderName : str)
    (k : list entry -> list entry * R) : option (list entry * R) :=
  match cur with
  | [] => None
  | lookObj :: rest =>
      let skip := match with_folder rest folderName k with
                  | Some (l, r) => Some (lookObj :: l, r)
                  | None => None
                  end in
      match lookObj with
      | Folder n c =>
          if str_eqb n folderName
          then let (c', r) := k c in Some (Folder n c' :: rest, r)
          else skip
      | is_File _ => skip
      end
  end.

Definition find_folder (cur : list entry) (folderName : str)
  : option (list entry) :=
  match with_folder cur folderName (fun c => (c, c)) with
  | Some (_, c) => Some c
  | None => None
  end.

Fixpoint find_named (cur : list entry) (n : str) : option entry :=
  match cur with
  | [] => None
  | file :: rest =>
      if str_eqb (entry_name file) n then Some file else find_named rest n
  end.

Fixpoint remove_named (cur : list entry) (n : str) : list entry :=
  match cur with
  | [] => []
  | file :: rest =>
      if str_eqb (entry_name file) n then rest
      else file :: remove_named rest n
  end.

(** [FileArchive.__getitem__] *)
Fixpoint getitem_walk (cur : list entry) (folders : list str)
  : result (list entry) :=
  match folders with
  | [] => Ok cur
  | folderName :: rest =>
      match find_folder cur folderName with
      | Some c => getitem_walk c rest
      | None => Raise KeyError
      end
  end.

Definition __getitem__ (self : SARC_Archive) (key : str) : result entry :=
  let folderStructure := split SLASH (replace BACKSLASH SLASH key) in
  cur <- getitem_walk (contents self) (but_last folderStructure) ;;
  last <- last_item folderStructure ;;
  match find_named cur last with
  | Some file => Ok file
  | None => Raise KeyError
  end.

(** [currentPlaceToLook.add(val)] *)
Definition set_add (val : value) (cur : list entry) : list entry :=
  match val with
  | Obj v => cur ++ [v]
  | Held _ | Other => cur
  end.

(** [FileArchive.__setitem__].  The walk is over [folderStructure[1:]];
    the last loop removes from the set it iterates, which makes the
    set iterator raise [RuntimeError] at its next step. *)
Fixpoint setitem_walk (cur : list entry) (folders : list str)
    (last : list entry -> list entry * result unit)
  : list entry * result unit :=
  match folders with
  | [] => last cur
  | folderName :: rest =>
      match with_folder cur folderName (fun c => setitem_walk c rest last) with
      | Some r => r
      | None =>
          let (c, r) := setitem_walk [] rest last in
          (cur ++ [Folder folderName c], r)
      end
  end.

Definition __setitem__ (cls : class_attrs) (self : SARC_Archive)
    (key : str) (val : value)
  : class_attrs * SARC_Archive * result unit :=
  match val with
  | Other => (cls, self, Raise TypeError)
  | Obj _ | Held _ =>
      let folderStructure := split SLASH (replace BACKSLASH SLASH key) in
      match last_item folderStructure with
      | Raise e => (cls, self, Raise e)
      | Ok last =>
          let cls := {| File_name := Some last |} in
          let (c, r) :=
            setitem_walk (contents self) (tl folderStructure)
              (fun cur =>
                 match find_named cur key with
                 | Some _ => (remove_named cur key, Raise RuntimeError)
                 | None => (set_add val cur, Ok tt)
                 end) in
          (cls, set_contents self c, r)
      end
  end.

(** [FileArchive.__delitem__] *)
Fixpoint delitem_walk (cur : list entry) (folders : list str)
    (last : list entry -> list entry * result unit)
  : list entry * result unit :=
  match folders with
  | [] => last cur
  | folderName :: rest =>
      match with_folder cur folderName (fun c => delitem_walk c rest last) with
      | Some r => r
      | None => (cur, Raise KeyError)
      end
  end.

Definition __delitem__ (self : SARC_Archive) (key : str)
  : SARC_Archive * result unit :=
  let folderStructure := split SLASH (replace BACKSLASH SLASH key) in
  let (c, r) :=
    delitem_walk (contents self) (tl folderStructure)
      (fun cur =>
         match find_named cur key with
         | Some _ => (remove_named cur key, Ok tt)
         | None => (cur, Raise KeyError)
         end) in
  (set_contents self c, r).

(** ** [SARC_Archive._load] *)

(** One entry of [SFATNodes]:
    [(unkFlag, fileNameTableEntryOffset, fileDataStart, fileDataLength)] *)
Definition SFATNode : Type := (byte * Z * Z * Z)%type.

(** The body of [for nodeNum in range(nodeCount)]. *)
Definition read_node (e : endianness) (data : bytes) (SFATNodeOffset : Z)
  : result SFATNode :=
  let unkFlagOffset :=
    match e with Big => SFATNodeOffset + 4 | Little => SFATNodeOffset + 7 end in
  let fileNameTableEntryOffsetOffset :=
    match e with Big => SFATNodeOffset + 5 | Little => SFATNodeOffset + 4 end in
  unkFlag <- index data unkFlagOffset ;;
  let fileNameTableEntryOffsetData :=
    match e with
    | Big => Byte.x00 :: slice data fileNameTableEntryOffsetOffset
                               (fileNameTableEntryOffsetOffset + 3)
    | Little => slice data fileNameTableEntryOffsetOffset
                      (fileNameTableEntryOffsetOffset + 3) ++ [Byte.x00]
    end in
  fileNameTableEntryOffset <- unpack_I e fileNameTableEntryOffsetData ;;
  fileDataStart <-
    unpack_I e (slice data (SFATNodeOffset + 8) (SFATNodeOffset + 0x0C)) ;;
  fileDataEnd <-
    unpack_I e (slice data (SFATNodeOffset + 0x0C) (SFATNodeOffset + 0x10)) ;;
  let fileDataLength := fileDataEnd - fileDataStart in
  Ok (unkFlag, fileNameTableEntryOffset, fileDataStart, fileDataLength).

Fixpoint read_nodes (e : endianness) (data : bytes) (nodeCount : nat)
    (SFATNodeOffset : Z) (SFATNodes : list SFATNode)
  : result (list SFATNode) :=
  match nodeCount with
  | O => Ok SFATNodes
  | S n =>
      node <- read_node e data SFATNodeOffset ;;
      read_nodes e data n (SFATNodeOffset + 0x10) (SFATNodes ++ [node])
  end.

(** Find-or-make the folders [folders] below [cur], then add [file] to
    the innermost one (lines 367-397; the first folder is looked up in
    [self.contents], the others in [outerFolder.contents], by the same
    loop). *)
Fixpoint place (cur : list entry) (folders : list str) (file : File)
  : list entry :=
  match folders with
  | [] => cur ++ [is_File file]
  | folderName :: rest =>
      match with_folder cur folderName (fun c => (place c rest file, tt)) with
      | Some (l, _) => l
      | None => cur ++ [Folder folderName (place [] rest file)]
      end
  end.

(** The body of the final [for ... in SFATNodes] loop. *)
Definition add_node (data : bytes) (offset dataStartOffset : Z)
    (node : SFATNode) (cur : list entry) : result (list entry) :=
  let '(unkFlag, fileNameTableEntryOffset, fileDataStart, fileDataLength) := node in
  let nameOffset := offset + fileNameTableEntryOffset * 4 in
  name <- bytes_to_string data nameOffset ;;
  let fileData := slice data (dataStartOffset + fileDataStart)
                        (dataStartOffset + fileDataStart + fileDataLength) in
  let folderStructure := split SLASH name in
  if Nat.eqb (length folderStructure) 1
  then Ok (cur ++ [is_File (new_File name fileData)])
  else last <- last_item folderStructure ;;
       Ok (place cur (but_last folderStructure) (new_File last fileData)).

Fixpoint add_nodes (data : bytes) (offset dataStartOffset : Z)
    (SFATNodes : list SFATNode) (cur : list entry)
  : list entry * result unit :=
  match SFATNodes with
  | [] => (cur, Ok tt)
  | node :: rest =>
      match add_node data offset dataStartOffset node cur with
      | Ok cur' => add_nodes data offset dataStartOffset rest cur'
      | Raise e => (cur, Raise e)
      end
  end.

Definition SARC_magic : bytes := blit "SARC".
Definition SFAT_magic : bytes := blit "SFAT".
Definition SFNT_magic : bytes := blit "SFNT".
Definition BOM_big : bytes := [Byte.xfe; Byte.xff].
Definition BOM_little : bytes := [Byte.xff; Byte.xfe].

(** [endians[bom]] *)
Definition endians (bom : bytes) : option endianness :=
  if bytes_eqb bom BOM_big then Some Big
  else if bytes_eqb bom BOM_little then Some Little
  else None.

(** [_load] returns the archive as the call leaves it, and either the
    returned code or the exception raised. *)
Definition _load (self : SARC_Archive) (data : bytes)
  : SARC_Archive * result Z :=
  if negb (bytes_eqb (slice data 0 0x04) SARC_magic) then (self, Ok 1) else
  let bom := slice data 0x06 0x08 in
  match endians bom with
  | None => (self, Ok 2)
  | Some e =>
  let self := set_endian self e in
  match unpack_H (endian self) (slice data 0x04 0x06) with
  | Raise x => (self, Raise x)
  | Ok headLen =>
  if negb (headLen =? 0x14) then (self, Ok 3) else
  match unpack_I (endian self) (slice data 0x08 0x0C) with
  | Raise x => (self, Raise x)
  | Ok filelen =>
  if negb (blen data =? filelen) then (self, Ok 4) else
  match unpack_I (endian self) (slice data 0x0C 0x10) with
  | Raise x => (self, Raise x)
  | Ok dataStartOffset =>
  if negb (bytes_eqb (slice data 0x14 0x18) SFAT_magic) then (self, Ok 5) else
  match unpack_H (endian self) (slice data 0x18 0x1A) with
  | Raise x => (self, Raise x)
  | Ok headLen =>
  if negb (headLen =? 0x0C) then (self, Ok 6) else
  match unpack_H (endian self) (slice data 0x1A 0x1C) with
  | Raise x => (self, Raise x)
  | Ok nodeCount =>
  match unpack_I (endian self) (slice data 0x1C 0x20) with
  | Raise x => (self, Raise x)
  | Ok m =>
  let self := set_hashMultiplier self m in
  match read_nodes (endian self) data (Z.to_nat nodeCount) 0x20 [] with
  | Raise x => (self, Raise x)
  | Ok SFATNodes =>
  let offset := 0x20 + 0x10 * nodeCount in
  if negb (bytes_eqb (slice data offset (offset + 0x04)) SFNT_magic)
  then (self, Ok 7) else
  match unpack_H (endian self) (slice data (offset + 0x04) (offset + 0x06)) with
  | Raise x => (self, Raise x)
  | Ok headLen =>
  if negb (headLen =? 0x08) then (self, Ok 8) else
  let offset := offset + 0x08 in
  let self := clear self in
  match add_nodes data offset dataStartOffset SFATNodes (contents self) with
  | (c, Raise x) => (set_contents self c, Raise x)
  | (c, Ok _) => (set_contents self c, Ok 0)
  end end end end end end end end end end.

(** [load]: a non-zero code becomes a [ValueError]. *)
Definition load (self : SARC_Archive) (data : bytes)
  : SARC_Archive * result unit :=
  match _load self data with
  | (self', Ok code) =>
      if code =? 0 then (self', Ok tt) else (self', Raise ValueError)
  | (self', Raise x) => (self', Raise x)
  end.

(** [SARC_Archive.__init__(data, endianness, hashMultiplier)]: the
    archive the constructor returns, or the exception that escapes it. *)
Definition __init__ (data : option bytes) (endianness : endianness)
    (hashMultiplier : Z) : result SARC_Archive :=
  let self := {| contents := []; endian := endianness;
                 hashMultiplier := hashMultiplier |} in
  match data with
  | None => Ok self
  | Some data =>
      match load self data with
      | (self, Ok _) => Ok self
      | (_, Raise x) => Raise x
      end
  end.

(** ** [SARC_Archive.filenameHash] *)
Definition hash_value (filename : str) (multiplier : Z) : Z :=
  fold_left (fun result char => Z.land (result * multiplier + ord char) 0xFFFFFFFF)
            filename 0.

Definition filenameHash (filename : str) (e : endianness) (multiplier : Z)
  : result bytes :=
  pack_I e (hash_value filename multiplier).

(** ** [SARC_Archive.save] *)

(** [addToFlatList(folder, path)], with [flatList] threaded through.
    It calls itself once per level of folders; [frames] is the room for
    calls in the body of [save]. *)
Fixpoint addToFlatList (frames : nat) (folder : entry) (path : str)
    (flatList : list (str * File)) : result (list (str * File)) :=
  match frames with
  | O => Raise RecursionError
  | S frames =>
      match folder with
      | is_File _ => Raise AttributeError
      | Folder _ folder_contents =>
          let path :=
            if contains BACKSLASH path
            then join SLASH (split BACKSLASH path) else path in
          c <- last_item path ;;
          let path := if negb (c =? SLASH) then path ++ [SLASH] else path in
          (fix loop (l : list entry) (flatList : list (str * File)) :=
             match l with
             | [] => Ok flatList
             | checkObj :: l' =>
                 match checkObj with
                 | is_File f => loop l' (flatList ++ [(path ++ name f, f)])
                 | Folder n _ =>
                     flatList <-
                       addToFlatList frames checkObj (path ++ n) flatList ;;
                     loop l' flatList
                 end
             end) folder_contents flatList
      end
  end.

(** [for checkObj in self.contents: ...] *)
Fixpoint flatten (frames : nat) (l : list entry) (flatList : list (str * File))
  : result (list (str * File)) :=
  match l with
  | [] => Ok flatList
  | checkObj :: l' =>
      match checkObj with
      | is_File f => flatten frames l' (flatList ++ [(name f, f)])
      | Folder n _ =>
          flatList <- addToFlatList frames checkObj n flatList ;;
          flatten frames l' flatList
      end
  end.

(** The sort key: the one-element tuple [struct.unpack(...)] of the
    packed hash; one-element tuples compare as their elements.  The key
    is a [lambda], which calls [filenameHash]. *)
Definition sort_key (frames : nat) (self : SARC_Archive)
    (filetuple : str * File) : result Z :=
  call frames (fun frames =>
    h <- call frames (fun _ =>
           filenameHash (fst filetuple) (endian self) (hashMultiplier self)) ;;
    unpack_I (endian self) h).

(** The file names table; [files] collects [[file, nameOffset]]. *)
Fixpoint names_table (flatList : list (str * File)) (fileNamesTable : bytes)
    (files : list (File * Z)) : result (bytes * list (File * Z)) :=
  match flatList with
  | [] => Ok (fileNamesTable, files)
  | (filepath, file) :: rest =>
      let files := files ++ [(file, blen fileNamesTable)] in
      enc <- encode filepath ;;
      let fileNamesTable := fileNamesTable ++ enc in
      let fileNamesTable :=
        fileNamesTable ++ zeros (0x04 - blen fileNamesTable mod 0x04) in
      names_table rest fileNamesTable files
  end.

Definition round_up (x y : Z) : Z := Z.lor (x - 1) (y - 1) + 1.

(** [while alignment == 0: ...]; [None] when the fuel runs out. *)
Fixpoint alignment_loop (fuel : nat) (dataStartOffset alignment numZeros : Z)
  : option Z :=
  if alignment =? 0 then
    match fuel with
    | O => None
    | S fuel' =>
        alignment_loop fuel' dataStartOffset
          (Z.land dataStartOffset (Z.shiftl 0xF0 numZeros)) (numZeros + 1)
    end
  else Some alignment.

Definition get_alignment (fuel : nat) (dataStartOffset : Z) : option Z :=
  alignment_loop fuel dataStartOffset (Z.land dataStartOffset 0xF0) 1.

(** The file data table; [files] become [[file, nameOffset, dataOffset]]. *)
Fixpoint data_table (alignment : Z) (idx : Z) (files : list (File * Z))
    (fileDataTable : bytes) (out : list (File * Z * Z))
  : bytes * list (File * Z * Z) :=
  match files with
  | [] => (fileDataTable, out)
  | (file, nameOffset) :: rest =>
      let fileDataTable :=
        if 0 <? idx then
          let totalFileLen := round_up (blen fileDataTable) alignment in
          fileDataTable ++ zeros (totalFileLen - blen fileDataTable)
        else fileDataTable in
      let out := out ++ [(file, nameOffset, blen fileDataTable)] in
      data_table alignment (idx + 1) rest (fileDataTable ++ data file) out
  end.

(** What lines 418-513 compute.  The first call of [round_up] is the
    first call made after the sort; the later calls of [round_up] and of
    [filenameHash] are made from the same frame and find the room that
    this one found. *)
Record tables : Type := {
  flatList : list (str * File);          (* sorted *)
  files : list (File * Z * Z);           (* [file, nameOffset, dataOffset] *)
  fileNamesTable : bytes;
  dataStartOffset_min : Z;               (* dataStartOffset_ *)
  dataStartOffset : Z;                   (* the effective one *)
  alignment : Z;
  fileDataTable : bytes
}.

Definition effective_dataStartOffset (dataStartOffset_ dataStartOffset : Z) : Z :=
  let dataStartOffset := Z.max dataStartOffset_ (round_up dataStartOffset 0x10) in
  if dataStartOffset =? dataStartOffset_
  then round_up dataStartOffset 0x200
  else dataStartOffset.

Definition build_tables (frames : nat) (self : SARC_Archive)
    (dataStartOffset : Z) : result tables :=
  flatList <- flatten frames (contents self) [] ;;
  flatList <- sort (sort_key frames self) flatList ;;
  '(fileNamesTable, files) <- names_table flatList [] [] ;;
  let SFATNodesTableLen := 0x10 * Z.of_nat (length files) in
  dataStartOffset_ <-
    call frames (fun _ =>
      Ok (round_up (0x20 + SFATNodesTableLen + 0x08 + blen fileNamesTable) 0x10)) ;;
  let dataStartOffset :=
    effective_dataStartOffset dataStartOffset_ dataStartOffset in
  match get_alignment (Z.to_nat (Z.log2 dataStartOffset)) dataStartOffset with
  | None => Raise Diverges
  | Some alignment =>
      let '(fileDataTable, files) := data_table alignment 0 files [] [] in
      Ok {| flatList := flatList; files := files;
            fileNamesTable := fileNamesTable;
            dataStartOffset_min := dataStartOffset_;
            dataStartOffset := dataStartOffset;
            alignment := alignment;
            fileDataTable := fileDataTable |}
  end.

(** The SFAT nodes, one per pair of [zip(files, flatList)]. *)
Fixpoint sfat_nodes (e : endianness) (m : Z)
    (l : list ((File * Z * Z) * (str * File))) (sfat : bytes) : result bytes :=
  match l with
  | [] => Ok sfat
  | ((_, filenameoffset, filedataoffset), (filepath, file)) :: rest =>
      h <- filenameHash filepath e m ;;
      let sfat := sfat ++ h in
      x <- pack_I e (Z.lor (filenameoffset / 4) 0x1000000) ;;
      let sfat := sfat ++ x in
      x <- pack_I e filedataoffset ;;
      let sfat := sfat ++ x in
      x <- pack_I e (filedataoffset + blen (data file)) ;;
      let sfat := sfat ++ x in
      sfat_nodes e m rest sfat
  end.

(** Lines 515-596. *)
Definition emit (self : SARC_Archive) (t : tables) : result bytes :=
  let e := endian self in
  let totalFileLen := dataStartOffset t + blen (fileDataTable t) in
  let sarcHead := SARC_magic in
  x <- pack_H e 0x14 ;;
  let sarcHead := sarcHead ++ x in
  let sarcHead :=
    sarcHead ++ (match e with Big => BOM_big | Little => BOM_little end) in
  x <- pack_I e totalFileLen ;;
  let sarcHead := sarcHead ++ x in
  x <- pack_I e (dataStartOffset t) ;;
  let sarcHead := sarcHead ++ x in
  let sarcHead :=
    sarcHead ++ (match e with
                 | Big => [Byte.x01; Byte.x00; Byte.x00; Byte.x00]
                 | Little => [Byte.x00; Byte.x01; Byte.x00; Byte.x00]
                 end) in
  let sfatHead := SFAT_magic in
  x <- pack_H e 0x0C ;;
  let sfatHead := sfatHead ++ x in
  x <- pack_H e (Z.of_nat (length (files t))) ;;
  let sfatHead := sfatHead ++ x in
  x <- pack_I e (hashMultiplier self) ;;
  let sfatHead := sfatHead ++ x in
  sfat <- sfat_nodes e (hashMultiplier self) (combine (files t) (flatList t)) [] ;;
  let sfntHead := SFNT_magic in
  let sfntHead :=
    sfntHead ++ (match e with
                 | Big => [Byte.x00; Byte.x08]
                 | Little => [Byte.x08; Byte.x00]
                 end) in
  let sfntHead := sfntHead ++ [Byte.x00; Byte.x00] in
  let headerSize :=
    blen (sarcHead ++ sfatHead ++ sfat ++ sfntHead ++ fileNamesTable t) in
  let fileDataTablePadding :=
    if headerSize <? dataStartOffset t
    then zeros (dataStartOffset t - headerSize) else [] in
  Ok (sarcHead ++ sfatHead ++ sfat ++ (sfntHead ++ fileNamesTable t)
        ++ (fileDataTablePadding ++ fileDataTable t)).

Definition save (frames : nat) (self : SARC_Archive) (dataStartOffset : Z)
  : result bytes :=
  t <- build_tables frames self dataStartOffset ;;
  emit self t.

End SARC.

Import Py SARC.

(* ================================================================== *)
(** * The specification's side: definitions that follow its text *)
(* ================================================================== *)
Module Spec.

(** §4.1: [result = (result * multiplier + code_point(char)) mod 2^32],
    starting from 0, over the characters in order. *)
Definition hash (name : str) (multiplier : Z) : Z :=
  fold_left (fun result char => (result * multiplier + char) mod 2 ^ 32) name 0.

(** §4.4 step 4: [round_up(x, y)], the least multiple of [y] not below [x]. *)
Definition round_up (x y : Z) : Z := (x + y - 1) / y * y.

(** §4.4 step 4: the effective data start offset. *)
Definition data_start (fileCount nameTableLength desired : Z) : Z :=
  let minimum := round_up (0x20 + 0x10 * fileCount + 0x08 + nameTableLength) 0x10 in
  let chosen := Z.max minimum (round_up desired 0x10) in
  if chosen =? minimum then round_up chosen 0x200 else chosen.

(** §4.4 step 4: [fileCount], the number of files of a tree. *)
Fixpoint count_files (e : entry) : nat :=
  match e with
  | is_File _ => 1
  | Folder _ c => list_sum (map count_files c)
  end.

Definition file_count (c : list entry) : nat := list_sum (map count_files c).

(** §4.4 step 5: [a] is the largest power-of-two divisor of [n]. *)
Definition largest_pow2_divisor (a n : Z) : Prop :=
  (exists k, 0 <= k /\ a = 2 ^ k) /\ (a | n) /\
  forall k, 0 <= k -> (2 ^ k | n) -> 2 ^ k <= a.

(** §4.3 steps 1-9, the eight structural checks in their order: the
    number of the first check the buffer violates, 0 when it passes all.
    A field that cannot be read (the buffer ends before it) does not have
    the required value. *)
Definition bom (b : bytes) : option endianness :=
  if bytes_eqb b [Byte.xfe; Byte.xff] then Some Big
  else if bytes_eqb b [Byte.xff; Byte.xfe] then Some Little
  else None.

Definition field_is (e : endianness) (size : nat) (data : bytes) (a b v : Z)
  : bool :=
  match unpack e size (slice data a b) with
  | Ok x => x =? v
  | Raise _ => false
  end.

Definition node_count (e : endianness) (data : bytes) : Z :=
  match unpack e 2 (slice data 0x1A 0x1C) with
  | Ok n => n
  | Raise _ => 0
  end.

Definition first_violation (data : bytes) : Z :=
  if negb (bytes_eqb (slice data 0 0x04) (blit "SARC")) then 1 else
  match bom (slice data 0x06 0x08) with
  | None => 2
  | Some e =>
    if negb (field_is e 2 data 0x04 0x06 0x14) then 3 else
    if negb (field_is e 4 data 0x08 0x0C (blen data)) then 4 else
    if negb (bytes_eqb (slice data 0x14 0x18) (blit "SFAT")) then 5 else
    if negb (field_is e 2 data 0x18 0x1A 0x0C) then 6 else
    let offset := 0x20 + 0x10 * node_count e data in
    if negb (bytes_eqb (slice data offset (offset + 0x04)) (blit "SFNT"))
    then 7 else
    if negb (field_is e 2 data (offset + 0x04) (offset + 0x06) 0x08)
    then 8 else 0
  end.

(** The buffer holds the fields decode reads before it decides check
    number [check]: nothing but the BOM for the first three, then the
    total length (up to 0x0C), the data start offset (0x10), the SFAT
    header length (0x1A); for the seventh the rest of the SFAT header
    and the index records its node count announces; for the eighth the
    SFNT header length as well. *)
Definition fields_before (check : Z) (data : bytes) : bool :=
  match bom (slice data 0x06 0x08) with
  | None => true
  | Some e =>
      match check with
      | 4 => 0x0C <=? blen data
      | 5 => 0x10 <=? blen data
      | 6 => 0x1A <=? blen data
      | 7 => 0x20 + 0x10 * node_count e data <=? blen data
      | 8 => 0x20 + 0x10 * node_count e data + 0x06 <=? blen data
      | _ => true
      end
  end.

(** §3, §8: the full slash-delimited path and the payload of every file
    of a tree. *)
Fixpoint files_of (e : entry) : list (str * bytes) :=
  match e with
  | is_File f => [(name f, data f)]
  | Folder n c =>
      map (fun pd => (n ++ SLASH :: fst pd, snd pd)) (flat_map files_of c)
  end.

Definition tree_files (c : list entry) : list (str * bytes) :=
  flat_map files_of c.

(** §3: names that can sit in a tree location and in the name table: no
    path separator and no NUL (the name table is NUL-terminated); a
    folder name is moreover non-empty and holds no backslash (paths are
    normalised by turning backslashes into slashes). *)
Definition clean (s : str) : bool :=
  negb (contains 0 s) && negb (contains SLASH s).

Fixpoint valid_names (e : entry) : bool :=
  match e with
  | is_File f => clean (name f)
  | Folder n c =>
      clean n && negb (contains BACKSLASH n)
      && negb (match n with [] => true | _ => false end)
      && forallb valid_names c
  end.

(** §3 invariant: no two entries of a folder share a name. *)
Fixpoint distinct (names : list str) : bool :=
  match names with
  | [] => true
  | n :: r => negb (existsb (str_eqb n) r) && distinct r
  end.

Fixpoint unique_names (e : entry) : bool :=
  match e with
  | is_File _ => true
  | Folder _ c => distinct (map entry_name c) && forallb unique_names c
  end.

Definition well_formed (c : list entry) : bool :=
  forallb valid_names c && distinct (map entry_name c)
  && forallb unique_names c.

End Spec.

(* ================================================================== *)
(** * The layout of the produced bytes, as the proofs describe it *)
(* ================================================================== *)

(** Where a path sits in the name table: at [off], encoded, followed by
    a terminator. *)
Definition name_at (names : bytes) (off : Z) (path : str) : Prop :=
  exists pre enc post,
    names = pre ++ enc ++ Byte.x00 :: post /\ blen pre = off /\
    encode path = Ok enc /\ off mod 4 = 0.

(** Where a payload sits in the data table. *)
Definition data_at (table : bytes) (off : Z) (d : bytes) : Prop :=
  exists pre post, table = pre ++ d ++ post /\ blen pre = off.

(** Per file, in SFAT order: its path and object, and where its name and
    payload sit in the two tables. *)
Definition row_ok (t : tables) (pf : str * File) (fod : File * Z * Z) : Prop :=
  fst (fst fod) = snd pf /\
  name_at (fileNamesTable t) (snd (fst fod)) (fst pf) /\
  0 <= snd (fst fod) < blen (fileNamesTable t) /\
  data_at (fileDataTable t) (snd fod) (data (snd pf)).

Definition in32 (v : Z) : Prop := 0 <= v < 2 ^ 32.

Definition node_fields (m : Z) (r : (File * Z * Z) * (str * File))
  : Z * Z * Z * Z :=
  let '((_, filenameoffset, filedataoffset), (filepath, file)) := r in
  (Spec.hash filepath m, Z.lor (filenameoffset / 4) 0x1000000,
   filedataoffset, filedataoffset + blen (data file)).

Definition node_bytes (e : endianness) (q : Z * Z * Z * Z) : bytes :=
  let '(h, a, b, c) := q in
  order e (le_split 4 h) ++ order e (le_split 4 a) ++
  order e (le_split 4 b) ++ order e (le_split 4 c).

Definition node_in_range (q : Z * Z * Z * Z) : Prop :=
  let '(h, a, b, c) := q in in32 h /\ in32 a /\ in32 b /\ in32 c.

Definition bom_bytes (e : endianness) : bytes :=
  match e with Big => BOM_big | Little => BOM_little end.

Definition header (e : endianness) (total dso n m : Z) : bytes :=
  SARC_magic ++ order e (le_split 2 0x14) ++ bom_bytes e ++
  order e (le_split 4 total) ++ order e (le_split 4 dso) ++
  match e with
  | Big => [Byte.x01; Byte.x00; Byte.x00; Byte.x00]
  | Little => [Byte.x00; Byte.x01; Byte.x00; Byte.x00]
  end ++
  SFAT_magic ++ order e (le_split 2 0x0C) ++ order e (le_split 2 n) ++
  order e (le_split 4 m).

Definition sfnt_header (e : endianness) : bytes :=
  SFNT_magic ++
  match e with
  | Big => [Byte.x00; Byte.x08]
  | Little => [Byte.x08; Byte.x00]
  end ++ [Byte.x00; Byte.x00].

Definition padding (headerSize dso : Z) : bytes :=
  if headerSize <? dso then zeros (dso - headerSize) else [].

(** The four fields of the [i]-th index record of a buffer. *)
Definition record_field (e : endianness) (buf : bytes) (i : nat) (k : Z)
  : result Z :=
  unpack_I e (slice buf (0x20 + 0x10 * Z.of_nat i + 4 * k)
                        (0x20 + 0x10 * Z.of_nat i + 4 * k + 4)).

(** The paths of a tree, each with its [File] object. *)
Fixpoint entry_paths (e : entry) : list (str * File) :=
  match e with
  | is_File f => [(name f, f)]
  | Folder n c =>
      map (fun pf => (n ++ SLASH :: fst pf, snd pf)) (flat_map entry_paths c)
  end.

(** What [read_node] makes of the four fields of a record. *)
Definition read_fields (q : Z * Z * Z * Z) : SFATNode :=
  let '(h, a, b, c) := q in
  (byte.of_Z (Z.shiftr a 24), a mod 2 ^ 24, b, c - b).

Definition readable (buf : bytes) (offset dso : Z)
    (node : SFATNode) (pd : str * bytes) : Prop :=
  let '(_, no, start, len) := node in
  bytes_to_string buf (offset + no * 4) = Ok (fst pd) /\
  slice buf (dso + start) (dso + start + len) = snd pd.

Definition head_segment (p : str) : str :=
  match split SLASH p with
  | h :: _ => h
  | [] => []
  end.

(** The lowest set bit of [dso] is bit [p]. *)
Definition lowest_bit (dso p : Z) : Prop :=
  0 <= p /\ Z.testbit dso p = true /\
  forall i, 0 <= i < p -> Z.testbit dso i = false.

(* ================================================================== *)
(** * Notions the further properties are stated with *)
(* ================================================================== *)

(** [folderStructure = key.replace('\\', '/').split('/')] *)
Definition folderStructure_of (key : str) : list str :=
  split SLASH (replace BACKSLASH SLASH key).

(** Every entry of a tree, folders included, at any depth. *)
Fixpoint entries_of (e : entry) : list entry :=
  match e with
  | is_File _ => [e]
  | Folder _ c => e :: flat_map entries_of c
  end.

Definition tree_entries (c : list entry) : list entry := flat_map entries_of c.

(** The walk and the final loop of [__getitem__] from a container. *)
Definition lookup (cur : list entry) (folderStructure : list str) : result entry :=
  cur <- getitem_walk cur (but_last folderStructure) ;;
  last <- last_item folderStructure ;;
  match find_named cur last with
  | Some file => Ok file
  | None => Raise KeyError
  end.

(** The final loops of [__setitem__] and [__delitem__] on the container
    the walk ends in. *)
Definition setitem_last (key : str) (val : value) (cur : list entry)
  : list entry * result unit :=
  match find_named cur key with
  | Some _ => (remove_named cur key, Raise RuntimeError)
  | None => (set_add val cur, Ok tt)
  end.


Definition delitem_last (key : str) (cur : list entry)
  : list entry * result unit :=
  match find_named cur key with
  | Some _ => (remove_named cur key, Ok tt)
  | None => (cur, Raise KeyError)
  end.

(** A path and its payload, moved below the folders [folders]. *)
Definition under (folders : list str) (pd : str * bytes) : str * bytes :=
  (join SLASH (folders ++ [fst pd]), snd pd).

(** The names of the folders of a container. *)
Definition folder_names (c : list entry) : list str :=
  flat_map (fun e => match e with Folder n _ => [n] | is_File _ => [] end) c.

(** The shape of a tree that [_load] builds: no name holds a slash, the
    folders of one container have distinct names, and no folder is
    empty. *)
Fixpoint as_loaded (e : entry) : bool :=
  match e with
  | is_File f => negb (contains SLASH (name f))
  | Folder n c =>
      negb (contains SLASH n)
      && negb (match c with [] => true | _ :: _ => false end)
      && Spec.distinct (folder_names c)
      && forallb as_loaded c
  end.

Definition loaded_shape (c : list entry) : bool :=
  Spec.distinct (folder_names c) && forallb as_loaded c.

(** The hashes of the full paths of a tree. *)
Definition path_hashes (m : Z) (c : list entry) : list Z :=
  map (fun pf => Spec.hash (fst pf) m) (flat_map entry_paths c).

(** The same tree with the entries of some containers listed in another
    order (another iteration order of the sets). *)
Inductive reordered : list entry -> list entry -> Prop :=
| reordered_nil : reordered [] []
| reordered_file f c c' :
    reordered c c' -> reordered (is_File f :: c) (is_File f :: c')
| reordered_folder n a a' c c' :
    reordered a a' -> reordered c c' ->
    reordered (Folder n a :: c) (Folder n a' :: c')
| reordered_swap x y c : reordered (y :: x :: c) (x :: y :: c)
| reordered_trans c1 c2 c3 :
    reordered c1 c2 -> reordered c2 c3 -> reordered c1 c3.

(** A name a folder can bear in a path of the name table. *)
Definition folder_name_ok (n : str) : Prop :=
  contains 0 n = false /\ contains BACKSLASH n = false /\ n <> [].

(** A path whose segments are names a tree can hold. *)
Definition valid_path (p : str) : Prop :=
  Forall folder_name_ok (but_last (split SLASH p)) /\
  exists l, last_item (split SLASH p) = Ok l /\ contains 0 l = false.

(** The last segment of a path, and the [(path, File)] pair of a path
    and a payload. *)
Definition base (p : str) : str :=
  match last_item (split SLASH p) with
  | Ok l => l
  | Raise _ => []
  end.

Definition rebuild (pd : str * bytes) : str * File :=
  (fst pd, new_File (base (fst pd)) (snd pd)).




(** Where the payload of an element of [files] starts and ends in the
    file data table. *)
Definition payload_start (fod : File * Z * Z) : Z := snd fod.
Definition payload_end (fod : File * Z * Z) : Z :=
  snd fod + blen (data (fst (fst fod))).


Definition uniq (c : list entry) : Prop :=
  NoDup (map entry_name c) /\ forallb Spec.unique_names c = true.






(** The number of folder levels of a tree: how deep the calls of
    [addToFlatList], and of [addFolderStructure], nest on it. *)
Fixpoint entry_depth (e : entry) : nat :=
  match e with
  | is_File _ => 0
  | Folder _ c => S (list_max (map entry_depth c))
  end.

Definition depth (c : list entry) : nat := list_max (map entry_depth c).

(** The number of folders on a path. *)
Definition slashes (p : str) : nat := count_occ Z.eq_dec p SLASH.

(** No path of the list is a folder on another path of the list. *)
Definition prefix_free (paths : list str) : Prop :=
  forall p q, In p paths -> In (p ++ SLASH :: q) paths -> False.

(* ================================================================== *)
(** * Concrete archives and buffers *)
(* ================================================================== *)

(** The room for calls that the examples are run with. *)
Definition sample_frames : nat := 16.

(** A sample tree: three files in two folders; it is saved with a
    caller's offset of 0x70. *)
Definition sample_tree : list entry :=
  [ is_File (new_File (lit "b.txt") (blit "hello"));
    Folder (lit "dir")
      [ is_File (new_File (lit "x") (blit "0123456789abcdefXYZ"));
        Folder (lit "sub") [ is_File (new_File (lit "y") (blit "yy")) ] ];
    is_File (new_File (lit "a") (blit "A")) ].

Definition sample_archive (e : endianness) : SARC_Archive :=
  {| contents := sample_tree; endian := e; hashMultiplier := 0x65 |}.

Definition sample_tables (e : endianness) : tables :=
  match build_tables sample_frames (sample_archive e) 0x70 with
  | Ok t => t
  | Raise _ =>
      {| flatList := []; files := []; fileNamesTable := [];
         dataStartOffset_min := 0; dataStartOffset := 0; alignment := 0;
         fileDataTable := [] |}
  end.

Definition sample_buffer (e : endianness) : bytes :=
  match save sample_frames (sample_archive e) 0x70 with
  | Ok b => b
  | Raise _ => []
  end.

Definition bad_length_buffer : bytes :=
  blit "SARC" ++ [Byte.x15; Byte.x00; Byte.xff; Byte.xfe; Byte.x00].

Definition no_sfnt_buffer : bytes :=
  blit "SARC" ++ [Byte.x00; Byte.x14; Byte.xfe; Byte.xff;
                  Byte.x00; Byte.x00; Byte.x00; Byte.x20;
                  Byte.x00; Byte.x00; Byte.x00; Byte.x20;
                  Byte.x01; Byte.x00; Byte.x00; Byte.x00] ++
  blit "SFAT" ++ [Byte.x00; Byte.x0c; Byte.x00; Byte.x00;
                  Byte.x00; Byte.x00; Byte.x00; Byte.x07].

(** Buffers crafted to fail exactly one check each. *)
Definition sarc_head (len : byte) : bytes :=
  blit "SARC" ++ [Byte.x00; Byte.x14; Byte.xfe; Byte.xff;
                  Byte.x00; Byte.x00; Byte.x00; len;
                  Byte.x00; Byte.x00; Byte.x00; Byte.x30;
                  Byte.x01; Byte.x00; Byte.x00; Byte.x00].

Definition sfat_head (count : byte) : bytes :=
  blit "SFAT" ++ [Byte.x00; Byte.x0c; Byte.x00; count;
                  Byte.x00; Byte.x00; Byte.x00; Byte.x65].

Definition fails_check (k : Z) : bytes :=
  match k with
  | 1 => blit "CRAS"
  | 2 => blit "SARC" ++ [Byte.x00; Byte.x14; Byte.xff; Byte.xff]
  | 3 => blit "SARC" ++ [Byte.x00; Byte.x15; Byte.xfe; Byte.xff]
  | 4 => sarc_head Byte.x13
  | 5 => sarc_head Byte.x18 ++ blit "TAFS"
  | 6 => sarc_head Byte.x1a ++ blit "SFAT" ++ [Byte.x00; Byte.x0d]
  | 7 => sarc_head Byte.x24 ++ sfat_head Byte.x00 ++ blit "TNFS"
  | 8 => sarc_head Byte.x26 ++ sfat_head Byte.x00 ++ blit "SFNT"
           ++ [Byte.x00; Byte.x09]
  | _ => []
  end.

(** A well-formed 0x20-byte header that announces one index record, in a
    buffer that ends right after the header. *)
Definition truncated_buffer : bytes :=
  sarc_head Byte.x20 ++ sfat_head Byte.x01.

Definition no_attrs : class_attrs := {| File_name := None |}.
Definition empty_archive : SARC_Archive := new_archive Big 0x65.
Definition file_c : File := new_File (lit "c") (blit "payload").
Definition unnamed_file : File := new_File [] (blit "payload").

(** Two files whose hashes order them "a", "b"; the first payload is 17
    bytes long. *)
Definition two_files : SARC_Archive :=
  {| contents := [ is_File (new_File (lit "a") (blit "0123456789abcdefg"));
                   is_File (new_File (lit "b") (blit "B")) ];
     endian := Big; hashMultiplier := 0x65 |}.

(** A root file whose name holds a NUL: "a\0". *)
Definition nul_archive : SARC_Archive :=
  {| contents := [is_File (new_File [97; 0] (blit "x"))];
     endian := Big; hashMultiplier := 0x65 |}.

Definition nul_buffer : bytes :=
  match save sample_frames nul_archive 0 with
  | Ok b => b
  | Raise _ => []
  end.

(** One index record (big-endian) whose name, at the start of the name
    table, is the byte 0xFF, which no UTF-8 text contains. *)
Definition bad_name_buffer : bytes :=
  sarc_head Byte.x3c ++ sfat_head Byte.x01 ++
  [Byte.x00; Byte.x00; Byte.x00; Byte.x00; Byte.x01; Byte.x00; Byte.x00; Byte.x00;
   Byte.x00; Byte.x00; Byte.x00; Byte.x00; Byte.x00; Byte.x00; Byte.x00; Byte.x00] ++
  blit "SFNT" ++ [Byte.x00; Byte.x08; Byte.x00; Byte.x00] ++
  [Byte.xff; Byte.x00; Byte.x00; Byte.x00].

Definition sample_tree_reordered : list entry :=
  [ Folder (lit "dir")
      [ Folder (lit "sub") [ is_File (new_File (lit "y") (blit "yy")) ];
        is_File (new_File (lit "x") (blit "0123456789abcdefXYZ")) ];
    is_File (new_File (lit "b.txt") (blit "hello"));
    is_File (new_File (lit "a") (blit "A")) ].

(** The tables of the sample archive saved with a requested offset of
    0, as a caller without wishes does. *)
Definition sample_tables_default : tables :=
  match build_tables sample_frames (sample_archive Big) 0 with
  | Ok t => t
  | Raise _ =>
      {| flatList := []; files := []; fileNamesTable := [];
         dataStartOffset_min := 0; dataStartOffset := 0; alignment := 0;
         fileDataTable := [] |}
  end.


(* ================================================================== *)
(** * Properties *)
(* ================================================================== *)

(** ** The runtime model on concrete values *)

Example encode_two_bytes : encode [0xE9] = Ok [Byte.xc3; Byte.xa9].
Proof. reflexivity. Qed.

Example encode_three_bytes :
  encode [0x20AC] = Ok [Byte.xe2; Byte.x82; Byte.xac].
Proof. reflexivity. Qed.

Example encode_four_bytes :
  encode [0x1F600] = Ok [Byte.xf0; Byte.x9f; Byte.x98; Byte.x80].
Proof. reflexivity. Qed.

Example encode_surrogate : encode [0xD800] = Raise UnicodeEncodeError.
Proof. reflexivity. Qed.

Example decode_overlong :
  decode [Byte.xc0; Byte.x80] = Raise UnicodeDecodeError.
Proof. reflexivity. Qed.

Example decode_truncated :
  decode [Byte.xe2; Byte.x82] = Raise UnicodeDecodeError.
Proof. reflexivity. Qed.

Example split_empty_segments :
  split SLASH (lit "a/b//c") = [lit "a"; lit "b"; lit ""; lit "c"] /\
  split SLASH (lit "") = [lit ""] /\
  split SLASH (lit "/") = [lit ""; lit ""].
Proof. repeat split; reflexivity. Qed.

Example pack_big_little :
  pack_I Big 0x01000003 = Ok [Byte.x01; Byte.x00; Byte.x00; Byte.x03] /\
  pack_H Little 0x14 = Ok [Byte.x14; Byte.x00] /\
  pack_H Big 0x10000 = Raise struct_error /\
  unpack_I Little [Byte.x03; Byte.x00; Byte.x00] = Raise struct_error.
Proof. repeat split; reflexivity. Qed.

(** Equal keys keep their original order. *)
Example sort_keyed_stable :
  sort_keyed [(1, 10); (0, 20); (1, 30); (0, 40)]
  = [(0, 20); (0, 40); (1, 10); (1, 30)].
Proof. reflexivity. Qed.

Example round_up_values :
  SARC.round_up 0x88 0x10 = 0x90 /\ SARC.round_up 0x90 0x200 = 0x200 /\
  SARC.round_up 0 0x10 = 0 /\ SARC.round_up (-17) 0x10 = -16 /\
  SARC.round_up 0x11 0x70 = 0x80.
Proof. repeat split; reflexivity. Qed.

(** ** Hash function *)

Lemma land_mask32 x : Z.land x 0xFFFFFFFF = x mod 2 ^ 32.
Proof. change 0xFFFFFFFF with (Z.ones 32). apply Z.land_ones. lia. Qed.

Lemma hash_value_spec name m : hash_value name m = Spec.hash name m.
Proof.
  unfold hash_value, Spec.hash, ord. generalize 0.
  induction name as [|c r IH]; intros acc; simpl; [reflexivity|].
  rewrite land_mask32. apply IH.
Qed.

Lemma hash_range name m : 0 <= Spec.hash name m < 2 ^ 32.
Proof.
  unfold Spec.hash.
  assert (H : forall acc, 0 <= acc < 2 ^ 32 ->
            0 <= fold_left (fun r c => (r * m + c) mod 2 ^ 32) name acc < 2 ^ 32).
  { induction name as [|c r IH]; intros acc Hacc; simpl; [exact Hacc|].
    apply IH. apply Z.mod_pos_bound. lia. }
  apply H. lia.
Qed.

Lemma order_involutive e bs : order e (order e bs) = bs.
Proof. destruct e; simpl; [apply rev_involutive | reflexivity]. Qed.

Lemma order_length e bs : length (order e bs) = length bs.
Proof. destruct e; simpl; [apply length_rev | reflexivity]. Qed.

Lemma pack_ok e n v :
  0 <= v < 2 ^ (8 * Z.of_nat n) -> pack e n v = Ok (order e (le_split n v)).
Proof.
  intros H. unfold pack.
  destruct (0 <=? v) eqn:E1; [|lia].
  destruct (v <? 2 ^ (8 * Z.of_nat n)) eqn:E2; [reflexivity|lia].
Qed.

Lemma pack_inv e n v bs :
  pack e n v = Ok bs ->
  0 <= v < 2 ^ (8 * Z.of_nat n) /\ bs = order e (le_split n v).
Proof.
  unfold pack.
  destruct (Z.leb_spec 0 v); destruct (Z.ltb_spec v (2 ^ (8 * Z.of_nat n)));
    cbn [andb]; intros Hp; inversion Hp; subst. split; [lia|reflexivity].
Qed.

Lemma unpack_order_split e n v :
  0 <= v < 2 ^ (8 * Z.of_nat n) ->
  unpack e n (order e (le_split n v)) = Ok v.
Proof.
  intros H. unfold unpack.
  rewrite order_length, length_le_split, Nat.eqb_refl, order_involutive.
  rewrite le_combine_split. f_equal. apply Z.mod_small.
  replace (Z.of_nat n * 8) with (8 * Z.of_nat n) by lia. exact H.
Qed.

(** C5. [filenameHash] is total and pure: for every name, endianness and
    multiplier it returns four bytes which, read back in that endianness,
    are the value obtained by iterating
    [result = (result * multiplier + code_point(char)) mod 2^32] from 0
    over the characters in order; the hash of "a" with multiplier 0x65
    is 0x61, and so is the key [save] sorts the path "a" by, where there
    is room for the two calls the key makes. *)
Theorem filenameHash_spec :
  (forall name e m,
     filenameHash name e m = Ok (order e (le_split 4 (Spec.hash name m))) /\
     unpack_I e (order e (le_split 4 (Spec.hash name m))) = Ok (Spec.hash name m) /\
     0 <= Spec.hash name m < 2 ^ 32) /\
  Spec.hash (lit "a") 0x65 = 0x61 /\
  (forall e frames,
     sort_key (S (S frames)) (new_archive e 0x65) (lit "a", new_File (lit "a") [])
       = Ok 0x61).
Proof.
  split; [|split].
  - intros name e m. pose proof (hash_range name m) as R.
    unfold filenameHash, pack_I, unpack_I. rewrite hash_value_spec.
    rewrite pack_ok by exact R. rewrite unpack_order_split by exact R.
    repeat split; lia.
  - reflexivity.
  - intros e frames. destruct e; reflexivity.
Qed.

(** ** Slices of [bytes] *)

Lemma blen_app (a b : bytes) : blen (a ++ b) = blen a + blen b.
Proof. unfold blen. rewrite length_app. lia. Qed.

Lemma blen_nonneg (a : bytes) : 0 <= blen a.
Proof. unfold blen. lia. Qed.

Lemma blen_zeros n : 0 <= n -> blen (zeros n) = n.
Proof. intros H. unfold blen, zeros. rewrite repeat_length. lia. Qed.

Lemma bound_nonneg data i : 0 <= i -> bound data i = i.
Proof.
  intros H. unfold bound, from_end. destruct (Z.ltb_spec i 0); lia.
Qed.

Lemma slice_nonneg data a b :
  0 <= a -> 0 <= b ->
  slice data a b = firstn (Z.to_nat (b - a)) (skipn (Z.to_nat a) data).
Proof. intros Ha Hb. unfold slice. rewrite !bound_nonneg by assumption. reflexivity. Qed.

Lemma slice_app_l (x y : bytes) a b :
  0 <= a -> 0 <= b -> b <= blen x -> slice (x ++ y) a b = slice x a b.
Proof.
  intros Ha Hb0 Hb. rewrite !slice_nonneg by lia. unfold blen in Hb.
  rewrite skipn_app, firstn_app.
  replace (Z.to_nat (b - a) - length (skipn (Z.to_nat a) x))%nat with 0%nat
    by (rewrite length_skipn; lia).
  simpl. apply app_nil_r.
Qed.

Lemma slice_app_r (x y : bytes) a b :
  blen x <= a -> blen x <= b ->
  slice (x ++ y) a b = slice y (a - blen x) (b - blen x).
Proof.
  intros Ha Hb. pose proof (blen_nonneg x) as Hx.
  rewrite !slice_nonneg by lia. unfold blen in *.
  rewrite skipn_app.
  rewrite (skipn_all2 x) by lia. simpl.
  f_equal; [f_equal; lia|f_equal; lia].
Qed.

Lemma slice_full (x : bytes) : slice x 0 (blen x) = x.
Proof.
  rewrite slice_nonneg by (pose proof (blen_nonneg x); lia).
  unfold blen. simpl. rewrite Z.sub_0_r, Nat2Z.id. apply firstn_all.
Qed.

Lemma slice_mid (pre x post : bytes) off :
  blen pre = off -> slice (pre ++ x ++ post) off (off + blen x) = x.
Proof.
  intros <-. pose proof (blen_nonneg pre). pose proof (blen_nonneg x).
  rewrite slice_app_r by lia.
  rewrite slice_app_l by lia.
  replace (blen pre - blen pre) with 0 by lia.
  replace (blen pre + blen x - blen pre) with (blen x) by lia.
  apply slice_full.
Qed.

Lemma slice_at (pre x post : bytes) a b :
  blen pre = a -> b = a + blen x -> slice (pre ++ x ++ post) a b = x.
Proof. intros Ha ->. apply slice_mid. exact Ha. Qed.

Lemma slice_from_app_r (x y : bytes) a :
  blen x <= a -> slice_from (x ++ y) a = slice_from y (a - blen x).
Proof.
  intros Ha. pose proof (blen_nonneg x) as Hx. unfold slice_from.
  rewrite !bound_nonneg by lia. unfold blen in *. rewrite skipn_app.
  rewrite (skipn_all2 x) by lia. simpl. f_equal. lia.
Qed.

Lemma length_slice (x : bytes) a b :
  0 <= a -> a <= b -> b <= blen x -> length (slice x a b) = Z.to_nat (b - a).
Proof.
  intros. rewrite slice_nonneg by lia. unfold blen in *.
  rewrite length_firstn, length_skipn. lia.
Qed.

Lemma index_nonneg data i :
  0 <= i ->
  index data i = match nth_error data (Z.to_nat i) with
                 | Some b => Ok b
                 | None => Raise IndexError
                 end.
Proof.
  intros H. unfold index, from_end.
  destruct (Z.ltb_spec i 0) as [L|_]; [lia|]. cbv zeta.
  destruct (Z.ltb_spec i 0) as [L|_]; [lia|]. reflexivity.
Qed.

Lemma index_mid (pre post : bytes) b off :
  blen pre = off -> index (pre ++ b :: post) off = Ok b.
Proof.
  intros <-. rewrite index_nonneg by apply blen_nonneg. unfold blen.
  rewrite Nat2Z.id.
  rewrite nth_error_app2 by lia. rewrite Nat.sub_diag. reflexivity.
Qed.

Lemma find_zero_app (enc post : bytes) pos :
  ~ In Byte.x00 enc ->
  find_zero (enc ++ Byte.x00 :: post) pos = pos + blen enc.
Proof.
  revert pos. induction enc as [|b r IH]; intros pos Hn.
  - simpl. unfold blen. simpl. lia.
  - cbn [app find_zero].
    destruct (Byte.eqb b Byte.x00) eqn:E.
    + apply Byte.byte_dec_bl in E. subst. exfalso. apply Hn. left. reflexivity.
    + rewrite IH by (intros H; apply Hn; right; exact H).
      unfold blen. cbn [length]. lia.
Qed.

Lemma find_mid (pre enc post : bytes) off :
  blen pre = off -> ~ In Byte.x00 enc ->
  find (pre ++ enc ++ Byte.x00 :: post) off = off + blen enc.
Proof.
  intros <- Hn. unfold find. rewrite bound_nonneg by apply blen_nonneg.
  cbv zeta. unfold blen at 1. rewrite Nat2Z.id.
  rewrite skipn_app, skipn_all, Nat.sub_diag. simpl skipn. simpl app.
  apply find_zero_app. exact Hn.
Qed.

(** ** Rounding *)

Lemma lor_ones y k : 0 <= k -> Z.lor y (Z.ones k) = y / 2 ^ k * 2 ^ k + Z.ones k.
Proof.
  intros Hk.
  rewrite <- Z.shiftr_div_pow2, <- Z.shiftl_mul_pow2 by lia.
  rewrite <- Z.or_to_plus; Z.bitblast.
Qed.

Lemma round_up_pow2 x k :
  0 <= k -> SARC.round_up x (2 ^ k) = Spec.round_up x (2 ^ k).
Proof.
  intros Hk. unfold SARC.round_up, Spec.round_up.
  replace (2 ^ k - 1) with (Z.ones k) by (rewrite Z.ones_equiv; lia).
  rewrite lor_ones by lia. rewrite Z.ones_equiv.
  assert (P : 0 < 2 ^ k) by (apply Z.pow_pos_nonneg; lia).
  replace (x + 2 ^ k - 1) with ((x - 1) + 1 * 2 ^ k) by lia.
  rewrite Z.div_add by lia. lia.
Qed.

Lemma round_up_0x10 x : SARC.round_up x 0x10 = Spec.round_up x 0x10.
Proof. apply (round_up_pow2 x 4). lia. Qed.

Lemma round_up_0x200 x : SARC.round_up x 0x200 = Spec.round_up x 0x200.
Proof. apply (round_up_pow2 x 9). lia. Qed.

Lemma spec_round_up_ge x y : 0 < y -> x <= Spec.round_up x y.
Proof.
  intros Hy. unfold Spec.round_up.
  pose proof (Z.div_mod (x + y - 1) y) as D.
  pose proof (Z.mod_pos_bound (x + y - 1) y Hy). lia.
Qed.

Lemma spec_round_up_mod x y : 0 < y -> Spec.round_up x y mod y = 0.
Proof. intros Hy. unfold Spec.round_up. apply Z.mod_mul. lia. Qed.

Lemma effective_dataStartOffset_spec minimum desired :
  effective_dataStartOffset minimum desired =
  (let chosen := Z.max minimum (Spec.round_up desired 0x10) in
   if chosen =? minimum then Spec.round_up chosen 0x200 else chosen).
Proof.
  unfold effective_dataStartOffset.
  rewrite round_up_0x10, round_up_0x200. reflexivity.
Qed.

(** ** The tables built by [save] *)

Lemma bind_ok {A B} (r : result A) (k : A -> result B) b :
  bind r k = Ok b -> exists a, r = Ok a /\ k a = Ok b.
Proof. destruct r as [a|e]; simpl; intros H; [eauto|discriminate]. Qed.

Lemma call_ok {A} frames (body : nat -> result A) a :
  call frames body = Ok a -> exists f, frames = S f /\ body f = Ok a.
Proof. destruct frames as [|f]; simpl; intros H; [discriminate|eauto]. Qed.

Lemma zeros_pad n : 0 < n -> zeros n = Byte.x00 :: zeros (n - 1).
Proof.
  intros H. unfold zeros.
  replace (Z.to_nat n) with (S (Z.to_nat (n - 1))) by lia. reflexivity.
Qed.

Lemma names_table_inv fl : forall tbl acc names files0,
  names_table fl tbl acc = Ok (names, files0) ->
  blen tbl mod 4 = 0 ->
  exists suffix news,
    names = tbl ++ suffix /\ files0 = acc ++ news /\
    blen names mod 4 = 0 /\
    Forall2 (fun pf fo => fst fo = snd pf /\ name_at names (snd fo) (fst pf) /\
                          blen tbl <= snd fo < blen names)
            fl news.
Proof.
  induction fl as [|[path file] rest IH]; intros tbl acc names files0 H Hal.
  - simpl in H. inversion H; subst. exists [], []. rewrite !app_nil_r.
    repeat split; auto.
  - cbn [names_table] in H.
    apply bind_ok in H. destruct H as (enc & Henc & H).
    set (k := 0x04 - blen (tbl ++ enc) mod 0x04) in H.
    assert (Hk : 0 < k <= 4).
    { subst k. pose proof (Z.mod_pos_bound (blen (tbl ++ enc)) 4). lia. }
    apply IH in H.
    2:{ rewrite blen_app, blen_zeros by lia. subst k.
        pose proof (Z.div_mod (blen (tbl ++ enc)) 4).
        replace (blen (tbl ++ enc) + (4 - blen (tbl ++ enc) mod 4))
          with (4 * (blen (tbl ++ enc) / 4 + 1)) by lia.
        rewrite Z.mul_comm. apply Z.mod_mul. lia. }
    destruct H as (suffix & news & Hn & Hf & Hmod & HF).
    exists (enc ++ zeros k ++ suffix), ((file, blen tbl) :: news).
    split; [rewrite Hn; rewrite <- !app_assoc; reflexivity|].
    split; [rewrite Hf; rewrite <- app_assoc; reflexivity|].
    split; [exact Hmod|].
    assert (Hlen : blen names = blen tbl + blen enc + k + blen suffix).
    { rewrite Hn, !blen_app, blen_zeros by lia. lia. }
    constructor.
    + cbn [fst snd]. split; [reflexivity|]. split.
      * exists tbl, enc, (zeros (k - 1) ++ suffix).
        split; [|auto].
        rewrite Hn. rewrite <- !app_assoc. rewrite (zeros_pad k) by lia.
        reflexivity.
      * pose proof (blen_nonneg enc). pose proof (blen_nonneg suffix). lia.
    + eapply Forall2_impl; [|exact HF].
      intros pf fo (E1 & E2 & E3). split; [exact E1|]. split; [exact E2|].
      rewrite !blen_app, blen_zeros in E3 by lia.
      pose proof (blen_nonneg enc). lia.
Qed.

Lemma data_table_inv al files0 : forall idx tbl out fdt files1,
  data_table al idx files0 tbl out = (fdt, files1) ->
  exists suffix news,
    fdt = tbl ++ suffix /\ files1 = out ++ news /\
    Forall2 (fun fo fod => fst fod = fo /\
                           data_at fdt (snd fod) (data (fst fo)))
            files0 news.
Proof.
  induction files0 as [|[file no] rest IH]; intros idx tbl out fdt files1 H.
  - simpl in H. inversion H; subst. exists [], []. rewrite !app_nil_r.
    repeat split; auto.
  - cbn [data_table] in H.
    remember (if 0 <? idx
              then tbl ++ zeros (SARC.round_up (blen tbl) al - blen tbl)
              else tbl) as tbl1 eqn:E.
    assert (Ht : exists pad, tbl1 = tbl ++ pad).
    { subst tbl1. destruct (0 <? idx); [eexists; reflexivity|].
      exists []. rewrite app_nil_r. reflexivity. }
    destruct Ht as (pad & Ht). clear E. subst tbl1.
    apply IH in H. destruct H as (suffix & news & Hn & Hf & HF).
    exists (pad ++ data file ++ suffix), ((file, no, blen (tbl ++ pad)) :: news).
    split; [rewrite Hn; rewrite <- !app_assoc; reflexivity|].
    split; [rewrite Hf; rewrite <- app_assoc; reflexivity|].
    constructor; [|exact HF].
    cbn [fst snd]. split; [reflexivity|].
    exists (tbl ++ pad), suffix. split; [|reflexivity].
    rewrite Hn. rewrite <- !app_assoc. reflexivity.
Qed.

(** [list.sort]: a permutation of its input, ordered by key. *)
Lemma insert_sorted_perm {A} (x : Z * A) l : Permutation (insert_sorted x l) (x :: l).
Proof.
  induction l as [|y r IH]; simpl; [reflexivity|].
  destruct (fst x <=? fst y); [reflexivity|].
  eapply perm_trans; [apply perm_skip; exact IH|apply perm_swap].
Qed.

Lemma sort_keyed_perm {A} (l : list (Z * A)) : Permutation (sort_keyed l) l.
Proof.
  induction l as [|x r IH]; simpl; [reflexivity|].
  eapply perm_trans; [apply insert_sorted_perm|]. constructor. exact IH.
Qed.

Lemma insert_sorted_sorted {A} (x : Z * A) l :
  Sorted (fun a b => fst a <= fst b) l ->
  Sorted (fun a b => fst a <= fst b) (insert_sorted x l).
Proof.
  induction 1 as [|y r Hs IH Hhd]; simpl.
  - repeat constructor.
  - destruct (Z.leb_spec (fst x) (fst y)).
    + constructor; [constructor; assumption|]. constructor. lia.
    + constructor; [exact IH|].
      destruct r as [|z r']; simpl.
      * constructor. lia.
      * destruct (Z.leb_spec (fst x) (fst z)); constructor; [lia|].
        inversion Hhd; subst. assumption.
Qed.

Lemma sort_keyed_sorted {A} (l : list (Z * A)) :
  Sorted (fun a b => fst a <= fst b) (sort_keyed l).
Proof.
  induction l as [|x r IH]; simpl; [constructor|].
  apply insert_sorted_sorted. exact IH.
Qed.

Lemma mapM_ok {A B} (f : A -> result B) l ys :
  mapM f l = Ok ys -> Forall2 (fun x y => f x = Ok y) l ys.
Proof.
  revert ys. induction l as [|x r IH]; intros ys H.
  - simpl in H. inversion H. constructor.
  - cbn [mapM] in H. apply bind_ok in H. destruct H as (y & Hy & H).
    apply bind_ok in H. destruct H as (ys' & Hys & H).
    inversion H; subst. constructor; [exact Hy|]. apply IH. exact Hys.
Qed.

Lemma map_snd_combine {A B} (xs : list A) (ys : list B) :
  length xs = length ys -> map snd (combine xs ys) = ys.
Proof.
  revert ys. induction xs as [|x r IH]; intros [|y ys] H; simpl in *;
    try discriminate; [reflexivity|].
  f_equal. apply IH. lia.
Qed.

Lemma sort_inv {A} (key : A -> result Z) l l' :
  sort key l = Ok l' ->
  Permutation l' l /\
  exists ks, map snd ks = l' /\ Forall (fun kx => key (snd kx) = Ok (fst kx)) ks /\
             Sorted (fun a b => fst a <= fst b) ks.
Proof.
  unfold sort. intros H. apply bind_ok in H. destruct H as (keys & Hk & H).
  inversion H; subst. clear H. apply mapM_ok in Hk.
  assert (Hlen : length keys = length l)
    by (symmetry; eapply Forall2_length; exact Hk).
  split.
  - eapply perm_trans; [apply Permutation_map; apply sort_keyed_perm|].
    rewrite map_snd_combine; [reflexivity|]. exact Hlen.
  - exists (sort_keyed (combine keys l)). split; [reflexivity|]. split.
    + assert (F : Forall (fun kx => key (snd kx) = Ok (fst kx)) (combine keys l)).
      { clear Hlen. induction Hk; simpl; constructor; auto. }
      eapply Permutation_Forall; [|exact F].
      symmetry. apply sort_keyed_perm.
    + apply sort_keyed_sorted.
Qed.

Lemma build_tables_inv {frames} self d t :
  build_tables frames self d = Ok t ->
  exists fl0 files0,
    flatten frames (contents self) [] = Ok fl0 /\
    sort (sort_key frames self) fl0 = Ok (flatList t) /\
    names_table (flatList t) [] [] = Ok (fileNamesTable t, files0) /\
    dataStartOffset_min t =
      SARC.round_up (0x20 + 0x10 * Z.of_nat (length files0) + 0x08
                     + blen (fileNamesTable t)) 0x10 /\
    dataStartOffset t = effective_dataStartOffset (dataStartOffset_min t) d /\
    get_alignment (Z.to_nat (Z.log2 (dataStartOffset t))) (dataStartOffset t)
      = Some (alignment t) /\
    data_table (alignment t) 0 files0 [] [] = (fileDataTable t, files t).
Proof.
  unfold build_tables. intros H.
  apply bind_ok in H. destruct H as (fl0 & Hfl0 & H).
  apply bind_ok in H. destruct H as (fl & Hfl & H).
  apply bind_ok in H. destruct H as ([names files0] & Hn & H).
  cbv zeta in H.
  apply bind_ok in H. destruct H as (dso_ & Hc & H).
  apply call_ok in Hc. destruct Hc as (f & _ & Hc). injection Hc as <-.
  destruct (get_alignment _ _) as [al|] eqn:Hal; [|discriminate].
  destruct (data_table al 0 files0 [] []) as [fdt files1] eqn:Hd.
  inversion H; subst; clear H. cbn.
  exists fl0, files0. repeat split; assumption.
Qed.

Lemma Forall2_compose {A B C} (P : A -> B -> Prop) (Q : B -> C -> Prop) l1 l2 l3 :
  Forall2 P l1 l2 -> Forall2 Q l2 l3 ->
  Forall2 (fun a c => exists b, P a b /\ Q b c) l1 l3.
Proof.
  intros H. revert l3. induction H; intros l3 H3; inversion H3; subst;
    constructor; eauto.
Qed.

Lemma build_tables_rows {frames} self d t :
  build_tables frames self d = Ok t ->
  Forall2 (row_ok t) (flatList t) (files t) /\
  blen (fileNamesTable t) mod 4 = 0.
Proof.
  intros H. apply build_tables_inv in H.
  destruct H as (fl0 & files0 & _ & _ & Hn & _ & _ & _ & Hd).
  apply names_table_inv in Hn; [|reflexivity].
  destruct Hn as (s1 & n1 & _ & E1 & Hmod & F1).
  apply data_table_inv in Hd. destruct Hd as (s2 & n2 & _ & E2 & F2).
  simpl in E1, E2. subst files0. rewrite E2. split; [|exact Hmod].
  eapply Forall2_impl; [|exact (Forall2_compose _ _ _ _ _ F1 F2)].
  intros pf fod (fo & (A1 & A2 & A3) & (B1 & B2)). unfold row_ok.
  rewrite B1. rewrite A1 in *. change (blen []) with 0 in A3. auto.
Qed.

(** ** The bytes [save] emits *)

Lemma sfat_nodes_inv e m l : forall acc sfat,
  sfat_nodes e m l acc = Ok sfat ->
  sfat = acc ++ concat (map (fun r => node_bytes e (node_fields m r)) l) /\
  Forall (fun r => node_in_range (node_fields m r)) l.
Proof.
  induction l as [|[[[f no] do] [path file]] rest IH]; intros acc sfat H.
  - simpl in H. inversion H. simpl. rewrite app_nil_r. auto.
  - cbn [sfat_nodes] in H.
    apply bind_ok in H. destruct H as (h & Hh & H).
    apply bind_ok in H. destruct H as (a & Ha & H).
    apply bind_ok in H. destruct H as (b & Hb & H).
    apply bind_ok in H. destruct H as (c & Hc & H).
    apply IH in H. destruct H as (Hs & HF).
    unfold filenameHash, pack_I in *. rewrite hash_value_spec in Hh.
    apply pack_inv in Hh, Ha, Hb, Hc.
    destruct Hh as (Rh & ->), Ha as (Ra & ->), Hb as (Rb & ->), Hc as (Rc & ->).
    split.
    + rewrite Hs. cbn [map concat node_fields node_bytes].
      rewrite <- !app_assoc. reflexivity.
    + constructor; [|exact HF]. cbn [node_fields node_in_range].
      unfold in32. auto.
Qed.

Lemma blen_header e total dso n m : blen (header e total dso n m) = 0x20.
Proof. destruct e; reflexivity. Qed.

Lemma blen_sfnt_header e : blen (sfnt_header e) = 8.
Proof. destruct e; reflexivity. Qed.

Lemma blen_node_bytes e q : blen (node_bytes e q) = 0x10.
Proof. destruct q as [[[h a] b] c]. destruct e; reflexivity. Qed.

Lemma blen_nodes e (qs : list (Z * Z * Z * Z)) :
  blen (concat (map (node_bytes e) qs)) = 0x10 * Z.of_nat (length qs).
Proof.
  induction qs as [|q r IH]; [reflexivity|].
  cbn [map concat length]. rewrite blen_app, blen_node_bytes, IH. lia.
Qed.

Lemma emit_inv self t buf :
  emit self t = Ok buf ->
  let e := endian self in
  let total := dataStartOffset t + blen (fileDataTable t) in
  let n := Z.of_nat (length (files t)) in
  let qs := map (node_fields (hashMultiplier self))
                (combine (files t) (flatList t)) in
  let headerSize := 0x28 + 0x10 * Z.of_nat (length qs)
                    + blen (fileNamesTable t) in
  in32 total /\ in32 (dataStartOffset t) /\ 0 <= n < 2 ^ 16 /\
  in32 (hashMultiplier self) /\ Forall node_in_range qs /\
  buf = header e total (dataStartOffset t) n (hashMultiplier self) ++
        concat (map (node_bytes e) qs) ++
        sfnt_header e ++ fileNamesTable t ++
        padding headerSize (dataStartOffset t) ++
        fileDataTable t.
Proof.
  unfold emit. intros H.
  apply bind_ok in H. destruct H as (x1 & H1 & H).
  apply bind_ok in H. destruct H as (x2 & H2 & H).
  apply bind_ok in H. destruct H as (x3 & H3 & H).
  apply bind_ok in H. destruct H as (x4 & H4 & H).
  apply bind_ok in H. destruct H as (x5 & H5 & H).
  apply bind_ok in H. destruct H as (x6 & H6 & H).
  apply bind_ok in H. destruct H as (sfat & Hs & H).
  unfold pack_H, pack_I in *.
  apply pack_inv in H1, H2, H3, H4, H5, H6.
  destruct H1 as (_ & ->), H2 as (R2 & ->), H3 as (R3 & ->),
           H4 as (_ & ->), H5 as (R5 & ->), H6 as (R6 & ->).
  apply sfat_nodes_inv in Hs. destruct Hs as (Hs & HF). simpl app in Hs.
  cbv zeta. repeat (split; [assumption|]).
  split. { rewrite Forall_map. exact HF. }
  match type of H with context [if blen ?x <? _ then _ else _] =>
    assert (Hsz : blen x = 0x28 + 0x10 * Z.of_nat (length
               (map (node_fields (hashMultiplier self))
                    (combine (files t) (flatList t))))
               + blen (fileNamesTable t))
  end.
  { subst sfat. rewrite !blen_app.
    rewrite <- (map_map (node_fields (hashMultiplier self))
                        (node_bytes (endian self))).
    rewrite blen_nodes.
    clear. unfold blen.
    rewrite ?length_app, ?order_length, ?length_le_split, ?length_map.
    destruct (endian self); simpl length; lia. }
  rewrite Hsz in H. clear Hsz.
  injection H as <-. subst sfat. rewrite map_map.
  unfold header, sfnt_header, bom_bytes, padding.
  rewrite <- !app_assoc. reflexivity.
Qed.

Lemma header_fields e total dso n m rest :
  let b := header e total dso n m ++ rest in
  slice b 0 0x04 = SARC_magic /\
  slice b 0x06 0x08 = bom_bytes e /\
  slice b 0x04 0x06 = order e (le_split 2 0x14) /\
  slice b 0x08 0x0C = order e (le_split 4 total) /\
  slice b 0x0C 0x10 = order e (le_split 4 dso) /\
  slice b 0x14 0x18 = SFAT_magic /\
  slice b 0x18 0x1A = order e (le_split 2 0x0C) /\
  slice b 0x1A 0x1C = order e (le_split 2 n) /\
  slice b 0x1C 0x20 = order e (le_split 4 m).
Proof. destruct e; cbv zeta; repeat split; reflexivity. Qed.

Lemma data_table_length al files0 idx tbl out fdt files1 :
  data_table al idx files0 tbl out = (fdt, files1) ->
  length files1 = (length out + length files0)%nat.
Proof.
  intros H. apply data_table_inv in H.
  destruct H as (s & news & _ & -> & F).
  rewrite length_app. f_equal. symmetry. eapply Forall2_length. exact F.
Qed.

Lemma build_tables_lengths {frames} self d t :
  build_tables frames self d = Ok t ->
  length (files t) = length (flatList t).
Proof.
  intros H. apply build_tables_rows in H. destruct H as (F & _).
  symmetry. eapply Forall2_length. exact F.
Qed.

(** An induction principle for trees: the property holds for the entries
    of a folder when it is proved for the folder. *)
Lemma entry_ind' (P : entry -> Prop) :
  (forall f, P (is_File f)) ->
  (forall n c, Forall P c -> P (Folder n c)) ->
  forall e, P e.
Proof.
  intros Hf Hd. fix IH 1. intros [f|n c]; [apply Hf|apply Hd].
  induction c as [|e r IHr]; constructor; [apply IH|exact IHr].
Qed.

Lemma list_sum_cons x l : list_sum (x :: l) = (x + list_sum l)%nat.
Proof. reflexivity. Qed.

Lemma addToFlatList_length {frames} :
  forall e p acc fl,
    addToFlatList frames e p acc = Ok fl ->
    length fl = (length acc + Spec.count_files e)%nat.
Proof.
  induction frames as [|frames IH]; intros e p acc fl H; [discriminate|].
  destruct e as [f|n c]; [discriminate|].
  cbn [addToFlatList] in H. apply bind_ok in H. destruct H as (x & _ & H).
  cbn [Spec.count_files]. revert acc fl H.
  induction c as [|o r IHr]; intros acc fl H.
  - injection H as <-. cbn. lia.
  - destruct o as [f|n' c'].
    + apply IHr in H. rewrite H, length_app.
      cbn [map Spec.count_files length]. rewrite list_sum_cons. lia.
    + apply bind_ok in H. destruct H as (fl' & H1 & H).
      apply IHr in H. apply IH in H1. rewrite H, H1. cbn [map]. rewrite list_sum_cons. lia.
Qed.

Lemma flatten_length {frames} c : forall acc fl,
  flatten frames c acc = Ok fl ->
  length fl = (length acc + Spec.file_count c)%nat.
Proof.
  unfold Spec.file_count.
  induction c as [|o r IH]; intros acc fl H.
  - injection H as <-. cbn. lia.
  - cbn [flatten] in H. destruct o as [f|n c'].
    + apply IH in H. rewrite H, length_app.
      cbn [map Spec.count_files length]. rewrite list_sum_cons. lia.
    + apply bind_ok in H. destruct H as (fl' & H1 & H).
      apply IH in H. apply addToFlatList_length in H1.
      rewrite H, H1. cbn [map]. rewrite list_sum_cons. lia.
Qed.

Lemma build_tables_file_count {frames} self d t :
  build_tables frames self d = Ok t ->
  length (files t) = Spec.file_count (contents self).
Proof.
  intros H. rewrite (build_tables_lengths _ _ _ H).
  apply build_tables_inv in H.
  destruct H as (fl0 & files0 & Hfl & Hsort & _).
  apply sort_inv in Hsort. destruct Hsort as (P & _).
  rewrite (Permutation_length P).
  apply flatten_length in Hfl. exact Hfl.
Qed.

(** C8. For every tree and every caller's offset, the effective data
    start offset of the encoder, when it gets as far as computing it, is
    the larger of
    round_up(0x20 + 0x10*fileCount + 0x08 + nameTableLength, 0x10) and the
    caller's value rounded up to 0x10, rounded up further to a multiple of
    0x200 when that maximum equals the computed minimum; [fileCount] is
    the number of files of the tree, and the result is the value written
    at offset 0x0C of the produced buffer. *)
Theorem effective_data_start_offset :
  forall frames self desired t,
    build_tables frames self desired = Ok t ->
    dataStartOffset t =
      Spec.data_start (Z.of_nat (Spec.file_count (contents self)))
                      (blen (fileNamesTable t)) desired /\
    forall buf, emit self t = Ok buf ->
      unpack_I (endian self) (slice buf 0x0C 0x10) = Ok (dataStartOffset t).
Proof.
  intros frames self desired t H. split.
  - rewrite <- (build_tables_file_count _ _ _ H).
    pose proof (build_tables_inv _ _ _ H)
      as (fl0 & files0 & _ & _ & _ & Hmin & Heff & _ & Hd).
    apply data_table_length in Hd. simpl in Hd.
    rewrite Heff, Hmin, effective_dataStartOffset_spec, round_up_0x10.
    rewrite Hd. reflexivity.
  - intros buf Hb. apply emit_inv in Hb. cbv zeta in Hb.
    destruct Hb as (_ & R & _ & _ & _ & ->).
    match goal with |- context [header ?e ?a ?b ?c ?d ++ ?r] =>
      destruct (header_fields e a b c d r) as (_ & _ & _ & _ & E & _)
    end.
    cbv zeta in E. unfold unpack_I. rewrite E.
    apply unpack_order_split. exact R.
Qed.

Lemma sample_tables_ok e : build_tables sample_frames (sample_archive e) 0x70 = Ok (sample_tables e).
Proof. destruct e; vm_compute; reflexivity. Qed.

Lemma effective_data_start_offset_witness :
  dataStartOffset (sample_tables Little) =
    Spec.data_start (Z.of_nat (Spec.file_count sample_tree))
                    (blen (fileNamesTable (sample_tables Little))) 0x70 /\
  forall buf, emit (sample_archive Little) (sample_tables Little) = Ok buf ->
    unpack_I Little (slice buf 0x0C 0x10) = Ok (dataStartOffset (sample_tables Little)).
Proof.
  apply (effective_data_start_offset sample_frames (sample_archive Little) 0x70
           (sample_tables Little)).
  vm_compute. reflexivity.
Defined.

(** ** The index table *)

Lemma sort_key_room frames self pf :
  sort_key (S (S frames)) self pf = Ok (Spec.hash (fst pf) (hashMultiplier self)).
Proof.
  unfold sort_key, call, filenameHash, pack_I, unpack_I.
  rewrite hash_value_spec. pose proof (hash_range (fst pf) (hashMultiplier self)).
  rewrite pack_ok by assumption. simpl bind.
  apply unpack_order_split. assumption.
Qed.

Lemma sort_key_short frames self pf :
  (frames < 2)%nat -> sort_key frames self pf = Raise RecursionError.
Proof. intros H. destruct frames as [|[|f]]; [reflexivity|reflexivity|lia]. Qed.

Lemma sort_key_value {frames} self pf k :
  sort_key frames self pf = Ok k ->
  k = Spec.hash (fst pf) (hashMultiplier self) /\ (2 <= frames)%nat.
Proof.
  destruct frames as [|[|f]]; try discriminate.
  rewrite sort_key_room. intros H. injection H as <-. split; [reflexivity|lia].
Qed.

Lemma Sorted_map_fst {A} (ks : list (Z * A)) :
  Sorted (fun a b => fst a <= fst b) ks -> Sorted Z.le (map fst ks).
Proof.
  induction 1 as [|x r Hs IH Hhd]; simpl; constructor; [exact IH|].
  destruct Hhd; simpl; constructor. assumption.
Qed.

Lemma sorted_hashes {frames} self fl0 fl :
  sort (sort_key frames self) fl0 = Ok fl ->
  StronglySorted Z.le
    (map (fun pf => Spec.hash (fst pf) (hashMultiplier self)) fl).
Proof.
  intros H. apply sort_inv in H. destruct H as (_ & ks & <- & Hk & Hs).
  apply Sorted_StronglySorted; [intros x y z; apply Z.le_trans|].
  rewrite map_map.
  replace (map (fun x => Spec.hash (fst (snd x)) (hashMultiplier self)) ks)
    with (map fst ks); [apply Sorted_map_fst; exact Hs|].
  clear Hs. induction Hk as [|kx r Hx _ IH]; simpl; [reflexivity|].
  rewrite IH. f_equal. apply sort_key_value in Hx. destruct Hx as [-> _].
  reflexivity.
Qed.

Lemma node_hashes m (fs : list (File * Z * Z)) (fl : list (str * File)) :
  length fs = length fl ->
  map (fun q => fst (fst (fst q))) (map (node_fields m) (combine fs fl)) =
  map (fun pf => Spec.hash (fst pf) m) fl.
Proof.
  revert fl. induction fs as [|[[f no] do] r IH]; intros [|[p f'] fl] H;
    simpl in *; try discriminate; [reflexivity|].
  f_equal. apply IH. lia.
Qed.

Lemma nodes_split e (qs : list (Z * Z * Z * Z)) i q :
  nth_error qs i = Some q ->
  exists pre post,
    concat (map (node_bytes e) qs) = pre ++ node_bytes e q ++ post /\
    blen pre = 0x10 * Z.of_nat i.
Proof.
  revert i. induction qs as [|q0 r IH]; intros [|i] H; simpl in H;
    try discriminate.
  - inversion H; subst. exists [], (concat (map (node_bytes e) r)).
    split; reflexivity.
  - apply IH in H. destruct H as (pre & post & E & L).
    exists (node_bytes e q0 ++ pre), post. cbn [map concat].
    rewrite E, <- app_assoc. split; [reflexivity|].
    rewrite blen_app, blen_node_bytes, L. lia.
Qed.

Lemma blen_order_split e n v : blen (order e (le_split n v)) = Z.of_nat n.
Proof. unfold blen. rewrite order_length, length_le_split. reflexivity. Qed.

Lemma record_fields e hdr qs rest i h a b c :
  blen hdr = 0x20 ->
  nth_error qs i = Some (h, a, b, c) ->
  node_in_range (h, a, b, c) ->
  let buf := hdr ++ concat (map (node_bytes e) qs) ++ rest in
  record_field e buf i 0 = Ok h /\ record_field e buf i 1 = Ok a /\
  record_field e buf i 2 = Ok b /\ record_field e buf i 3 = Ok c.
Proof.
  intros Hh Hn (Rh & Ra & Rb & Rc). cbv zeta.
  destruct (nodes_split e qs i _ Hn) as (pre & post & E & L).
  rewrite E. unfold record_field, node_bytes.
  set (H := order e (le_split 4 h)). set (A := order e (le_split 4 a)).
  set (B := order e (le_split 4 b)). set (C := order e (le_split 4 c)).
  assert (LH : blen H = 4) by apply blen_order_split.
  assert (LA : blen A = 4) by apply blen_order_split.
  assert (LB : blen B = 4) by apply blen_order_split.
  assert (LC : blen C = 4) by apply blen_order_split.
  rewrite <- !app_assoc.
  repeat split.
  - replace (hdr ++ pre ++ H ++ A ++ B ++ C ++ post ++ rest)
      with ((hdr ++ pre) ++ H ++ (A ++ B ++ C ++ post ++ rest))
      by (rewrite <- !app_assoc; reflexivity).
    rewrite (slice_at (hdr ++ pre) H) by (rewrite ?blen_app; lia).
    apply unpack_order_split. exact Rh.
  - replace (hdr ++ pre ++ H ++ A ++ B ++ C ++ post ++ rest)
      with ((hdr ++ pre ++ H) ++ A ++ (B ++ C ++ post ++ rest))
      by (rewrite <- !app_assoc; reflexivity).
    rewrite (slice_at (hdr ++ pre ++ H) A) by (rewrite ?blen_app; lia).
    apply unpack_order_split. exact Ra.
  - replace (hdr ++ pre ++ H ++ A ++ B ++ C ++ post ++ rest)
      with ((hdr ++ pre ++ H ++ A) ++ B ++ (C ++ post ++ rest))
      by (rewrite <- !app_assoc; reflexivity).
    rewrite (slice_at (hdr ++ pre ++ H ++ A) B) by (rewrite ?blen_app; lia).
    apply unpack_order_split. exact Rb.
  - replace (hdr ++ pre ++ H ++ A ++ B ++ C ++ post ++ rest)
      with ((hdr ++ pre ++ H ++ A ++ B) ++ C ++ (post ++ rest))
      by (rewrite <- !app_assoc; reflexivity).
    rewrite (slice_at (hdr ++ pre ++ H ++ A ++ B) C) by (rewrite ?blen_app; lia).
    apply unpack_order_split. exact Rc.
Qed.

Lemma save_inv {frames} self d buf :
  save frames self d = Ok buf ->
  exists t, build_tables frames self d = Ok t /\ emit self t = Ok buf.
Proof. unfold save. intros H. apply bind_ok in H. exact H. Qed.

(** C6. In every buffer [save] produces, whatever the room for calls it
    ran in, the node count at 0x1A is the
    number of index records, and the hash fields of the records, read as
    unsigned integers in the archive's endianness, are non-decreasing
    from the first record to the last. *)
Theorem sorted_index_invariant :
  forall frames self desired buf,
    save frames self desired = Ok buf ->
    exists hs,
      unpack_H (endian self) (slice buf 0x1A 0x1C) = Ok (Z.of_nat (length hs)) /\
      (forall i h, nth_error hs i = Some h ->
                   record_field (endian self) buf i 0 = Ok h) /\
      StronglySorted Z.le hs.
Proof.
  intros frames self desired buf H.
  apply save_inv in H. destruct H as (t & Ht & He).
  pose proof (build_tables_lengths _ _ _ Ht) as Hlen.
  pose proof (build_tables_inv _ _ _ Ht) as (fl0 & files0 & _ & Hsort & _).
  apply emit_inv in He. cbv zeta in He.
  destruct He as (_ & _ & Rn & _ & HF & ->).
  set (qs := map (node_fields (hashMultiplier self))
                 (combine (files t) (flatList t))) in *.
  exists (map (fun pf => Spec.hash (fst pf) (hashMultiplier self)) (flatList t)).
  split; [|split].
  - match goal with |- context [header ?e ?a ?b ?c ?d ++ ?r] =>
      destruct (header_fields e a b c d r) as (_ & _ & _ & _ & _ & _ & _ & E & _)
    end.
    cbv zeta in E. unfold unpack_H. rewrite E.
    rewrite length_map, <- Hlen. apply unpack_order_split. exact Rn.
  - intros i h Hi.
    rewrite <- (node_hashes _ (files t)) in Hi by exact Hlen.
    fold qs in Hi. rewrite nth_error_map in Hi.
    destruct (nth_error qs i) as [[[[h' a] b] c]|] eqn:Hq; [|discriminate].
    simpl in Hi. inversion Hi; subst h'.
    assert (R : node_in_range (h, a, b, c)).
    { rewrite Forall_forall in HF. apply HF.
      eapply nth_error_In. exact Hq. }
    match goal with |- context [header ?e ?a ?b ?c ?d ++ _ ++ ?r] =>
      destruct (record_fields e (header e a b c d) qs r i _ _ _ _
                  (blen_header _ _ _ _ _) Hq R) as (E & _)
    end.
    exact E.
  - eapply sorted_hashes. exact Hsort.
Qed.

Lemma sample_buffer_ok e : save sample_frames (sample_archive e) 0x70 = Ok (sample_buffer e).
Proof. destruct e; vm_compute; reflexivity. Qed.

Lemma sorted_index_invariant_witness :
  exists hs,
    unpack_H Big (slice (sample_buffer Big) 0x1A 0x1C) = Ok (Z.of_nat (length hs)) /\
    (forall i h, nth_error hs i = Some h ->
                 record_field Big (sample_buffer Big) i 0 = Ok h) /\
    StronglySorted Z.le hs.
Proof.
  apply (sorted_index_invariant sample_frames (sample_archive Big) 0x70 (sample_buffer Big)).
  vm_compute. reflexivity.
Defined.

(** ** The decoder's checks *)

Ltac load_cases H :=
  repeat match type of H with
  | (if ?c then _ else _) = _ => destruct c eqn:?
  | match ?x with _ => _ end = _ => destruct x eqn:?
  | (let _ := _ in _) = _ => cbv zeta in H
  end.

Lemma load_code_cases self data self' code :
  _load self data = (self', Ok code) ->
  (code = 0 \/ contents self' = contents self) /\ 0 <= code <= 8.
Proof.
  unfold _load. intros H. load_cases H;
    inversion H; subst; clear H; split; try lia; auto.
Qed.

(** C10. When [_load] returns one of the validation codes 1..8, the
    archive's contents are what they were before the call ([clear] runs
    only after the last check).  This does not extend to the endianness
    and the hash multiplier: each can already have been overwritten from
    the input when a later check fails. *)
Theorem load_failure_keeps_contents :
  (forall self data self' code,
     _load self data = (self', Ok code) -> code <> 0 ->
     contents self' = contents self /\ 1 <= code <= 8) /\
  (exists self data self',
     _load self data = (self', Ok 3) /\ endian self' <> endian self) /\
  (exists self data self',
     _load self data = (self', Ok 7) /\
     hashMultiplier self' <> hashMultiplier self).
Proof.
  split; [|split].
  - intros self data self' code H Hc.
    apply load_code_cases in H. destruct H as ([H|H] & R); [lia|].
    split; [exact H|lia].
  - exists (new_archive Big 0x65), bad_length_buffer.
    eexists. split; [vm_compute; reflexivity|]. simpl. discriminate.
  - exists (new_archive Big 0x65), no_sfnt_buffer.
    eexists. split; [vm_compute; reflexivity|]. simpl. discriminate.
Qed.

Lemma load_failure_keeps_contents_witness :
  contents (fst (_load (sample_archive Big) bad_length_buffer))
    = contents (sample_archive Big) /\ 1 <= 3 <= 8.
Proof.
  refine (proj1 load_failure_keeps_contents (sample_archive Big)
            bad_length_buffer _ 3 _ _).
  - vm_compute. reflexivity.
  - discriminate.
Defined.

Ltac load_step H :=
  cbv beta iota zeta in H |- *;
  cbn [endian set_endian set_hashMultiplier set_contents clear contents
       hashMultiplier] in H |- *;
  try rewrite (Z.eqb_sym _ (blen _));
  match type of H with
  | (if ?c then _ else _) = _ => destruct c eqn:?
  | match ?x with _ => _ end = _ => destruct x eqn:?
  end.

Lemma load_code_sound self data self' code :
  _load self data = (self', Ok code) -> Spec.first_violation data = code.
Proof.
  unfold _load, Spec.first_violation, Spec.field_is, Spec.node_count,
    Spec.bom, endians, unpack_H, unpack_I,
    SARC_magic, SFAT_magic, SFNT_magic, BOM_big, BOM_little.
  intros H.
  repeat load_step H;
    cbv beta iota zeta in H |- *; inversion H; subst; reflexivity.
Qed.

Lemma unpack_slice e size data a b :
  0 <= a -> b = a + Z.of_nat size -> b <= blen data ->
  exists v, unpack e size (slice data a b) = Ok v /\ 0 <= v.
Proof.
  intros Ha -> Hb. unfold unpack.
  rewrite length_slice by lia.
  replace (Z.to_nat (a + Z.of_nat size - a)) with size by lia.
  rewrite Nat.eqb_refl. eexists. split; [reflexivity|].
  apply le_combine_bound.
Qed.

Lemma index_present data i :
  0 <= i < blen data -> exists b, index data i = Ok b.
Proof.
  intros H. rewrite index_nonneg by lia. unfold blen in H.
  destruct (nth_error data (Z.to_nat i)) eqn:E; [eauto|].
  apply nth_error_None in E. lia.
Qed.

Lemma read_node_present e data off :
  0 <= off -> off + 0x10 <= blen data ->
  exists node, read_node e data off = Ok node.
Proof.
  intros Ho Hb. unfold read_node, unpack_I.
  destruct (index_present data (match e with Big => off + 4 | Little => off + 7 end))
    as (flag & ->); [destruct e; lia|]. cbn [bind].
  assert (A : exists v, unpack e 4
            match e with
            | Big => Byte.x00 :: slice data (off + 5) (off + 5 + 3)
            | Little => slice data (off + 4) (off + 4 + 3) ++ [Byte.x00]
            end = Ok v).
  { unfold unpack. destruct e.
    - cbn [length]. rewrite length_slice by lia.
      replace (Z.to_nat (off + 5 + 3 - (off + 5))) with 3%nat by lia.
      eexists. reflexivity.
    - rewrite length_app, length_slice by lia.
      replace (Z.to_nat (off + 4 + 3 - (off + 4))) with 3%nat by lia.
      eexists. reflexivity. }
  destruct A as (v & A).
  destruct e; rewrite A; cbn [bind];
    destruct (unpack_slice Big 4 data (off + 8) (off + 0x0C)) as (s & Hs & _);
    destruct (unpack_slice Little 4 data (off + 8) (off + 0x0C)) as (s' & Hs' & _);
    destruct (unpack_slice Big 4 data (off + 0x0C) (off + 0x10)) as (t & Ht & _);
    destruct (unpack_slice Little 4 data (off + 0x0C) (off + 0x10)) as (t' & Ht' & _);
    try lia;
    rewrite ?Hs, ?Hs', ?Ht, ?Ht'; cbn [bind]; rewrite ?Ht, ?Ht'; cbn [bind];
    eexists; reflexivity.
Qed.

Lemma read_nodes_present e data n : forall off acc,
  0 <= off -> off + 0x10 * Z.of_nat n <= blen data ->
  exists nodes, read_nodes e data n off acc = Ok nodes.
Proof.
  induction n as [|n IH]; intros off acc Ho Hb.
  - eexists. reflexivity.
  - cbn [read_nodes].
    destruct (read_node_present e data off) as (node & ->); [lia|lia|].
    cbn [bind]. apply IH; lia.
Qed.

Lemma bytes_eqb_length (a b : bytes) : bytes_eqb a b = true -> length a = length b.
Proof. unfold bytes_eqb. destruct (list_eq_dec _ a b); [congruence|discriminate]. Qed.

Lemma slice_length_full data a b :
  0 <= a -> a < b -> length (slice data a b) = Z.to_nat (b - a) -> b <= blen data.
Proof.
  intros Ha Hab. rewrite slice_nonneg by lia. unfold blen.
  rewrite length_firstn, length_skipn. lia.
Qed.

Lemma bom_present data e :
  Spec.bom (slice data 0x06 0x08) = Some e -> 0x08 <= blen data.
Proof.
  unfold Spec.bom. intros H.
  apply (slice_length_full data 6 8); try lia.
  destruct (bytes_eqb (slice data 6 8) [Byte.xfe; Byte.xff]) eqn:A.
  - apply bytes_eqb_length in A. exact A.
  - destruct (bytes_eqb (slice data 6 8) [Byte.xff; Byte.xfe]) eqn:B; [|discriminate].
    apply bytes_eqb_length in B. exact B.
Qed.

Lemma magic_present data a (m : bytes) :
  0 <= a -> bytes_eqb (slice data a (a + 4)) m = true -> length m = 4%nat ->
  a + 4 <= blen data.
Proof.
  intros Ha E L. apply bytes_eqb_length in E. rewrite L in E.
  apply (slice_length_full data a (a + 4)); try lia.
Qed.

Lemma load_returns_code self data :
  Spec.fields_before (Spec.first_violation data) data = true ->
  Spec.first_violation data <> 0 ->
  exists self' code, _load self data = (self', Ok code).
Proof.
  unfold Spec.fields_before.
  destruct (Spec.bom (slice data 6 8)) as [e|] eqn:B.
  2:{ intros _ _. unfold _load, endians, BOM_big, BOM_little.
      unfold Spec.bom in B.
      destruct (negb (bytes_eqb (slice data 0 4) SARC_magic)); [eauto|].
      rewrite B. eauto. }
  pose proof (bom_present _ _ B) as L8.
  unfold Spec.first_violation, Spec.field_is, _load, endians, unpack_H, unpack_I,
    SARC_magic, SFAT_magic, SFNT_magic, BOM_big, BOM_little.
  rewrite B. unfold Spec.bom in B. rewrite B.
  cbv beta iota zeta. cbn [endian set_endian set_hashMultiplier].
  destruct (negb (bytes_eqb (slice data 0 4) (blit "SARC"))); [eauto|].
  destruct (unpack_slice e 2 data 4 6) as (v1 & E1 & _); try lia.
  rewrite E1.
  destruct (negb (v1 =? 20)); [eauto|].
  destruct (unpack e 4 (slice data 8 12)) as [v2|x2] eqn:E2.
  2:{ intros Hp _. apply Z.leb_le in Hp.
      destruct (unpack_slice e 4 data 8 12) as (v & E & _); try lia. congruence. }
  rewrite (Z.eqb_sym v2).
  destruct (negb (blen data =? v2)); [eauto|].
  destruct (unpack e 4 (slice data 12 16)) as [v3|x3] eqn:E3.
  2:{ destruct (negb (bytes_eqb (slice data 20 24) (blit "SFAT"))) eqn:M.
      - intros Hp _. apply Z.leb_le in Hp.
        destruct (unpack_slice e 4 data 12 16) as (v & E & _); try lia. congruence.
      - intros _ _. apply negb_false_iff in M.
        apply (magic_present data 20) in M; [|lia|reflexivity].
        destruct (unpack_slice e 4 data 12 16) as (v & E & _); try lia. congruence. }
  destruct (negb (bytes_eqb (slice data 20 24) (blit "SFAT"))) eqn:M; [eauto|].
  apply negb_false_iff in M. apply (magic_present data 20) in M; [|lia|reflexivity].
  destruct (unpack e 2 (slice data 24 26)) as [v4|x4] eqn:E4.
  2:{ intros Hp _. apply Z.leb_le in Hp.
      destruct (unpack_slice e 2 data 24 26) as (v & E & _); try lia. congruence. }
  destruct (negb (v4 =? 12)); [eauto|].
  unfold Spec.node_count.
  destruct (unpack e 2 (slice data 26 28)) as [n|x5] eqn:E5.
  2:{ assert (P : blen data < 28).
      { destruct (Z.lt_ge_cases (blen data) 28) as [P|P]; [exact P|].
        destruct (unpack_slice e 2 data 26 28) as (v & E & _); try lia. congruence. }
      replace (32 + 16 * 0) with 32 by lia.
      destruct (negb (bytes_eqb (slice data 32 (32 + 4)) (blit "SFNT"))) eqn:M7.
      - intros Hp _. apply Z.leb_le in Hp. lia.
      - apply negb_false_iff in M7.
        apply (magic_present data 32) in M7; [|lia|reflexivity]. lia. }
  assert (Hn : 0 <= n).
  { unfold unpack in E5. destruct (Nat.eqb _ _); [|discriminate].
    injection E5 as <-. apply le_combine_bound. }
  destruct (negb (bytes_eqb (slice data (32 + 16 * n) (32 + 16 * n + 4))
                            (blit "SFNT"))) eqn:M7.
  - intros Hp _. apply Z.leb_le in Hp.
    destruct (unpack_slice e 4 data 28 32) as (m & E6 & _); try lia.
    rewrite E6.
    destruct (read_nodes_present e data (Z.to_nat n) 32 []) as (nodes & E8);
      try lia.
    rewrite E8. eauto.
  - apply negb_false_iff in M7.
    apply (magic_present data (32 + 16 * n)) in M7; [|lia|reflexivity].
    destruct (unpack_slice e 4 data 28 32) as (m & E6 & _); try lia.
    rewrite E6.
    destruct (read_nodes_present e data (Z.to_nat n) 32 []) as (nodes & E8);
      try lia.
    rewrite E8.
    destruct (unpack e 2 (slice data (32 + 16 * n + 4) (32 + 16 * n + 6)))
      as [v7|x7] eqn:E7.
    2:{ intros Hp _. apply Z.leb_le in Hp.
        destruct (unpack_slice e 2 data (32 + 16 * n + 4) (32 + 16 * n + 6))
          as (v & E & _); try lia. congruence. }
    destruct (negb (v7 =? 8)); [eauto|].
    intros _ Hv. exfalso. apply Hv. reflexivity.
Qed.

Lemma unpack_present e size data a b v :
  unpack e size (slice data a b) = Ok v ->
  0 <= a -> a < b -> Z.of_nat size = b - a -> b <= blen data.
Proof.
  unfold unpack. intros H Ha Hab Hs.
  destruct (Nat.eqb (length (slice data a b)) size) eqn:E; [|discriminate].
  apply Nat.eqb_eq in E. apply (slice_length_full data a b); lia.
Qed.

Lemma read_node_ok_present e data off node :
  read_node e data off = Ok node -> 0 <= off -> off + 0x10 <= blen data.
Proof.
  unfold read_node, unpack_I. intros H Ho.
  apply bind_ok in H. destruct H as (flag & _ & H).
  apply bind_ok in H. destruct H as (no & _ & H).
  apply bind_ok in H. destruct H as (st & _ & H).
  apply bind_ok in H. destruct H as (en & H & _).
  apply unpack_present in H; lia.
Qed.

Lemma read_nodes_ok_present e data n : forall off acc nodes,
  read_nodes e data n off acc = Ok nodes -> 0 <= off ->
  n = 0%nat \/ off + 0x10 * Z.of_nat n <= blen data.
Proof.
  induction n as [|n IH]; intros off acc nodes H Ho; [left; reflexivity|right].
  cbn [read_nodes] in H. apply bind_ok in H. destruct H as (node & N & H).
  apply read_node_ok_present in N; [|exact Ho].
  apply IH in H; [|lia]. destruct H as [->|H]; lia.
Qed.

Lemma load_code_fields self data self' code :
  _load self data = (self', Ok code) -> Spec.fields_before code data = true.
Proof.
  unfold Spec.fields_before.
  destruct (Spec.bom (slice data 6 8)) as [e|] eqn:B; [|reflexivity].
  unfold _load, endians, unpack_H, unpack_I,
    SARC_magic, SFAT_magic, SFNT_magic, BOM_big, BOM_little.
  unfold Spec.bom in B. rewrite B.
  intros H.
  destruct (negb (bytes_eqb (slice data 0 4) (blit "SARC")));
    [injection H as _ <-; reflexivity|].
  cbv beta iota zeta in H. cbn [endian set_endian set_hashMultiplier] in H.
  destruct (unpack e 2 (slice data 4 6)) as [v1|] eqn:E1; [|discriminate].
  destruct (negb (v1 =? 20)); [injection H as _ <-; reflexivity|].
  destruct (unpack e 4 (slice data 8 12)) as [v2|] eqn:E2; [|discriminate].
  apply unpack_present in E2; try lia.
  destruct (negb (blen data =? v2));
    [injection H as _ <-; apply Z.leb_le; lia|].
  destruct (unpack e 4 (slice data 12 16)) as [v3|] eqn:E3; [|discriminate].
  apply unpack_present in E3; try lia.
  destruct (negb (bytes_eqb (slice data 20 24) (blit "SFAT")));
    [injection H as _ <-; apply Z.leb_le; lia|].
  destruct (unpack e 2 (slice data 24 26)) as [v4|] eqn:E4; [|discriminate].
  apply unpack_present in E4; try lia.
  destruct (negb (v4 =? 12));
    [injection H as _ <-; apply Z.leb_le; lia|].
  unfold Spec.node_count.
  destruct (unpack e 2 (slice data 26 28)) as [n|] eqn:E5; [|discriminate].
  assert (Hn : 0 <= n).
  { unfold unpack in E5. destruct (Nat.eqb _ _); [|discriminate].
    injection E5 as <-. apply le_combine_bound. }
  destruct (unpack e 4 (slice data 28 32)) as [m|] eqn:E6; [|discriminate].
  apply unpack_present in E6; try lia.
  destruct (read_nodes e data (Z.to_nat n) 32 []) as [nodes|] eqn:E8; [|discriminate].
  apply read_nodes_ok_present in E8; [|lia].
  assert (L : 32 + 16 * n <= blen data) by lia.
  destruct (negb (bytes_eqb (slice data (32 + 16 * n) (32 + 16 * n + 4))
                            (blit "SFNT")));
    [injection H as _ <-; apply Z.leb_le; lia|].
  destruct (unpack e 2 (slice data (32 + 16 * n + 4) (32 + 16 * n + 6)))
    as [v7|] eqn:E7; [|discriminate].
  apply unpack_present in E7; try lia.
  destruct (negb (v7 =? 8));
    [injection H as _ <-; apply Z.leb_le; lia|].
  cbv zeta in H. cbn [clear set_contents contents endian hashMultiplier] in H.
  destruct (add_nodes _ _ _ _ _) as [c [u|x]]; [|discriminate].
  injection H as _ <-. reflexivity.
Qed.

Lemma bytes_eqb_false (a b : bytes) : a <> b -> bytes_eqb a b = false.
Proof. unfold bytes_eqb. destruct (list_eq_dec _ a b); congruence. Qed.

(** C4, as the code has it.  Whenever [_load] reports a code, it is the
    number of the first check of §4.3 the buffer violates (0: none); on a
    buffer that holds the fields read before its first violated check,
    that check is reported, and on one that lacks such a field [_load]
    raises instead; a wrong outer magic gives code 1 whatever the other
    bytes are; each of the eight codes is reported for some buffer,
    which passes the checks before it. *)
Theorem validation_order :
  (forall self data self' code,
     _load self data = (self', Ok code) -> Spec.first_violation data = code) /\
  (forall self data,
     Spec.first_violation data <> 0 ->
     (Spec.fields_before (Spec.first_violation data) data = true ->
      snd (_load self data) = Ok (Spec.first_violation data)) /\
     (Spec.fields_before (Spec.first_violation data) data = false ->
      exists x, snd (_load self data) = Raise x)) /\
  (forall self data,
     slice data 0 0x04 <> blit "SARC" -> _load self data = (self, Ok 1)) /\
  (forall self k, 1 <= k <= 8 ->
     snd (_load self (fails_check k)) = Ok k /\
     Spec.first_violation (fails_check k) = k).
Proof.
  split; [|split; [|split]].
  - exact load_code_sound.
  - intros self data Hv. split; intros Hp.
    + destruct (load_returns_code self data Hp Hv) as (self' & code & H).
      rewrite H. simpl. f_equal. symmetry. eapply load_code_sound. exact H.
    + destruct (_load self data) as [self' [code|x]] eqn:H; [|exists x; reflexivity].
      pose proof (load_code_sound _ _ _ _ H) as S.
      apply load_code_fields in H. rewrite S in Hp. congruence.
  - intros self data H. unfold _load, SARC_magic.
    rewrite bytes_eqb_false by exact H. reflexivity.
  - intros self k Hk.
    assert (C : k = 1 \/ k = 2 \/ k = 3 \/ k = 4 \/ k = 5 \/ k = 6 \/ k = 7 \/ k = 8)
      by lia.
    repeat (destruct C as [-> | C]); try subst k; split; reflexivity.
Qed.

Lemma validation_order_witness :
  Spec.first_violation (fails_check 6) = 6 /\
  snd (_load (sample_archive Little) (fails_check 5)) = Ok 5 /\
  exists x, snd (_load (sample_archive Big) truncated_buffer) = Raise x.
Proof.
  split; [|split].
  - refine (proj1 validation_order (sample_archive Big) (fails_check 6) _ 6 _).
    vm_compute. reflexivity.
  - refine (proj1 (proj1 (proj2 validation_order) (sample_archive Little)
                     (fails_check 5) _) _).
    + vm_compute. discriminate.
    + vm_compute. reflexivity.
  - refine (proj2 (proj1 (proj2 validation_order) (sample_archive Big)
                     truncated_buffer _) _).
    + vm_compute. discriminate.
    + vm_compute. reflexivity.
Defined.

(** The claim as stated fails on a truncated buffer: the first check it
    violates is the seventh (no SFNT magic after the announced record),
    but [_load] raises [IndexError] while reading the record. *)
Lemma validation_order_counterexample :
  ~ (forall self data,
       Spec.first_violation data <> 0 ->
       snd (_load self data) = Ok (Spec.first_violation data)).
Proof.
  intros H.
  specialize (H (new_archive Big 0x65) truncated_buffer).
  assert (E : Spec.first_violation truncated_buffer = 7) by (vm_compute; reflexivity).
  rewrite E in H.
  assert (R : snd (_load (new_archive Big 0x65) truncated_buffer) = Raise IndexError)
    by (vm_compute; reflexivity).
  rewrite R in H. specialize (H ltac:(lia)). discriminate.
Qed.

(** ** Path accessors, at the inputs of the specification's examples *)

(** C2, evaluated on the code.  On an empty archive,
    [archive["a/b/c"] = file] walks [folderStructure[1:]] = ["b"; "c"]: it
    creates a folder "b" under the root and a folder "c" inside it, and
    adds the file to that folder; no folder "a" exists, so
    [archive["a/b/c"]] and [del archive["a/b/c"]] raise [KeyError]. *)
Theorem path_semantics_on_code :
  __setitem__ no_attrs empty_archive (lit "a/b/c") (Obj (is_File file_c)) =
    ({| File_name := Some (lit "c") |},
     set_contents empty_archive
       [Folder (lit "b") [Folder (lit "c") [is_File file_c]]],
     Ok tt) /\
  (let after := set_contents empty_archive
                  [Folder (lit "b") [Folder (lit "c") [is_File file_c]]] in
   __getitem__ after (lit "a/b/c") = Raise KeyError /\
   __delitem__ after (lit "a/b/c") = (after, Raise KeyError) /\
   find_folder (contents after) (lit "a") = None).
Proof. repeat split; reflexivity. Qed.

(** C3, evaluated on the code.  [archive["x"] = File(data=...)] assigns
    the last path segment to the attribute [name] of the class [File],
    not of the entry: the entry is inserted with its own (empty) name and
    [archive["x"]] raises [KeyError]. *)
Theorem setitem_name_on_code :
  __setitem__ no_attrs empty_archive (lit "x") (Obj (is_File unnamed_file)) =
    ({| File_name := Some (lit "x") |},
     set_contents empty_archive [is_File unnamed_file],
     Ok tt) /\
  name unnamed_file = [] /\
  __getitem__ (set_contents empty_archive [is_File unnamed_file]) (lit "x")
    = Raise KeyError.
Proof. repeat split; reflexivity. Qed.

(** ** The alignment value *)

Lemma not_pow2_0x30 : ~ exists k, 0 <= k /\ 0x30 = 2 ^ k.
Proof.
  intros (k & Hk & E).
  destruct (Z.le_gt_cases k 5) as [H|H].
  - pose proof (Z.pow_le_mono_r 2 k 5 ltac:(lia) H) as P.
    change (2 ^ 5) with 32 in P. lia.
  - pose proof (Z.pow_le_mono_r 2 6 k ltac:(lia) ltac:(lia)) as P.
    change (2 ^ 6) with 64 in P. lia.
Qed.

(** C7, evaluated on the code.  With a caller's offset of 0x1030 on an
    empty archive, and room for one call ([round_up]'s), the effective
    data start offset is 0x1030 and the
    alignment derived from it is 0x30 = 0x1030 & 0xF0: not a power of
    two, while the largest power-of-two divisor of 0x1030 is 0x10. *)
Theorem alignment_on_code :
  (forall frames,
     exists t, build_tables (S frames) empty_archive 0x1030 = Ok t /\
               dataStartOffset t = 0x1030 /\ alignment t = 0x30) /\
  ~ Spec.largest_pow2_divisor 0x30 0x1030 /\
  Spec.largest_pow2_divisor 0x10 0x1030.
Proof.
  split; [|split].
  - intros frames. eexists. split; [vm_compute; reflexivity|]. split; reflexivity.
  - intros (P & _). exact (not_pow2_0x30 P).
  - split; [exists 4; split; [lia|reflexivity]|]. split.
    + exists 259. reflexivity.
    + intros k Hk (q & Hq).
      destruct (Z.le_gt_cases k 4) as [H|H].
      * pose proof (Z.pow_le_mono_r 2 k 4 ltac:(lia) H) as P.
        change (2 ^ 4) with 16 in P. lia.
      * exfalso.
        replace k with (5 + (k - 5)) in Hq by lia.
        rewrite Z.pow_add_r in Hq by lia. change (2 ^ 5) with 32 in Hq.
        lia.
Qed.

(** C9, evaluated on the code.  With a caller's offset of 0x70, on an
    archive of two files and with room for the two calls of the sort
    key, the effective data start offset is 0x70, the derived alignment
    is 0x70,
    and the second payload starts at 0x80 relative to the data start:
    not a multiple of 0x70. *)
Theorem payload_alignment_on_code :
  forall frames, exists t buf,
    build_tables (S (S frames)) two_files 0x70 = Ok t /\
    emit two_files t = Ok buf /\
    dataStartOffset t = 0x70 /\ alignment t = 0x70 /\
    record_field Big buf 1 2 = Ok 0x80 /\
    0x80 mod alignment t = 0x10 /\
    blen buf = dataStartOffset t + blen (fileDataTable t).
Proof.
  intros frames.
  eexists. eexists. split; [vm_compute; reflexivity|].
  split; [vm_compute; reflexivity|].
  repeat split; vm_compute; reflexivity.
Qed.

(** ** UTF-8: decoding what was encoded *)

Lemma Ok_inj {A} (a b : A) : Ok a = Ok b -> a = b.
Proof. intros H. injection H. auto. Qed.

Lemma unsigned_of_Z_small z : 0 <= z < 256 -> byte.unsigned (byte.of_Z z) = z.
Proof.
  intros H. rewrite byte.unsigned_of_Z. unfold byte.wrap. apply Z.mod_small.
  change (2 ^ 8) with 256. lia.
Qed.

Lemma is_cont_tail z : is_cont (byte.of_Z (0x80 + z mod 64)) = true /\
                       cont (byte.of_Z (0x80 + z mod 64)) = z mod 64.
Proof.
  pose proof (Z.mod_pos_bound z 64 ltac:(lia)).
  unfold is_cont, cont. rewrite unsigned_of_Z_small by lia.
  split; [|lia].
  apply andb_true_intro. split; [apply Z.leb_le|apply Z.ltb_lt]; lia.
Qed.

Lemma decode_encode_char c bs rest :
  encode_char c = Ok bs ->
  decode (bs ++ rest) = bind (decode rest) (fun s => Ok (c :: s)).
Proof.
  unfold encode_char.
  destruct (Z.ltb_spec c 0); [discriminate|].
  destruct (Z.ltb_spec c 0x80).
  { intros E. apply Ok_inj in E. subst bs. cbn [app decode].
    rewrite unsigned_of_Z_small by lia.
    destruct (Z.ltb_spec c 0x80); [reflexivity|lia]. }
  destruct (Z.ltb_spec c 0x800).
  { intros E. apply Ok_inj in E. subst bs. cbn [app decode].
    assert (2 <= c / 64 < 32) by (Z.to_euclidean_division_equations; lia).
    rewrite unsigned_of_Z_small by lia.
    destruct (is_cont_tail c) as (C1 & C2). rewrite C1, C2.
    destruct (Z.ltb_spec (192 + c / 64) 128); [lia|].
    destruct (Z.ltb_spec (192 + c / 64) 194); [lia|].
    destruct (Z.ltb_spec (192 + c / 64) 224); [|lia].
    replace ((192 + c / 64 - 192) * 64 + c mod 64) with c
      by (Z.to_euclidean_division_equations; lia).
    reflexivity. }
  destruct (Z.ltb_spec c 0x10000).
  { destruct ((0xD800 <=? c) && (c <? 0xE000)) eqn:S; [discriminate|].
    intros E. apply Ok_inj in E. subst bs. cbn [app decode].
    assert (0 <= c / 4096 < 16) by (Z.to_euclidean_division_equations; lia).
    rewrite unsigned_of_Z_small by lia.
    destruct (is_cont_tail c) as (C1 & C2).
    destruct (is_cont_tail (c / 64)) as (D1 & D2).
    rewrite C1, C2, D1, D2.
    destruct (Z.ltb_spec (224 + c / 4096) 128); [lia|].
    destruct (Z.ltb_spec (224 + c / 4096) 194); [lia|].
    destruct (Z.ltb_spec (224 + c / 4096) 224); [lia|].
    destruct (Z.ltb_spec (224 + c / 4096) 240); [|lia].
    replace ((224 + c / 4096 - 224) * 4096 + (c / 64) mod 64 * 64 + c mod 64)
      with c by (Z.to_euclidean_division_equations; lia).
    rewrite S. destruct (Z.leb_spec 2048 c); [|lia]. reflexivity. }
  destruct (Z.ltb_spec c 0x110000); [|discriminate].
  intros E. apply Ok_inj in E. subst bs. cbn [app decode].
  assert (0 <= c / 262144 < 5) by (Z.to_euclidean_division_equations; lia).
  rewrite unsigned_of_Z_small by lia.
  destruct (is_cont_tail c) as (C1 & C2).
  destruct (is_cont_tail (c / 64)) as (D1 & D2).
  destruct (is_cont_tail (c / 4096)) as (E1 & E2).
  rewrite C1, C2, D1, D2, E1, E2.
  destruct (Z.ltb_spec (240 + c / 262144) 128); [lia|].
  destruct (Z.ltb_spec (240 + c / 262144) 194); [lia|].
  destruct (Z.ltb_spec (240 + c / 262144) 224); [lia|].
  destruct (Z.ltb_spec (240 + c / 262144) 240); [lia|].
  destruct (Z.ltb_spec (240 + c / 262144) 245); [|lia].
  replace ((240 + c / 262144 - 240) * 262144 + (c / 4096) mod 64 * 4096
           + (c / 64) mod 64 * 64 + c mod 64)
    with c by (Z.to_euclidean_division_equations; lia).
  destruct (Z.leb_spec 65536 c); [|lia].
  destruct (Z.ltb_spec c 1114112); [|lia]. reflexivity.
Qed.

Lemma decode_encode s : forall bs, encode s = Ok bs -> decode bs = Ok s.
Proof.
  induction s as [|c r IH]; intros bs H.
  - simpl in H. inversion H. reflexivity.
  - cbn [encode] in H. apply bind_ok in H. destruct H as (b & Hb & H).
    apply bind_ok in H. destruct H as (bs' & Hr & H). inversion H; subst.
    rewrite (decode_encode_char _ _ _ Hb). rewrite (IH _ Hr). reflexivity.
Qed.

Lemma of_Z_nonzero z : 0 < z < 256 -> byte.of_Z z <> Byte.x00.
Proof.
  intros H E. apply (f_equal byte.unsigned) in E.
  rewrite unsigned_of_Z_small in E by lia. change (byte.unsigned Byte.x00) with 0 in E. lia.
Qed.

Lemma encode_char_nonzero c bs :
  encode_char c = Ok bs -> c <> 0 -> ~ In Byte.x00 bs.
Proof.
  unfold encode_char. intros E Hc.
  destruct (Z.ltb_spec c 0); [discriminate|].
  destruct (Z.ltb_spec c 0x80).
  { apply Ok_inj in E. subst bs. intros [I|[]]. revert I. apply of_Z_nonzero. lia. }
  pose proof (Z.mod_pos_bound c 64 ltac:(lia)).
  pose proof (Z.mod_pos_bound (c / 64) 64 ltac:(lia)).
  pose proof (Z.mod_pos_bound (c / 4096) 64 ltac:(lia)).
  destruct (Z.ltb_spec c 0x800).
  { apply Ok_inj in E. subst bs.
    assert (2 <= c / 64 < 32) by (Z.to_euclidean_division_equations; lia).
    intros [I|[I|[]]]; revert I; apply of_Z_nonzero; lia. }
  destruct (Z.ltb_spec c 0x10000).
  { destruct ((0xD800 <=? c) && (c <? 0xE000)); [discriminate|].
    apply Ok_inj in E. subst bs.
    assert (0 <= c / 4096 < 16) by (Z.to_euclidean_division_equations; lia).
    intros [I|[I|[I|[]]]]; revert I; apply of_Z_nonzero; lia. }
  destruct (Z.ltb_spec c 0x110000); [|discriminate].
  apply Ok_inj in E. subst bs.
  assert (0 <= c / 262144 < 5) by (Z.to_euclidean_division_equations; lia).
  intros [I|[I|[I|[I|[]]]]]; revert I; apply of_Z_nonzero; lia.
Qed.

Lemma encode_nonzero s : forall bs,
  encode s = Ok bs -> ~ In 0 s -> ~ In Byte.x00 bs.
Proof.
  induction s as [|c r IH]; intros bs H Hn.
  - simpl in H. inversion H. intros [].
  - cbn [encode] in H. apply bind_ok in H. destruct H as (b & Hb & H).
    apply bind_ok in H. destruct H as (bs' & Hr & H). inversion H; subst.
    intros I. apply in_app_or in I. destruct I as [I|I].
    + revert I. eapply encode_char_nonzero; [exact Hb|].
      intros ->. apply Hn. left. reflexivity.
    + revert I. apply IH; [exact Hr|]. intros I. apply Hn. right. exact I.
Qed.

(** ** [split] and [join] *)

Lemma split_not_nil sep s : split sep s <> [].
Proof.
  destruct s as [|c r]; simpl; [discriminate|].
  destruct (c =? sep); [discriminate|].
  destruct (split sep r); discriminate.
Qed.

Lemma join_split sep s : join sep (split sep s) = s.
Proof.
  induction s as [|c r IH]; [reflexivity|].
  cbn [split]. destruct (Z.eqb_spec c sep) as [->|Hne].
  - pose proof (split_not_nil sep r) as Hn.
    cbn [join]. destruct (split sep r) as [|h t] eqn:E; [contradiction|].
    rewrite IH. reflexivity.
  - pose proof (split_not_nil sep r) as Hn.
    destruct (split sep r) as [|h t] eqn:E; [contradiction|].
    cbn [join] in *. destruct t as [|h' t'].
    + rewrite IH. reflexivity.
    + rewrite <- IH. reflexivity.
Qed.

Lemma join_cons sep p (r : list str) :
  r <> [] -> join sep (p :: r) = p ++ sep :: join sep r.
Proof. destruct r; [contradiction|reflexivity]. Qed.

Lemma last_item_ok {A} (l : list A) :
  l <> [] -> exists x, last_item l = Ok x /\ l = but_last l ++ [x].
Proof.
  intros H. destruct (exists_last H) as (l' & x & ->).
  exists x. unfold last_item, but_last.
  rewrite rev_app_distr, removelast_last. split; reflexivity.
Qed.

Lemma str_eqb_eq a b : str_eqb a b = true -> a = b.
Proof. unfold str_eqb. destruct (list_eq_dec Z.eq_dec a b); [auto|discriminate]. Qed.

Lemma str_eqb_refl a : str_eqb a a = true.
Proof. unfold str_eqb. destruct (list_eq_dec Z.eq_dec a a); [auto|contradiction]. Qed.

(** ** Placing a file in the tree *)

Lemma with_folder_some {R} cur n (k : list entry -> list entry * R) l r :
  with_folder cur n k = Some (l, r) ->
  exists pre c post,
    cur = pre ++ Folder n c :: post /\
    l = pre ++ Folder n (fst (k c)) :: post /\ r = snd (k c).
Proof.
  revert l r. induction cur as [|o rest IH]; intros l r H; [discriminate|].
  cbn [with_folder] in H.
  assert (S : match with_folder rest n k with
              | Some (l0, r0) => Some (o :: l0, r0)
              | None => None
              end = Some (l, r) ->
              exists pre c post,
                o :: rest = pre ++ Folder n c :: post /\
                l = pre ++ Folder n (fst (k c)) :: post /\ r = snd (k c)).
  { destruct (with_folder rest n k) as [[l0 r0]|]; [|discriminate].
    intros E. inversion E; subst.
    destruct (IH l0 r eq_refl) as (pre & c & post & -> & -> & ->).
    exists (o :: pre), c, post. repeat split. }
  destruct o as [f|n' c]; [exact (S H)|].
  destruct (str_eqb n' n) eqn:E; [|exact (S H)].
  apply str_eqb_eq in E. subst n'.
  destruct (k c) as [c' r'] eqn:K. inversion H; subst.
  exists [], c, rest. rewrite K. repeat split.
Qed.

Lemma tree_files_app a b :
  Spec.tree_files (a ++ b) = Spec.tree_files a ++ Spec.tree_files b.
Proof. unfold Spec.tree_files. apply flat_map_app. Qed.

Lemma tree_files_folder n c :
  Spec.tree_files [Folder n c] =
  map (fun pd => (n ++ SLASH :: fst pd, snd pd)) (Spec.tree_files c).
Proof. unfold Spec.tree_files. simpl. apply app_nil_r. Qed.

Lemma tree_files_cons o c :
  Spec.tree_files (o :: c) = Spec.tree_files [o] ++ Spec.tree_files c.
Proof. apply (tree_files_app [o] c). Qed.

Lemma place_files folders : forall cur file,
  Permutation (Spec.tree_files (place cur folders file))
              ((join SLASH (folders ++ [name file]), data file)
                 :: Spec.tree_files cur).
Proof.
  induction folders as [|n rest IH]; intros cur file.
  - cbn [place app join]. rewrite tree_files_app.
    apply Permutation_sym, Permutation_cons_append.
  - cbn [place].
    assert (J : join SLASH ((n :: rest) ++ [name file]) =
                n ++ SLASH :: join SLASH (rest ++ [name file])).
    { cbn [app]. apply join_cons. destruct rest; discriminate. }
    rewrite J.
    destruct (with_folder cur n (fun c => (place c rest file, tt)))
      as [[l u]|] eqn:W.
    + apply with_folder_some in W.
      destruct W as (pre & c & post & -> & -> & _). cbn [fst].
      rewrite !tree_files_app.
      rewrite (tree_files_cons _ post), (tree_files_cons (Folder n c) post).
      rewrite !tree_files_folder.
      eapply perm_trans;
        [|apply Permutation_sym, (Permutation_middle (Spec.tree_files pre))].
      apply Permutation_app_head. rewrite app_comm_cons.
      apply Permutation_app_tail.
      apply (Permutation_map (fun pd => (n ++ SLASH :: fst pd, snd pd))
               (IH c file)).
    + rewrite tree_files_app, tree_files_folder.
      eapply perm_trans; [|apply Permutation_sym, Permutation_cons_append].
      apply Permutation_app_head.
      apply (Permutation_map (fun pd => (n ++ SLASH :: fst pd, snd pd))
               (IH [] file)).
Qed.

Lemma add_node_files buf offset dso flag no start len nm cur :
  bytes_to_string buf (offset + no * 4) = Ok nm ->
  exists cur',
    add_node buf offset dso (flag, no, start, len) cur = Ok cur' /\
    Permutation (Spec.tree_files cur')
      ((nm, slice buf (dso + start) (dso + start + len))
         :: Spec.tree_files cur).
Proof.
  intros Hn. unfold add_node. rewrite Hn. cbn [bind].
  set (d := slice buf (dso + start) (dso + start + len)).
  destruct (Nat.eqb (length (split SLASH nm)) 1).
  - eexists. split; [reflexivity|]. rewrite tree_files_app.
    apply Permutation_sym, Permutation_cons_append.
  - destruct (last_item_ok (split SLASH nm) (split_not_nil _ _))
      as (last & -> & E).
    cbn [bind]. eexists. split; [reflexivity|].
    eapply perm_trans; [apply place_files|].
    cbn [name data]. rewrite <- E, join_split. reflexivity.
Qed.

(** ** Flattening the tree *)

Lemma tree_files_paths c :
  Spec.tree_files c =
  map (fun pf => (fst pf, data (snd pf))) (flat_map entry_paths c).
Proof.
  unfold Spec.tree_files.
  induction c as [|e r IH]; [reflexivity|].
  cbn [flat_map]. rewrite map_app, <- IH. f_equal. clear IH r.
  induction e as [f|n c F] using entry_ind'; [reflexivity|].
  cbn [Spec.files_of entry_paths]. rewrite map_map. cbn [fst snd].
  rewrite <- (map_map (fun pf => (fst pf, data (snd pf)))
                      (fun pd => (n ++ SLASH :: fst pd, snd pd))).
  f_equal.
  induction F as [|e r He _ IH]; [reflexivity|].
  cbn [flat_map]. rewrite map_app, IH, He. reflexivity.
Qed.

Lemma contains_app c a b : contains c (a ++ b) = contains c a || contains c b.
Proof. unfold contains. apply existsb_app. Qed.

Lemma contains_false c s x : contains c s = false -> In x s -> x <> c.
Proof.
  unfold contains. intros H I ->.
  assert (E : existsb (Z.eqb c) s = true).
  { apply existsb_exists. exists c. split; [exact I|apply Z.eqb_refl]. }
  congruence.
Qed.

Lemma last_item_app (prefix n : str) :
  n <> [] -> exists x, last_item (prefix ++ n) = Ok x /\ In x n.
Proof.
  intros H. destruct (exists_last H) as (l' & x & ->).
  exists x. unfold last_item. rewrite app_assoc, rev_app_distr.
  split; [reflexivity|]. apply in_or_app. right. left. reflexivity.
Qed.

Lemma valid_folder n c :
  Spec.valid_names (Folder n c) = true ->
  contains 0 n = false /\ contains SLASH n = false /\
  contains BACKSLASH n = false /\ n <> [] /\
  forallb Spec.valid_names c = true.
Proof.
  cbn [Spec.valid_names]. unfold Spec.clean. intros H.
  apply andb_prop in H. destruct H as (H & H4).
  apply andb_prop in H. destruct H as (H & H3).
  apply andb_prop in H. destruct H as (H & H2).
  apply andb_prop in H. destruct H as (H0 & H1).
  apply negb_true_iff in H0, H1, H2.
  repeat split; auto. intros ->. discriminate.
Qed.

Lemma list_max_cons x l : list_max (x :: l) = Nat.max x (list_max l).
Proof. reflexivity. Qed.

(** On names the format can carry, the only exception of the recursion
    is [RecursionError], raised when the tree is deeper than the room
    for calls. *)
Lemma addToFlatList_valid frames : forall e,
  Spec.valid_names e = true ->
  forall n c, e = Folder n c ->
  forall prefix acc,
    contains BACKSLASH prefix = false ->
    addToFlatList frames e (prefix ++ n) acc =
    if (entry_depth e <=? frames)%nat
    then Ok (acc ++ map (fun pf => (prefix ++ fst pf, snd pf)) (entry_paths e))
    else Raise RecursionError.
Proof.
  induction frames as [|frames IH]; intros e V n c E prefix acc Hp; subst e;
    [reflexivity|].
  destruct (valid_folder _ _ V) as (_ & Hs & Hb & Hne & Hc).
  cbn [addToFlatList].
  rewrite contains_app, Hp, Hb. cbn [orb].
  destruct (last_item_app prefix n Hne) as (x & -> & Hx). cbn [bind].
  pose proof (contains_false _ _ _ Hs Hx) as Hxs.
  destruct (Z.eqb_spec x SLASH) as [|_]; [contradiction|]. cbn [negb].
  cbn [entry_paths entry_depth Nat.leb]. rewrite map_map. cbn [fst snd].
  assert (Hp2 : contains BACKSLASH ((prefix ++ n) ++ [SLASH]) = false).
  { rewrite !contains_app, Hp, Hb. reflexivity. }
  revert acc. clear V Hx Hxs.
  induction c as [|o r IHr]; intros acc.
  - cbn. rewrite app_nil_r. reflexivity.
  - cbn [forallb] in Hc. apply andb_prop in Hc. destruct Hc as (Vo & Vr).
    cbn [flat_map map]. rewrite map_app, list_max_cons.
    destruct o as [f|n' c'].
    + rewrite (IHr Vr). cbn [entry_depth Nat.max].
      destruct (list_max (map entry_depth r) <=? frames)%nat; [|reflexivity].
      cbn [entry_paths map fst snd app].
      rewrite <- !app_assoc. cbn [app]. reflexivity.
    + rewrite (IH _ Vo n' c' eq_refl ((prefix ++ n) ++ [SLASH]) acc Hp2).
      destruct (Nat.leb_spec (entry_depth (Folder n' c')) frames) as [D1|D1].
      * cbn [bind]. rewrite (IHr Vr).
        destruct (Nat.leb_spec (list_max (map entry_depth r)) frames) as [D2|D2].
        -- destruct (Nat.leb_spec
                       (Nat.max (entry_depth (Folder n' c'))
                                (list_max (map entry_depth r))) frames) as [D|D];
             [|lia].
           rewrite <- !app_assoc. f_equal. f_equal. f_equal.
           apply map_ext. intros [p f]. cbn [fst snd].
           rewrite <- !app_assoc. reflexivity.
        -- destruct (Nat.leb_spec
                       (Nat.max (entry_depth (Folder n' c'))
                                (list_max (map entry_depth r))) frames) as [D|D];
             [lia|reflexivity].
      * cbn [bind].
        destruct (Nat.leb_spec
                    (Nat.max (entry_depth (Folder n' c'))
                             (list_max (map entry_depth r))) frames) as [D|D];
          [lia|reflexivity].
Qed.

Lemma flatten_valid frames c : forall acc,
  forallb Spec.valid_names c = true ->
  flatten frames c acc =
  if (depth c <=? frames)%nat
  then Ok (acc ++ flat_map entry_paths c)
  else Raise RecursionError.
Proof.
  unfold depth.
  induction c as [|o r IH]; intros acc V.
  - cbn. rewrite app_nil_r. reflexivity.
  - cbn [forallb] in V. apply andb_prop in V. destruct V as (Vo & Vr).
    cbn [flatten flat_map map]. rewrite list_max_cons.
    destruct o as [f|n c'].
    + rewrite (IH _ Vr). cbn [entry_depth Nat.max].
      destruct (list_max (map entry_depth r) <=? frames)%nat; [|reflexivity].
      cbn [entry_paths]. rewrite <- app_assoc. reflexivity.
    + pose proof (addToFlatList_valid frames _ Vo n c' eq_refl [] acc eq_refl) as A.
      cbn [app] in A. rewrite A.
      destruct (Nat.leb_spec (entry_depth (Folder n c')) frames) as [D1|D1].
      * cbn [bind]. rewrite (IH _ Vr).
        destruct (Nat.leb_spec (list_max (map entry_depth r)) frames) as [D2|D2].
        -- destruct (Nat.leb_spec
                       (Nat.max (entry_depth (Folder n c'))
                                (list_max (map entry_depth r))) frames) as [D|D];
             [|lia].
           rewrite <- app_assoc. f_equal. f_equal. f_equal.
           rewrite <- (map_id (entry_paths (Folder n c'))) at 2.
           apply map_ext. intros [p f]. reflexivity.
        -- destruct (Nat.leb_spec
                       (Nat.max (entry_depth (Folder n c'))
                                (list_max (map entry_depth r))) frames) as [D|D];
             [lia|reflexivity].
      * cbn [bind].
        destruct (Nat.leb_spec
                    (Nat.max (entry_depth (Folder n c'))
                             (list_max (map entry_depth r))) frames) as [D|D];
          [lia|reflexivity].
Qed.

Lemma flatten_valid_ok {frames} c fl :
  forallb Spec.valid_names c = true ->
  flatten frames c [] = Ok fl ->
  fl = flat_map entry_paths c /\ (depth c <= frames)%nat.
Proof.
  intros V H. rewrite (flatten_valid frames c [] V) in H.
  destruct (Nat.leb_spec (depth c) frames) as [D|D]; [|discriminate].
  injection H as <-. split; [reflexivity|exact D].
Qed.

(** ** Reading back what [save] wrote *)

Lemma entry_paths_clean e :
  Spec.valid_names e = true ->
  forall pf, In pf (entry_paths e) -> ~ In 0 (fst pf).
Proof.
  induction e as [f|n c F] using entry_ind'; intros V pf I.
  - cbn in I. destruct I as [<-|[]]. cbn [fst].
    cbn [Spec.valid_names] in V. unfold Spec.clean in V.
    apply andb_prop in V. destruct V as (V & _). apply negb_true_iff in V.
    intros I. exact (contains_false _ _ _ V I eq_refl).
  - destruct (valid_folder _ _ V) as (H0 & _ & _ & _ & Hc).
    cbn [entry_paths] in I. apply in_map_iff in I.
    destruct I as ([p f] & <- & I). cbn [fst snd].
    apply in_flat_map in I. destruct I as (o & Io & I).
    rewrite Forall_forall in F. rewrite forallb_forall in Hc.
    pose proof (F o Io (Hc o Io) _ I) as Hp. cbn [fst] in Hp.
    intros J. apply in_app_or in J. destruct J as [J|[J|J]].
    + exact (contains_false _ _ _ H0 J eq_refl).
    + discriminate J.
    + exact (Hp J).
Qed.

Lemma slice_inner (pre x post : bytes) off i j :
  blen pre = off -> 0 <= i -> 0 <= j -> j <= blen x ->
  slice (pre ++ x ++ post) (off + i) (off + j) = slice x i j.
Proof.
  intros <- Hi Hj0 Hj. pose proof (blen_nonneg pre).
  rewrite slice_app_r by lia.
  rewrite slice_app_l by lia. f_equal; lia.
Qed.

Lemma index_inner (pre x post : bytes) off i :
  blen pre = off -> 0 <= i ->
  index (pre ++ x ++ post) (off + i) = index (x ++ post) i.
Proof.
  intros <- Hi. pose proof (blen_nonneg pre).
  rewrite !index_nonneg by lia. unfold blen.
  rewrite nth_error_app2 by lia.
  replace (Z.to_nat (Z.of_nat (length pre) + i) - length pre)%nat
    with (Z.to_nat i) by lia.
  reflexivity.
Qed.

Lemma name_field e a :
  unpack e 4 (match e with
              | Big => Byte.x00 :: rev (le_split 3 a)
              | Little => le_split 3 a ++ [Byte.x00]
              end) = Ok (a mod 2 ^ 24).
Proof.
  unfold unpack. destruct e; cbn [order length].
  - rewrite length_rev, length_le_split. cbn [Nat.eqb rev].
    rewrite rev_involutive.
    change [Byte.x00] with (repeat Byte.x00 1).
    rewrite le_combine_app_0, le_combine_split. reflexivity.
  - rewrite length_app, length_le_split. cbn [length Nat.add Nat.eqb].
    change [Byte.x00] with (repeat Byte.x00 1).
    rewrite le_combine_app_0, le_combine_split. reflexivity.
Qed.

Lemma le_split_4 a :
  le_split 4 a = le_split 3 a ++ [byte.of_Z (Z.shiftr a 24)].
Proof.
  change (le_split 4 a)
    with (byte.of_Z a :: byte.of_Z (Z.shiftr a 8)
          :: byte.of_Z (Z.shiftr (Z.shiftr a 8) 8)
          :: [byte.of_Z (Z.shiftr (Z.shiftr (Z.shiftr a 8) 8) 8)]).
  rewrite !Z.shiftr_shiftr by lia. reflexivity.
Qed.

Lemma read_node_at e pre q post off :
  blen pre = off -> node_in_range q ->
  read_node e (pre ++ node_bytes e q ++ post) off = Ok (read_fields q).
Proof.
  destruct q as [[[h a] b] c]. intros Hoff (Rh & Ra & Rb & Rc).
  unfold read_node, node_bytes, read_fields.
  set (H := order e (le_split 4 h)).
  set (B := order e (le_split 4 b)). set (C := order e (le_split 4 c)).
  set (f := byte.of_Z (Z.shiftr a 24)).
  assert (LH : blen H = 4) by apply blen_order_split.
  assert (LB : blen B = 4) by apply blen_order_split.
  assert (LC : blen C = 4) by apply blen_order_split.
  assert (L3 : forall x, blen (le_split 3 x) = 3)
    by (intros x; unfold blen; rewrite length_le_split; reflexivity).
  assert (L3r : forall x, blen (rev (le_split 3 x)) = 3)
    by (intros x; unfold blen; rewrite length_rev, length_le_split; reflexivity).
  unfold unpack_I.
  rewrite <- !app_assoc.
  assert (EB : slice (pre ++ H ++ order e (le_split 4 a) ++ B ++ C ++ post)
                 (off + 8) (off + 0x0C) = B).
  { replace (pre ++ H ++ order e (le_split 4 a) ++ B ++ C ++ post)
      with ((pre ++ H ++ order e (le_split 4 a)) ++ B ++ (C ++ post))
      by (rewrite <- !app_assoc; reflexivity).
    apply slice_at; rewrite ?blen_app, ?blen_order_split; lia. }
  assert (EC : slice (pre ++ H ++ order e (le_split 4 a) ++ B ++ C ++ post)
                 (off + 0x0C) (off + 0x10) = C).
  { replace (pre ++ H ++ order e (le_split 4 a) ++ B ++ C ++ post)
      with ((pre ++ H ++ order e (le_split 4 a) ++ B) ++ C ++ post)
      by (rewrite <- !app_assoc; reflexivity).
    apply slice_at; rewrite ?blen_app, ?blen_order_split; lia. }
  rewrite EB, EC. clear EB EC.
  destruct e; cbn [order]; rewrite le_split_4; fold f.
  - rewrite rev_unit.
    replace (pre ++ H ++ (f :: rev (le_split 3 a)) ++ B ++ C ++ post)
      with ((pre ++ H) ++ f :: (rev (le_split 3 a) ++ B ++ C ++ post))
      by (rewrite <- !app_assoc; reflexivity).
    rewrite index_mid by (rewrite blen_app; lia). cbn [bind].
    replace ((pre ++ H) ++ f :: rev (le_split 3 a) ++ B ++ C ++ post)
      with ((pre ++ H ++ [f]) ++ rev (le_split 3 a) ++ (B ++ C ++ post))
      by (rewrite <- !app_assoc; reflexivity).
    rewrite slice_at
      by (rewrite ?blen_app, ?L3r; try change (blen [f]) with 1; lia).
    rewrite (name_field Big). cbn [bind].
    subst B C. unfold order.
    change (unpack Big 4 (rev (le_split 4 b)))
      with (unpack Big 4 (order Big (le_split 4 b))).
    change (unpack Big 4 (rev (le_split 4 c)))
      with (unpack Big 4 (order Big (le_split 4 c))).
    rewrite !unpack_order_split by assumption. reflexivity.
  - replace (pre ++ H ++ (le_split 3 a ++ [f]) ++ B ++ C ++ post)
      with ((pre ++ H ++ le_split 3 a) ++ f :: (B ++ C ++ post))
      by (rewrite <- !app_assoc; reflexivity).
    rewrite index_mid by (rewrite !blen_app, L3; lia). cbn [bind].
    replace ((pre ++ H ++ le_split 3 a) ++ f :: B ++ C ++ post)
      with ((pre ++ H) ++ le_split 3 a ++ (f :: B ++ C ++ post))
      by (rewrite <- !app_assoc; reflexivity).
    rewrite slice_at by (rewrite ?blen_app, ?L3; lia).
    rewrite (name_field Little). cbn [bind].
    subst B C. unfold order.
    change (unpack Little 4 (le_split 4 b))
      with (unpack Little 4 (order Little (le_split 4 b))).
    change (unpack Little 4 (le_split 4 c))
      with (unpack Little 4 (order Little (le_split 4 c))).
    rewrite !unpack_order_split by assumption. reflexivity.
Qed.

Lemma read_nodes_at e qs : forall pre post off acc,
  blen pre = off -> Forall node_in_range qs ->
  read_nodes e (pre ++ concat (map (node_bytes e) qs) ++ post)
             (length qs) off acc
  = Ok (acc ++ map read_fields qs).
Proof.
  induction qs as [|q r IH]; intros pre post off acc Hoff HF.
  - cbn. rewrite app_nil_r. reflexivity.
  - pose proof (Forall_inv HF) as Hq. pose proof (Forall_inv_tail HF) as Hr.
    cbn [length read_nodes map concat].
    rewrite <- app_assoc.
    rewrite (read_node_at e pre q _ off Hoff Hq). cbn [bind].
    replace (pre ++ node_bytes e q ++ concat (map (node_bytes e) r) ++ post)
      with ((pre ++ node_bytes e q) ++ concat (map (node_bytes e) r) ++ post)
      by (rewrite <- app_assoc; reflexivity).
    rewrite IH; [| rewrite blen_app, blen_node_bytes; lia | assumption].
    rewrite <- app_assoc. reflexivity.
Qed.

Lemma bytes_to_string_at pre enc post off path :
  blen pre = off -> encode path = Ok enc -> ~ In 0 path ->
  bytes_to_string (pre ++ enc ++ Byte.x00 :: post) off = Ok path.
Proof.
  intros Hoff He Hn. unfold bytes_to_string.
  pose proof (encode_nonzero _ _ He Hn) as Hz.
  rewrite find_mid by assumption.
  pose proof (blen_nonneg pre). pose proof (blen_nonneg enc).
  destruct (Z.eqb_spec (off + blen enc) (-1)); [lia|].
  rewrite slice_at by auto. apply decode_encode. exact He.
Qed.

Lemma lor_flag x : 0 <= x < 2 ^ 24 -> Z.lor x 0x1000000 mod 2 ^ 24 = x.
Proof.
  intros H. rewrite <- Z.land_ones by lia.
  rewrite <- (Z.mod_small x (2 ^ 24)) at 2 by lia.
  rewrite <- (Z.land_ones x 24) by lia.
  change 0x1000000 with (2 ^ 24).
  Z.bitblast.
  destruct (Z.eqb_spec 24 i); [lia|]. rewrite orb_false_r. reflexivity.
Qed.

Lemma add_nodes_files buf offset dso nodes pds : forall cur,
  Forall2 (fun (node : SFATNode) (pd : str * bytes) =>
             let '(_, no, start, len) := node in
             bytes_to_string buf (offset + no * 4) = Ok (fst pd) /\
             slice buf (dso + start) (dso + start + len) = snd pd)
          nodes pds ->
  exists c,
    add_nodes buf offset dso nodes cur = (c, Ok tt) /\
    Permutation (Spec.tree_files c) (pds ++ Spec.tree_files cur).
Proof.
  intros cur F. revert cur.
  induction F as [|[[[flag no] start] len] [p d] nodes pds (Hn & Hd) F IH];
    intros cur.
  - exists cur. split; reflexivity.
  - cbn [add_nodes].
    destruct (add_node_files buf offset dso flag no start len _ cur Hn)
      as (cur' & -> & P).
    destruct (IH cur') as (c & -> & Pc).
    exists c. split; [reflexivity|].
    eapply perm_trans; [exact Pc|].
    cbn [fst snd] in *. rewrite Hd in P.
    eapply perm_trans; [apply Permutation_app_head; exact P|].
    apply Permutation_sym. cbn [app]. apply Permutation_middle.
Qed.

Lemma bytes_eqb_refl a : bytes_eqb a a = true.
Proof. unfold bytes_eqb. destruct (list_eq_dec _ a a); [reflexivity|contradiction]. Qed.

Lemma endians_bom e : endians (bom_bytes e) = Some e.
Proof. destruct e; reflexivity. Qed.

Lemma load_image other e total dso n m qs rest :
  in32 total -> in32 dso -> 0 <= n < 2 ^ 16 -> in32 m ->
  Forall node_in_range qs -> n = Z.of_nat (length qs) ->
  let buf := header e total dso n m ++ concat (map (node_bytes e) qs)
             ++ sfnt_header e ++ rest in
  blen buf = total ->
  _load other buf =
  (let r := add_nodes buf (0x20 + 0x10 * n + 0x08) dso (map read_fields qs) [] in
   ({| contents := fst r; endian := e; hashMultiplier := m |},
    match snd r with Ok _ => Ok 0 | Raise x => Raise x end)).
Proof.
  intros Rt Rd Rn Rm HF Hn buf Hlen.
  destruct (header_fields e total dso n m
              (concat (map (node_bytes e) qs) ++ sfnt_header e ++ rest))
    as (E1 & E2 & E3 & E4 & E5 & E6 & E7 & E8 & E9).
  cbv zeta in E1, E2, E3, E4, E5, E6, E7, E8, E9. fold buf in E1, E2, E3, E4, E5, E6, E7, E8, E9.
  assert (Hh : blen (header e total dso n m) = 0x20) by apply blen_header.
  assert (Hq : blen (concat (map (node_bytes e) qs)) = 0x10 * n)
    by (rewrite blen_nodes; lia).
  assert (E10 : slice buf (0x20 + 0x10 * n) (0x20 + 0x10 * n + 0x04) = SFNT_magic).
  { subst buf. unfold sfnt_header.
    replace (header e total dso n m ++ concat (map (node_bytes e) qs) ++
             (SFNT_magic ++ match e with
                            | Big => [Byte.x00; Byte.x08]
                            | Little => [Byte.x08; Byte.x00]
                            end ++ [Byte.x00; Byte.x00]) ++ rest)
      with ((header e total dso n m ++ concat (map (node_bytes e) qs)) ++
            SFNT_magic ++ (match e with
                           | Big => [Byte.x00; Byte.x08]
                           | Little => [Byte.x08; Byte.x00]
                           end ++ [Byte.x00; Byte.x00] ++ rest))
      by (rewrite <- !app_assoc; reflexivity).
    apply slice_at; [rewrite blen_app; lia|reflexivity]. }
  assert (E11 : slice buf (0x20 + 0x10 * n + 0x04) (0x20 + 0x10 * n + 0x06)
                = order e (le_split 2 0x08)).
  { subst buf. unfold sfnt_header.
    replace (header e total dso n m ++ concat (map (node_bytes e) qs) ++
             (SFNT_magic ++ match e with
                            | Big => [Byte.x00; Byte.x08]
                            | Little => [Byte.x08; Byte.x00]
                            end ++ [Byte.x00; Byte.x00]) ++ rest)
      with ((header e total dso n m ++ concat (map (node_bytes e) qs)
             ++ SFNT_magic) ++
            order e (le_split 2 0x08) ++ ([Byte.x00; Byte.x00] ++ rest))
      by (rewrite <- !app_assoc; destruct e; reflexivity).
    apply slice_at; [rewrite !blen_app; change (blen SFNT_magic) with 4; lia|].
    rewrite blen_order_split. lia. }
  assert (E12 : read_nodes e buf (Z.to_nat n) 0x20 [] = Ok (map read_fields qs)).
  { subst buf n. rewrite Nat2Z.id.
    rewrite read_nodes_at by assumption. reflexivity. }
  unfold _load.
  rewrite E1, bytes_eqb_refl. cbn [negb].
  rewrite E2, endians_bom. cbv zeta. cbn [endian set_endian].
  rewrite E3. unfold unpack_H, unpack_I.
  rewrite unpack_order_split by (change (2 ^ (8 * Z.of_nat 2)) with 65536; lia).
  cbn [Z.eqb Pos.eqb negb].
  rewrite E4, unpack_order_split by exact Rt.
  rewrite Hlen, Z.eqb_refl. cbn [negb].
  rewrite E5, unpack_order_split by exact Rd.
  rewrite E6, bytes_eqb_refl. cbn [negb].
  rewrite E7, unpack_order_split by (change (2 ^ (8 * Z.of_nat 2)) with 65536; lia).
  cbn [Z.eqb Pos.eqb negb].
  rewrite E8, unpack_order_split by exact Rn.
  rewrite E9, unpack_order_split by exact Rm.
  cbn [endian set_endian set_hashMultiplier hashMultiplier contents clear set_contents].
  rewrite E12.
  rewrite E10, bytes_eqb_refl. cbn [negb].
  rewrite E11, unpack_order_split by (change (2 ^ (8 * Z.of_nat 2)) with 65536; lia).
  cbn [Z.eqb Pos.eqb negb].
  destruct (add_nodes buf (32 + 16 * n + 8) dso (map read_fields qs) [])
    as [c [u|x]]; reflexivity.
Qed.

Lemma effective_ge m d : m <= effective_dataStartOffset m d.
Proof.
  rewrite effective_dataStartOffset_spec. cbv zeta.
  destruct (Z.max m (Spec.round_up d 16) =? m).
  - eapply Z.le_trans; [|apply spec_round_up_ge; lia]. lia.
  - lia.
Qed.

Lemma header_size_le {frames} self d t :
  build_tables frames self d = Ok t ->
  0x28 + 0x10 * Z.of_nat (length (files t)) + blen (fileNamesTable t)
  <= dataStartOffset t.
Proof.
  intros H. apply build_tables_inv in H.
  destruct H as (fl0 & files0 & _ & _ & _ & Hmin & Heff & _ & Hd).
  apply data_table_length in Hd. cbn [length Nat.add] in Hd.
  pose proof (effective_ge (dataStartOffset_min t) d) as G.
  rewrite <- Heff in G. rewrite Hmin, round_up_0x10 in G.
  pose proof (spec_round_up_ge
                (0x20 + 0x10 * Z.of_nat (length files0) + 0x08
                 + blen (fileNamesTable t)) 0x10 ltac:(lia)).
  rewrite Hd. lia.
Qed.

Lemma rows_readable t m P pad offset dso fl fs :
  blen P = offset ->
  blen (P ++ fileNamesTable t ++ pad) = dso ->
  blen (fileNamesTable t) <= 2 ^ 26 ->
  Forall2 (row_ok t) fl fs ->
  (forall pf, In pf fl -> ~ In 0 (fst pf)) ->
  Forall2 (readable (P ++ fileNamesTable t ++ pad ++ fileDataTable t) offset dso)
    (map read_fields (map (node_fields m) (combine fs fl)))
    (map (fun pf => (fst pf, data (snd pf))) fl).
Proof.
  intros HP Hdso Hsmall F Hclean.
  induction F as [|[p f'] [[f no] do] fl fs R F IH]; [constructor|].
  cbn [combine map]. constructor.
  - clear IH. destruct R as (Ef & Hname & Hno & Hdata). cbn [fst snd] in *.
    subst f. unfold readable, node_fields, read_fields. cbn [fst snd]. split.
    + destruct Hname as (pre & enc & post & En & Lp & Henc & Hmod).
      assert (Hq : 0 <= no / 4 < 2 ^ 24).
      { change (2 ^ 26) with 67108864 in Hsmall.
        change (2 ^ 24) with 16777216.
        Z.to_euclidean_division_equations. lia. }
      rewrite lor_flag by exact Hq.
      replace (no / 4 * 4) with no by (Z.to_euclidean_division_equations; lia).
      rewrite En.
      replace (P ++ (pre ++ enc ++ Byte.x00 :: post) ++ pad ++ fileDataTable t)
        with ((P ++ pre) ++ enc ++ Byte.x00 :: (post ++ pad ++ fileDataTable t))
        by (rewrite <- !app_assoc; reflexivity).
      apply bytes_to_string_at; [rewrite blen_app; lia|exact Henc|].
      apply (Hclean (p, f')). left. reflexivity.
    + destruct Hdata as (pre & post & Ed & Lp).
      rewrite Ed.
      replace (P ++ fileNamesTable t ++ pad ++ pre ++ data f' ++ post)
        with (((P ++ fileNamesTable t ++ pad) ++ pre) ++ data f' ++ post)
        by (rewrite <- !app_assoc; reflexivity).
      apply slice_at; [rewrite blen_app; lia|lia].
  - apply IH. intros pf I. apply Hclean. right. exact I.
Qed.

Lemma combine_length_eq {A B} (xs : list A) (ys : list B) :
  length xs = length ys -> length (combine xs ys) = length xs.
Proof. intros H. rewrite length_combine. lia. Qed.

(** The decoder on the encoder's output. *)
Lemma load_save frames self desired t buf other :
  forallb Spec.valid_names (contents self) = true ->
  build_tables frames self desired = Ok t ->
  emit self t = Ok buf ->
  blen (fileNamesTable t) <= 2 ^ 26 ->
  exists c,
    _load other buf =
      ({| contents := c; endian := endian self;
          hashMultiplier := hashMultiplier self |}, Ok 0) /\
    Permutation (Spec.tree_files c) (Spec.tree_files (contents self)).
Proof.
  intros V Ht He Hsmall.
  pose proof (build_tables_rows _ _ _ Ht) as (Rows & _).
  pose proof (build_tables_lengths _ _ _ Ht) as Hlen.
  pose proof (header_size_le _ _ _ Ht) as Hsize.
  pose proof (build_tables_inv _ _ _ Ht) as (fl0 & files0 & Hfl & Hsort & _).
  apply (flatten_valid_ok _ _ V) in Hfl. destruct Hfl as [Hfl _]. subst fl0.
  apply sort_inv in Hsort. destruct Hsort as (Perm & _).
  apply emit_inv in He. cbv zeta in He.
  destruct He as (Rt & Rd & Rn & Rm & HF & ->).
  set (m := hashMultiplier self) in *. set (e := endian self) in *.
  set (qs := map (node_fields m) (combine (files t) (flatList t))) in *.
  assert (Hqs : length qs = length (files t)).
  { subst qs. rewrite length_map. apply combine_length_eq. exact Hlen. }
  rewrite Hqs in *.
  set (n := Z.of_nat (length (files t))) in *.
  set (hs := 40 + 16 * n + blen (fileNamesTable t)) in *.
  set (pad := padding hs (dataStartOffset t)) in *.
  assert (Hpad : blen pad = dataStartOffset t - hs).
  { subst pad. unfold padding. destruct (Z.ltb_spec hs (dataStartOffset t)).
    - apply blen_zeros. lia.
    - change (blen []) with 0. lia. }
  set (buf := header e (dataStartOffset t + blen (fileDataTable t))
                (dataStartOffset t) n m
              ++ concat (map (node_bytes e) qs) ++ sfnt_header e
              ++ fileNamesTable t ++ pad ++ fileDataTable t).
  assert (Hbuf : blen buf = dataStartOffset t + blen (fileDataTable t)).
  { subst buf. rewrite !blen_app, blen_header, blen_nodes, blen_sfnt_header,
      Hpad, Hqs. subst hs n. lia. }
  unfold buf at 1.
  rewrite (load_image other e _ (dataStartOffset t) n m qs
             (fileNamesTable t ++ pad ++ fileDataTable t)
             Rt Rd Rn Rm HF (eq_sym (f_equal Z.of_nat Hqs)) Hbuf).
  fold buf. cbv zeta.
  assert (Hclean : forall pf, In pf (flatList t) -> ~ In 0 (fst pf)).
  { intros pf I. apply (Permutation_in _ Perm) in I.
    apply in_flat_map in I. destruct I as (o & Io & I).
    rewrite forallb_forall in V.
    exact (entry_paths_clean o (V o Io) pf I). }
  pose proof (rows_readable t m
                (header e (dataStartOffset t + blen (fileDataTable t))
                   (dataStartOffset t) n m
                 ++ concat (map (node_bytes e) qs) ++ sfnt_header e)
                pad (0x20 + 0x10 * n + 0x08) (dataStartOffset t)
                (flatList t) (files t)) as RR.
  rewrite <- !app_assoc in RR. fold qs buf in RR.
  specialize (RR ltac:(rewrite !blen_app, blen_header, blen_nodes,
                         blen_sfnt_header, Hqs; subst n; lia)).
  specialize (RR ltac:(rewrite !blen_app, blen_header, blen_nodes,
                         blen_sfnt_header, Hpad, Hqs; subst hs n; lia)).
  specialize (RR Hsmall Rows Hclean).
  destruct (add_nodes_files buf _ _ _ _ [] RR) as (c & Ec & Pc).
  exists c. rewrite Ec. cbn [fst snd]. split; [reflexivity|].
  eapply perm_trans; [exact Pc|].
  change (Spec.tree_files []) with (@nil (str * bytes)). rewrite app_nil_r.
  rewrite tree_files_paths. apply Permutation_map. exact Perm.
Qed.

(** ** Distinct names give distinct paths *)

Lemma contains_cons c x r :
  contains c (x :: r) = false -> x <> c /\ contains c r = false.
Proof.
  unfold contains. cbn [existsb]. intros H. apply orb_false_elim in H.
  destruct H as (Hx & Hr). split; [|exact Hr].
  intros ->. rewrite Z.eqb_refl in Hx. discriminate.
Qed.

Lemma split_clean n : contains SLASH n = false -> split SLASH n = [n].
Proof.
  induction n as [|c r IH]; intros H; [reflexivity|].
  apply contains_cons in H. destruct H as (Hc & Hr).
  cbn [split]. destruct (Z.eqb_spec c SLASH); [contradiction|].
  rewrite (IH Hr). reflexivity.
Qed.

Lemma split_folder n q :
  contains SLASH n = false ->
  split SLASH (n ++ SLASH :: q) = n :: split SLASH q.
Proof.
  induction n as [|c r IH]; intros H.
  - cbn [app split]. rewrite Z.eqb_refl. reflexivity.
  - apply contains_cons in H. destruct H as (Hc & Hr).
    cbn [app split]. destruct (Z.eqb_spec c SLASH); [contradiction|].
    rewrite (IH Hr). reflexivity.
Qed.

Lemma head_segment_name n :
  contains SLASH n = false -> head_segment n = n.
Proof. intros H. unfold head_segment. rewrite split_clean by exact H. reflexivity. Qed.

Lemma head_segment_folder n q :
  contains SLASH n = false -> head_segment (n ++ SLASH :: q) = n.
Proof. intros H. unfold head_segment. rewrite split_folder by exact H. reflexivity. Qed.

Lemma files_of_head e :
  Spec.valid_names e = true ->
  forall pd, In pd (Spec.files_of e) -> head_segment (fst pd) = entry_name e.
Proof.
  destruct e as [f|n c]; intros V pd I.
  - cbn in I. destruct I as [<-|[]]. cbn [fst entry_name].
    cbn [Spec.valid_names] in V. unfold Spec.clean in V.
    apply andb_prop in V. destruct V as (_ & V). apply negb_true_iff in V.
    apply head_segment_name. exact V.
  - destruct (valid_folder _ _ V) as (_ & Hs & _).
    cbn [Spec.files_of] in I. apply in_map_iff in I.
    destruct I as ([p d] & <- & _). cbn [fst snd entry_name].
    apply head_segment_folder. exact Hs.
Qed.

Lemma distinct_cons n r :
  Spec.distinct (n :: r) = true -> ~ In n r /\ Spec.distinct r = true.
Proof.
  cbn [Spec.distinct]. intros H. apply andb_prop in H. destruct H as (H1 & H2).
  split; [|exact H2]. intros I. apply negb_true_iff in H1.
  assert (E : existsb (str_eqb n) r = true).
  { apply existsb_exists. exists n. split; [exact I|apply str_eqb_refl]. }
  congruence.
Qed.

Lemma tree_paths_nodup c :
  Forall (fun e => Spec.valid_names e = true -> Spec.unique_names e = true ->
                   NoDup (map fst (Spec.files_of e))) c ->
  forallb Spec.valid_names c = true ->
  Spec.distinct (map entry_name c) = true ->
  forallb Spec.unique_names c = true ->
  NoDup (map fst (Spec.tree_files c)).
Proof.
  unfold Spec.tree_files.
  induction 1 as [|o r Ho F IH]; intros V D U; [constructor|].
  cbn [forallb] in V, U. apply andb_prop in V, U.
  destruct V as (Vo & Vr), U as (Uo & Ur).
  cbn [map] in D. apply distinct_cons in D. destruct D as (Dn & Dr).
  cbn [flat_map]. rewrite map_app. apply NoDup_app.
  - exact (Ho Vo Uo).
  - exact (IH Vr Dr Ur).
  - intros p I J. apply Dn.
    apply in_map_iff in I. destruct I as (pd & <- & I).
    apply in_map_iff in J. destruct J as (pd' & E & J).
    apply in_flat_map in J. destruct J as (o' & Io' & J).
    rewrite forallb_forall in Vr.
    pose proof (files_of_head o Vo pd I) as H1.
    pose proof (files_of_head o' (Vr o' Io') pd' J) as H2.
    rewrite <- H1, <- E, H2. apply in_map. exact Io'.
Qed.

Lemma entry_paths_nodup e :
  Spec.valid_names e = true -> Spec.unique_names e = true ->
  NoDup (map fst (Spec.files_of e)).
Proof.
  induction e as [f|n c F] using entry_ind'; intros V U.
  - cbn. constructor; [intros []|constructor].
  - destruct (valid_folder _ _ V) as (_ & _ & _ & _ & Vc).
    cbn [Spec.unique_names] in U. apply andb_prop in U. destruct U as (D & Uc).
    cbn [Spec.files_of]. rewrite map_map. cbn [fst].
    rewrite <- (map_map fst (fun p => n ++ SLASH :: p)).
    apply Injective_map_NoDup.
    + intros x y E. apply app_inv_head in E. congruence.
    + exact (tree_paths_nodup c F Vc D Uc).
Qed.

Lemma well_formed_inv c :
  Spec.well_formed c = true ->
  forallb Spec.valid_names c = true /\
  Spec.distinct (map entry_name c) = true /\
  forallb Spec.unique_names c = true.
Proof.
  unfold Spec.well_formed. intros H.
  apply andb_prop in H. destruct H as (H & H3).
  apply andb_prop in H. destruct H as (H1 & H2). auto.
Qed.

Lemma well_formed_nodup c :
  Spec.well_formed c = true -> NoDup (map fst (Spec.tree_files c)).
Proof.
  intros H. apply well_formed_inv in H. destruct H as (V & D & U).
  apply tree_paths_nodup; try assumption.
  apply Forall_forall. intros e _. apply entry_paths_nodup.
Qed.

(** ** Round trip *)

(** C1, as the code has it.  Take a tree whose names hold no NUL and no
    path separator, whose folder names are non-empty and hold no
    backslash, and in which no two entries of a folder share a name.  If
    [save] succeeds on it (either endianness, any multiplier and caller's
    offset, whatever the room for calls) with a name table of at most
    2^26 bytes, then [_load] of the
    produced bytes, into any archive, returns 0 ([load] raises nothing),
    restores the endianness and the multiplier, and builds a tree with
    the same full paths, all distinct, each with the same payload. *)
Theorem round_trip :
  forall frames self desired t buf other,
    Spec.well_formed (contents self) = true ->
    build_tables frames self desired = Ok t ->
    blen (fileNamesTable t) <= 2 ^ 26 ->
    save frames self desired = Ok buf ->
    exists c,
      _load other buf =
        ({| contents := c; endian := endian self;
            hashMultiplier := hashMultiplier self |}, Ok 0) /\
      load other buf =
        ({| contents := c; endian := endian self;
            hashMultiplier := hashMultiplier self |}, Ok tt) /\
      Permutation (Spec.tree_files c) (Spec.tree_files (contents self)) /\
      NoDup (map fst (Spec.tree_files (contents self))) /\
      (forall p d, In (p, d) (Spec.tree_files c) <->
                   In (p, d) (Spec.tree_files (contents self))).
Proof.
  intros frames self desired t buf other W Ht Hsmall Hs.
  unfold save in Hs. rewrite Ht in Hs. cbn [bind] in Hs.
  destruct (well_formed_inv _ W) as (V & _ & _).
  destruct (load_save frames self desired t buf other V Ht Hs Hsmall) as (c & E & P).
  exists c. split; [exact E|].
  split; [unfold load; rewrite E; reflexivity|]. split; [exact P|].
  split; [apply well_formed_nodup; exact W|].
  intros p d. split; intros I.
  - exact (Permutation_in _ P I).
  - exact (Permutation_in _ (Permutation_sym P) I).
Qed.

Lemma round_trip_witness :
  exists c,
    _load empty_archive (sample_buffer Little) =
      ({| contents := c; endian := Little; hashMultiplier := 0x65 |}, Ok 0) /\
    load empty_archive (sample_buffer Little) =
      ({| contents := c; endian := Little; hashMultiplier := 0x65 |}, Ok tt) /\
    Permutation (Spec.tree_files c) (Spec.tree_files sample_tree) /\
    NoDup (map fst (Spec.tree_files sample_tree)) /\
    (forall p d, In (p, d) (Spec.tree_files c) <->
                 In (p, d) (Spec.tree_files sample_tree)).
Proof.
  refine (round_trip sample_frames (sample_archive Little) 0x70 (sample_tables Little)
            (sample_buffer Little) empty_archive _ _ _ _).
  - vm_compute. reflexivity.
  - vm_compute. reflexivity.
  - vm_compute. discriminate.
  - vm_compute. reflexivity.
Defined.

(** The claim as stated (unique names only) fails: the file "a\0" is
    saved, and loaded back as "a". *)
Lemma round_trip_counterexample :
  ~ (forall frames self desired buf other,
       Spec.distinct (map entry_name (contents self)) = true ->
       forallb Spec.unique_names (contents self) = true ->
       save frames self desired = Ok buf ->
       exists c e m,
         _load other buf =
           ({| contents := c; endian := e; hashMultiplier := m |}, Ok 0) /\
         (forall p d, In (p, d) (Spec.tree_files c) <->
                      In (p, d) (Spec.tree_files (contents self)))).
Proof.
  intros H.
  destruct (H sample_frames nul_archive 0 nul_buffer empty_archive)
    as (c & e & m & E & I); try (vm_compute; reflexivity).
  assert (L : _load empty_archive nul_buffer =
              ({| contents := [is_File (new_File [97] (blit "x"))];
                  endian := Big; hashMultiplier := 0x65 |}, Ok 0))
    by (vm_compute; reflexivity).
  rewrite L in E. injection E as <- _ _.
  specialize (I [97; 0] (blit "x")).
  destruct I as (_ & I).
  destruct (I (or_introl eq_refl)) as [J|[]]. discriminate J.
Qed.

(** ** The alignment loop terminates *)

Lemma window_bit nz h :
  1 <= nz -> 3 + nz <= h <= 6 + nz ->
  Z.testbit (Z.shiftl 0xF0 (nz - 1)) h = true.
Proof.
  intros Hn Hh. rewrite Z.shiftl_spec by lia.
  assert (C : h - (nz - 1) = 4 \/ h - (nz - 1) = 5 \/
              h - (nz - 1) = 6 \/ h - (nz - 1) = 7) by lia.
  destruct C as [-> | [-> | [-> | ->]]]; reflexivity.
Qed.

Lemma alignment_loop_terminates dso h :
  Z.testbit dso h = true ->
  forall fuel nz al,
    1 <= nz -> 3 + nz <= h ->
    al = Z.land dso (Z.shiftl 0xF0 (nz - 1)) ->
    h - 2 - nz <= Z.of_nat fuel ->
    exists a, alignment_loop fuel dso al nz = Some a /\ a <> 0.
Proof.
  intros Hbit. induction fuel as [|fuel IH]; intros nz al Hn Hh Hal Hf.
  - lia.
  - cbn [alignment_loop]. destruct (Z.eqb_spec al 0) as [E|E].
    + assert (Hfar : 7 + nz <= h).
      { destruct (Z.le_gt_cases (7 + nz) h) as [|Hc]; [assumption|exfalso].
        assert (B : Z.testbit al h = true).
        { rewrite Hal, Z.land_spec, Hbit, window_bit by lia. reflexivity. }
        rewrite E, Z.bits_0 in B. discriminate. }
      apply IH; try lia. f_equal. f_equal. lia.
    + exists al. destruct fuel; cbn [alignment_loop];
        (destruct (Z.eqb_spec al 0); [contradiction|auto]).
Qed.

Lemma get_alignment_terminates dso :
  16 <= dso ->
  exists a, get_alignment (Z.to_nat (Z.log2 dso)) dso = Some a /\ a <> 0.
Proof.
  intros H. unfold get_alignment.
  assert (Hl : 4 <= Z.log2 dso).
  { change 4 with (Z.log2 16). apply Z.log2_le_mono. exact H. }
  apply (alignment_loop_terminates dso (Z.log2 dso)); try lia.
  - apply Z.bit_log2. lia.
  - rewrite Z.shiftl_0_r. reflexivity.
Qed.

Lemma effective_ge_16 m d : 16 <= m -> 16 <= effective_dataStartOffset m d.
Proof. intros H. pose proof (effective_ge m d). lia. Qed.


(** ** What the padding does guarantee *)

Lemma alignment_loop_mask dso : forall fuel al nz a,
  (exists mask, al = Z.land dso mask) ->
  alignment_loop fuel dso al nz = Some a ->
  exists mask, a = Z.land dso mask.
Proof.
  induction fuel as [|fuel IH]; intros al nz a Hal H; cbn [alignment_loop] in H.
  - destruct (al =? 0); [discriminate|]. injection H as <-. exact Hal.
  - destruct (al =? 0).
    + eapply IH; [|exact H]. eexists. reflexivity.
    + injection H as <-. exact Hal.
Qed.

Lemma pow2_divides_land k dso mask :
  0 <= k -> (2 ^ k | dso) -> (2 ^ k | Z.land dso mask).
Proof.
  intros Hk D. apply Z.mod_divide; [apply Z.pow_nonzero; lia|].
  apply Z.mod_divide in D; [|apply Z.pow_nonzero; lia].
  rewrite <- Z.land_ones in * by lia.
  rewrite <- Z.land_assoc, (Z.land_comm mask), Z.land_assoc, D.
  apply Z.land_0_l.
Qed.

Lemma round_up_divides k x al :
  0 <= k -> (2 ^ k | al) -> (2 ^ k | SARC.round_up x al).
Proof.
  intros Hk (q & Hq). unfold SARC.round_up.
  assert (P : 0 < 2 ^ k) by (apply Z.pow_pos_nonneg; lia).
  apply Z.mod_divide; [lia|].
  assert (M : Z.lor (x - 1) (al - 1) mod 2 ^ k = 2 ^ k - 1).
  { rewrite <- Z.land_ones by lia.
    rewrite Z.land_lor_distr_l.
    assert (A : Z.land (al - 1) (Z.ones k) = Z.ones k).
    { rewrite Z.land_ones by lia. rewrite Z.ones_equiv. unfold Z.pred.
      replace (al - 1) with ((2 ^ k + -1) + (q - 1) * 2 ^ k) by lia.
      rewrite Z.mod_add by lia. apply Z.mod_small. lia. }
    rewrite A.
    replace (2 ^ k - 1) with (Z.ones k) by (rewrite Z.ones_equiv; lia).
    Z.bitblast. }
  rewrite <- Zplus_mod_idemp_l, M.
  replace (2 ^ k - 1 + 1) with (2 ^ k) by lia. apply Z_mod_same_full.
Qed.

Lemma land_le_r a b : 0 <= b -> Z.land a b <= b.
Proof.
  intros Hb.
  assert (E : b - Z.land a b = Z.ldiff b (Z.land a b)).
  { apply Z.sub_nocarry_ldiff. Z.bitblast. }
  assert (0 <= Z.ldiff b (Z.land a b)) by (apply Z.ldiff_nonneg; lia).
  lia.
Qed.

Lemma round_up_ge x al : 0 <= x -> 0 < al -> x <= SARC.round_up x al.
Proof.
  intros Hx Ha. unfold SARC.round_up.
  destruct (Z.eq_dec x 0) as [->|Hn].
  - change (0 - 1) with (-1). rewrite Z.lor_m1_l. lia.
  - pose proof (Z.add_lor_land (x - 1) (al - 1)) as E.
    pose proof (land_le_r (x - 1) (al - 1) ltac:(lia)). lia.
Qed.

(** Every data offset after the first is [round_up x alignment]. *)
Lemma data_table_offsets al files0 : forall idx tbl out fdt files1,
  data_table al idx files0 tbl out = (fdt, files1) ->
  0 <= idx -> 0 < al ->
  exists news,
    files1 = out ++ news /\
    Forall (fun fod => exists x, snd fod = SARC.round_up x al)
           (if 0 <? idx then news else tl news).
Proof.
  induction files0 as [|[file no] rest IH]; intros idx tbl out fdt files1 H Hi Ha.
  - cbn in H. injection H as _ <-. exists []. rewrite app_nil_r.
    split; [reflexivity|]. destruct (0 <? idx); constructor.
  - cbn [data_table] in H. apply IH in H; [|lia|exact Ha].
    destruct H as (news & -> & F).
    destruct (Z.ltb_spec 0 (idx + 1)); [|lia].
    eexists. rewrite <- app_assoc. split; [reflexivity|].
    cbn [app]. destruct (Z.ltb_spec 0 idx).
    + constructor; [|exact F]. cbn [snd]. eexists.
      pose proof (round_up_ge (blen tbl) al (blen_nonneg tbl) Ha).
      rewrite blen_app, blen_zeros by lia.
      replace (blen tbl + (SARC.round_up (blen tbl) al - blen tbl))
        with (SARC.round_up (blen tbl) al) by lia. reflexivity.
    + exact F.
Qed.

(** In every buffer [save] produces, the payload of every index record
    after the first starts (relative to the data start offset) at a
    multiple of each power of two that divides the data start offset,
    hence of the largest one; and the buffer's length is the data start
    offset plus the length of the payload table, as its header says. *)
Lemma payloads_aligned {frames} self desired t buf :
  build_tables frames self desired = Ok t -> emit self t = Ok buf ->
  blen buf = dataStartOffset t + blen (fileDataTable t) /\
  unpack_I (endian self) (slice buf 0x08 0x0C) = Ok (blen buf) /\
  forall i, (1 <= i < length (files t))%nat ->
    exists off,
      record_field (endian self) buf i 2 = Ok off /\
      forall k, 0 <= k -> (2 ^ k | dataStartOffset t) -> (2 ^ k | off).
Proof.
  intros Ht He.
  pose proof (build_tables_lengths _ _ _ Ht) as Hlen.
  pose proof (header_size_le _ _ _ Ht) as Hsize.
  pose proof (build_tables_inv _ _ _ Ht)
    as (fl0 & files0 & _ & _ & _ & Hmin & Heff & Hal & Hd).
  apply emit_inv in He. cbv zeta in He.
  destruct He as (Rt & Rd & Rn & Rm & HF & ->).
  set (m := hashMultiplier self) in *. set (e := endian self) in *.
  set (qs := map (node_fields m) (combine (files t) (flatList t))) in *.
  assert (Hqs : length qs = length (files t)).
  { subst qs. rewrite length_map. apply combine_length_eq. exact Hlen. }
  rewrite Hqs in *.
  set (n := Z.of_nat (length (files t))) in *.
  set (hs := 40 + 16 * n + blen (fileNamesTable t)) in *.
  set (pad := padding hs (dataStartOffset t)) in *.
  assert (Hpad : blen pad = dataStartOffset t - hs).
  { subst pad. unfold padding. destruct (Z.ltb_spec hs (dataStartOffset t)).
    - apply blen_zeros. lia.
    - change (blen []) with 0. lia. }
  assert (Hbuf : blen (header e (dataStartOffset t + blen (fileDataTable t))
                         (dataStartOffset t) n m
                       ++ concat (map (node_bytes e) qs) ++ sfnt_header e
                       ++ fileNamesTable t ++ pad ++ fileDataTable t)
                 = dataStartOffset t + blen (fileDataTable t)).
  { rewrite !blen_app, blen_header, blen_nodes, blen_sfnt_header, Hpad, Hqs.
    subst hs n. lia. }
  split; [exact Hbuf|]. split.
  { match goal with |- context [header ?e ?a ?b ?c ?d ++ ?r] =>
      destruct (header_fields e a b c d r) as (_ & _ & _ & E & _)
    end.
    cbv zeta in E. unfold unpack_I. rewrite E, Hbuf.
    apply unpack_order_split. exact Rt. }
  intros i Hi.
  assert (Hpos : 0 < alignment t).
  { destruct (get_alignment_terminates (dataStartOffset t)) as (a & Ea & Na).
    - rewrite Heff. apply effective_ge_16. rewrite Hmin, round_up_0x10.
      eapply Z.le_trans; [|apply spec_round_up_ge; lia].
      pose proof (blen_nonneg (fileNamesTable t)). lia.
    - rewrite Hal in Ea. injection Ea as <-.
      unfold get_alignment in Hal.
      apply alignment_loop_mask in Hal; [|eexists; reflexivity].
      destruct Hal as (mask & Em).
      assert (0 <= alignment t)
        by (rewrite Em; apply Z.land_nonneg; left; destruct Rd; lia).
      lia. }
  apply data_table_offsets in Hd; [|lia|exact Hpos].
  destruct Hd as (news & Hn & Fo). cbn [app] in Hn. subst news.
  change (0 <? 0) with false in Fo. cbv iota in Fo.
  destruct (nth_error (files t) i) as [[[f no] do]|] eqn:Ef.
  2:{ apply nth_error_None in Ef. lia. }
  destruct (nth_error (flatList t) i) as [[p f']|] eqn:Ep.
  2:{ apply nth_error_None in Ep. lia. }
  assert (Eq : nth_error qs i =
               Some (node_fields m ((f, no, do), (p, f')))).
  { subst qs. rewrite nth_error_map.
    assert (Ec : nth_error (combine (files t) (flatList t)) i
                 = Some ((f, no, do), (p, f'))).
    { clear - Ef Ep. revert i Ef Ep. generalize (flatList t).
      induction (files t) as [|x r IH]; intros [|y l] [|i] Ef Ep;
        cbn in *; try discriminate.
      - congruence.
      - apply IH; assumption. }
    rewrite Ec. reflexivity. }
  cbn [node_fields] in Eq.
  assert (R : node_in_range (Spec.hash p m, Z.lor (no / 4) 0x1000000, do,
                             do + blen (data f'))).
  { rewrite Forall_forall in HF. apply HF. eapply nth_error_In. exact Eq. }
  match goal with |- context [header ?e ?a ?b ?c ?d ++ _ ++ ?r] =>
    destruct (record_fields e (header e a b c d) qs r i _ _ _ _
                (blen_header _ _ _ _ _) Eq R) as (_ & _ & E & _)
  end.
  exists do. split; [exact E|].
  intros k Hk D.
  assert (I : In (f, no, do) (tl (files t))).
  { destruct (files t) as [|x r]; [destruct i; discriminate|].
    destruct i as [|i]; [lia|]. cbn in Ef. cbn [tl].
    eapply nth_error_In. exact Ef. }
  rewrite Forall_forall in Fo. destruct (Fo _ I) as (x & Ex).
  cbn [snd] in Ex. rewrite Ex. apply round_up_divides; [exact Hk|].
  unfold get_alignment in Hal.
  apply alignment_loop_mask in Hal; [|eexists; reflexivity].
  destruct Hal as (mask & ->). apply pow2_divides_land; assumption.
Qed.

(** ** Where the alignment is the largest power-of-two divisor *)

Lemma window_bits nz i :
  1 <= nz -> 0 <= i ->
  Z.testbit (Z.shiftl 0xF0 (nz - 1)) i = (3 + nz <=? i) && (i <=? 6 + nz).
Proof.
  intros Hn Hi. rewrite Z.shiftl_spec by lia.
  destruct (Z.leb_spec (3 + nz) i); destruct (Z.leb_spec i (6 + nz));
    cbn [andb].
  - pose proof (window_bit nz i Hn ltac:(lia)) as W.
    rewrite Z.shiftl_spec in W by lia. exact W.
  - apply Z.bits_above_log2; [lia|]. change (Z.log2 240) with 7. lia.
  - destruct (Z.le_gt_cases 0 (i - (nz - 1))) as [Hp|Hp].
    + assert (C : i - (nz - 1) = 0 \/ i - (nz - 1) = 1 \/
                  i - (nz - 1) = 2 \/ i - (nz - 1) = 3) by lia.
      destruct C as [-> | [-> | [-> | ->]]]; reflexivity.
    + apply Z.testbit_neg_r. lia.
  - lia.
Qed.

Lemma alignment_loop_lowest dso : forall fuel nz al a,
  1 <= nz ->
  (forall i, 0 <= i < 6 + nz -> Z.testbit dso i = false) ->
  al = Z.land dso (Z.shiftl 0xF0 (nz - 1)) ->
  alignment_loop fuel dso al nz = Some a ->
  exists p, a = 2 ^ p /\ lowest_bit dso p.
Proof.
  assert (Stop : forall nz al,
            1 <= nz ->
            (forall i, 0 <= i < 6 + nz -> Z.testbit dso i = false) ->
            al = Z.land dso (Z.shiftl 0xF0 (nz - 1)) -> al <> 0 ->
            exists p, al = 2 ^ p /\ lowest_bit dso p).
  { intros nz al Hn Hlow Hal Hne. exists (6 + nz).
    assert (B : forall i, 0 <= i ->
              Z.testbit al i = Z.testbit dso (6 + nz) && (6 + nz =? i)).
    { intros i Hi. rewrite Hal, Z.land_spec, window_bits by lia.
      destruct (Z.eqb_spec (6 + nz) i) as [<-|Hd].
      - destruct (Z.leb_spec (3 + nz) (6 + nz)); [|lia].
        destruct (Z.leb_spec (6 + nz) (6 + nz)); [|lia]. reflexivity.
      - rewrite andb_false_r.
        destruct (Z.leb_spec i (6 + nz)).
        + rewrite (Hlow i) by lia. reflexivity.
        + rewrite !andb_false_r. reflexivity. }
    destruct (Z.testbit dso (6 + nz)) eqn:T.
    - split; [|split; [lia|split; [exact T|exact Hlow]]].
      apply Z.bits_inj'. intros i Hi.
      rewrite B, Z.pow2_bits_eqb by lia. reflexivity.
    - exfalso. apply Hne. apply Z.bits_inj'. intros i Hi.
      rewrite B, Z.bits_0 by lia. reflexivity. }
  induction fuel as [|fuel IH]; intros nz al a Hn Hlow Hal H;
    cbn [alignment_loop] in H; destruct (Z.eqb_spec al 0) as [E|E];
    try discriminate.
  - injection H as <-. exact (Stop nz al Hn Hlow Hal E).
  - eapply IH; [| |reflexivity|].
    3:{ replace (nz + 1 - 1) with nz by lia. exact H. }
    + lia.
    + intros i Hi. destruct (Z.eq_dec i (6 + nz)) as [->|Hd];
        [|apply Hlow; lia].
      assert (T : Z.testbit al (6 + nz) = false) by (rewrite E; apply Z.bits_0).
      rewrite Hal, Z.land_spec, window_bits in T by lia.
      destruct (Z.leb_spec (3 + nz) (6 + nz)); [|lia].
      destruct (Z.leb_spec (6 + nz) (6 + nz)); [|lia].
      rewrite andb_true_r in T. exact T.
  - injection H as <-. exact (Stop nz al Hn Hlow Hal E).
Qed.

Lemma lowest_bit_divisor dso p :
  lowest_bit dso p -> Spec.largest_pow2_divisor (2 ^ p) dso.
Proof.
  intros (Hp & Hset & Hlow).
  assert (D : forall k, 0 <= k -> (2 ^ k | dso) <->
                        forall i, 0 <= i < k -> Z.testbit dso i = false).
  { intros k Hk. split.
    - intros H i Hi. apply Z.mod_divide in H; [|apply Z.pow_nonzero; lia].
      rewrite <- Z.land_ones in H by lia.
      assert (T : Z.testbit (Z.land dso (Z.ones k)) i = false)
        by (rewrite H; apply Z.bits_0).
      rewrite Z.land_spec, Z.ones_spec_low, andb_true_r in T by lia. exact T.
    - intros H. apply Z.mod_divide; [apply Z.pow_nonzero; lia|].
      rewrite <- Z.land_ones by lia. apply Z.bits_inj'. intros i Hi.
      rewrite Z.land_spec, Z.bits_0.
      destruct (Z.lt_ge_cases i k).
      + rewrite H by lia. reflexivity.
      + rewrite Z.ones_spec_high by lia. apply andb_false_r. }
  split; [exists p; split; [exact Hp|reflexivity]|]. split.
  - apply D; assumption.
  - intros k Hk Hd. apply Z.pow_le_mono_r; [lia|].
    destruct (Z.le_gt_cases k p) as [|Hc]; [assumption|exfalso].
    rewrite D in Hd by exact Hk. rewrite (Hd p) in Hset by lia. discriminate.
Qed.

(** On an offset that is a multiple of 0x80 (every offset obtained by
    rounding the minimum up to 0x200 is one) the loop does find the
    largest power-of-two divisor. *)
Lemma alignment_of_multiple_of_0x80 dso :
  0 < dso -> dso mod 0x80 = 0 ->
  exists a, get_alignment (Z.to_nat (Z.log2 dso)) dso = Some a /\
            Spec.largest_pow2_divisor a dso.
Proof.
  intros Hpos Hmod.
  assert (H16 : 16 <= dso).
  { pose proof (Z.div_mod dso 128 ltac:(lia)). rewrite Hmod in H.
    assert (0 < dso / 128) by lia. lia. }
  destruct (get_alignment_terminates dso H16) as (a & Ea & _).
  exists a. split; [exact Ea|].
  unfold get_alignment in Ea.
  apply alignment_loop_lowest in Ea.
  - destruct Ea as (p & -> & L). apply lowest_bit_divisor. exact L.
  - lia.
  - intros i Hi. change 128 with (2 ^ 7) in Hmod.
    rewrite <- Z.land_ones in Hmod by lia.
    assert (T : Z.testbit (Z.land dso (Z.ones 7)) i = false)
      by (rewrite Hmod; apply Z.bits_0).
    rewrite Z.land_spec, Z.ones_spec_low, andb_true_r in T by lia. exact T.
  - rewrite Z.shiftl_0_r. reflexivity.
Qed.

(* ================================================================== *)
(** * Further properties of the code *)
(* ================================================================== *)

(** ** Looking up a path *)

Lemma find_folder_some cur n c :
  find_folder cur n = Some c ->
  exists pre post, cur = pre ++ Folder n c :: post.
Proof.
  unfold find_folder.
  destruct (with_folder cur n (fun c0 => (c0, c0))) as [[l r]|] eqn:W; [|discriminate].
  intros E. injection E as ->.
  apply with_folder_some in W. destruct W as (pre & c0 & post & -> & _ & ->).
  cbn [snd]. eauto.
Qed.

Lemma find_named_some cur n e :
  find_named cur n = Some e -> In e cur /\ entry_name e = n.
Proof.
  induction cur as [|x r IH]; [discriminate|].
  cbn [find_named]. destruct (str_eqb (entry_name x) n) eqn:E.
  - intros H. injection H as ->. split; [left; reflexivity|].
    apply str_eqb_eq. exact E.
  - intros H. destruct (IH H). split; [right|]; assumption.
Qed.

Lemma entry_paths_folder_in pre n c post pf :
  In pf (flat_map entry_paths c) ->
  In (n ++ SLASH :: fst pf, snd pf)
     (flat_map entry_paths (pre ++ Folder n c :: post)).
Proof.
  intros H. rewrite flat_map_app. apply in_or_app. right.
  cbn [flat_map]. apply in_or_app. left. cbn [entry_paths].
  apply (in_map (fun pf => (n ++ SLASH :: fst pf, snd pf))). exact H.
Qed.

Lemma but_last_cons {A} (x : A) l : l <> [] -> but_last (x :: l) = x :: but_last l.
Proof. destruct l; [contradiction|reflexivity]. Qed.

Lemma last_item_cons {A} (x : A) l : l <> [] -> last_item (x :: l) = last_item l.
Proof.
  intros H. unfold last_item. cbn [rev].
  destruct (rev l) eqn:E.
  - apply (f_equal (@rev A)) in E. rewrite rev_involutive in E. contradiction.
  - reflexivity.
Qed.

(** The walk and the final lookup of [__getitem__] on the segments [segs]. *)
Lemma getitem_walk_sound segs : forall cur cur' last f,
  getitem_walk cur (but_last segs) = Ok cur' ->
  last_item segs = Ok last ->
  find_named cur' last = Some (is_File f) ->
  In (join SLASH segs, f) (flat_map entry_paths cur).
Proof.
  induction segs as [|s rest IH]; intros cur cur' last f W L F; [discriminate|].
  destruct rest as [|s' rest'].
  - cbn in W, L. injection W as <-. injection L as <-.
    apply find_named_some in F. destruct F as [I N].
    cbn [join]. apply in_flat_map. exists (is_File f). split; [exact I|].
    cbn [entry_paths entry_name] in *. left. rewrite N. reflexivity.
  - rewrite but_last_cons in W by discriminate.
    rewrite last_item_cons in L by discriminate.
    cbn [getitem_walk] in W.
    destruct (find_folder cur s) as [c|] eqn:FF; [|discriminate].
    apply find_folder_some in FF. destruct FF as (pre & post & ->).
    specialize (IH c cur' last f W L F).
    rewrite join_cons by discriminate.
    apply (entry_paths_folder_in pre s c post _ IH).
Qed.

Lemma getitem_walk_error segs : forall cur e,
  getitem_walk cur segs = Raise e -> e = KeyError.
Proof.
  induction segs as [|s r IH]; intros cur e H; [discriminate|].
  cbn [getitem_walk] in H. destruct (find_folder cur s); [eauto|].
  injection H as <-. reflexivity.
Qed.

Lemma replace_idem a b s : a <> b -> replace a b (replace a b s) = replace a b s.
Proof.
  intros Hab. unfold replace. rewrite map_map. apply map_ext. intros c.
  destruct (c =? a) eqn:E; [|rewrite E; reflexivity].
  destruct (b =? a) eqn:E2; [apply Z.eqb_eq in E2; congruence|reflexivity].
Qed.

Lemma entries_of_self e : In e (entries_of e).
Proof. destruct e; left; reflexivity. Qed.

Lemma tree_entries_in cur e : In e cur -> In e (tree_entries cur).
Proof.
  intros H. apply in_flat_map. exists e. split; [exact H|apply entries_of_self].
Qed.

Lemma tree_entries_folder pre n c post e :
  In e (tree_entries c) -> In e (tree_entries (pre ++ Folder n c :: post)).
Proof.
  intros H. unfold tree_entries. rewrite flat_map_app. apply in_or_app. right.
  cbn [flat_map entries_of]. right. apply in_or_app. left. exact H.
Qed.

Lemma getitem_walk_entries segs : forall cur cur' e,
  getitem_walk cur segs = Ok cur' -> In e cur' -> In e (tree_entries cur).
Proof.
  induction segs as [|s r IH]; intros cur cur' e W I.
  - injection W as <-. apply tree_entries_in. exact I.
  - cbn [getitem_walk] in W.
    destruct (find_folder cur s) as [c|] eqn:FF; [|discriminate].
    apply find_folder_some in FF. destruct FF as (pre & post & ->).
    apply tree_entries_folder. eapply IH; eassumption.
Qed.

Lemma getitem_inv self key e :
  __getitem__ self key = Ok e ->
  exists cur last,
    getitem_walk (contents self) (but_last (folderStructure_of key)) = Ok cur /\
    last_item (folderStructure_of key) = Ok last /\
    find_named cur last = Some e.
Proof.
  unfold __getitem__. fold (folderStructure_of key). intros H.
  apply bind_ok in H. destruct H as (cur & W & H).
  apply bind_ok in H. destruct H as (last & L & H).
  destruct (find_named cur last) as [x|] eqn:F; [|discriminate].
  injection H as ->. eauto.
Qed.

(** X1. [__getitem__] returns only what is stored at the requested path:
    a file it returns sits in the tree under the key's path (with
    backslashes read as slashes); whatever it returns is an entry of the
    tree whose name is the key's last segment; the only exception it
    raises is [KeyError]; and slashes and backslashes in the key are
    interchangeable. *)
Theorem getitem_sound :
  forall self key,
    (forall f, __getitem__ self key = Ok (is_File f) ->
       In (replace BACKSLASH SLASH key, f) (flat_map entry_paths (contents self))) /\
    (forall e, __getitem__ self key = Ok e ->
       In e (tree_entries (contents self)) /\
       last_item (folderStructure_of key) = Ok (entry_name e)) /\
    (forall x, __getitem__ self key = Raise x -> x = KeyError) /\
    __getitem__ self (replace BACKSLASH SLASH key) = __getitem__ self key.
Proof.
  intros self key. repeat split.
  - intros f H. apply getitem_inv in H. destruct H as (cur & last & W & L & F).
    rewrite <- (join_split SLASH (replace BACKSLASH SLASH key)).
    eapply getitem_walk_sound; eassumption.
  - apply getitem_inv in H. destruct H as (cur & last & W & L & F).
    apply find_named_some in F. destruct F as [I _].
    eapply getitem_walk_entries; eassumption.
  - apply getitem_inv in H. destruct H as (cur & last & W & L & F).
    apply find_named_some in F. destruct F as [_ <-]. exact L.
  - intros x. unfold __getitem__. fold (folderStructure_of key).
    destruct (getitem_walk (contents self) (but_last (folderStructure_of key)))
      as [cur|e0] eqn:W.
    + cbn [bind].
      destruct (last_item_ok (folderStructure_of key) (split_not_nil _ _))
        as (last & -> & _).
      cbn [bind]. destruct (find_named cur last); [discriminate|].
      intros H. injection H as <-. reflexivity.
    + cbn [bind]. intros H. injection H as <-.
      eapply getitem_walk_error. exact W.
  - unfold __getitem__. rewrite replace_idem by discriminate. reflexivity.
Qed.

Lemma getitem_sound_witness :
  In (lit "dir/sub/y", new_File (lit "y") (blit "yy"))
     (flat_map entry_paths (contents (sample_archive Big))).
Proof.
  apply (proj1 (getitem_sound (sample_archive Big)
                  [100; 105; 114; 92; 115; 117; 98; 92; 121])).
  vm_compute. reflexivity.
Defined.

Lemma find_named_distinct cur e :
  Spec.distinct (map entry_name cur) = true -> In e cur ->
  find_named cur (entry_name e) = Some e.
Proof.
  induction cur as [|x r IH]; intros D I; [contradiction|].
  cbn [map] in D. apply distinct_cons in D. destruct D as [N D].
  cbn [find_named]. destruct I as [->|I].
  - rewrite str_eqb_refl. reflexivity.
  - destruct (str_eqb (entry_name x) (entry_name e)) eqn:E.
    + apply str_eqb_eq in E. exfalso. apply N. rewrite E.
      apply in_map. exact I.
    + apply IH; assumption.
Qed.

Lemma with_folder_distinct {R} cur n c (k : list entry -> list entry * R) :
  Spec.distinct (map entry_name cur) = true -> In (Folder n c) cur ->
  exists l, with_folder cur n k = Some (l, snd (k c)).
Proof.
  induction cur as [|x r IH]; intros D I; [contradiction|].
  cbn [map] in D. apply distinct_cons in D. destruct D as [N D].
  cbn [with_folder]. destruct I as [->|I].
  - rewrite str_eqb_refl. destruct (k c) as [c' r']. cbn [snd]. eauto.
  - destruct (IH D I) as (l & ->).
    destruct x as [f|n' c']; [eauto|].
    destruct (str_eqb n' n) eqn:E; [|eauto].
    apply str_eqb_eq in E. subst n'. exfalso. apply N.
    apply (in_map entry_name) in I. exact I.
Qed.

Lemma find_folder_distinct cur n c :
  Spec.distinct (map entry_name cur) = true -> In (Folder n c) cur ->
  find_folder cur n = Some c.
Proof.
  intros D I. unfold find_folder.
  destruct (with_folder_distinct cur n c (fun c0 => (c0, c0)) D I) as (l & ->).
  reflexivity.
Qed.

Lemma getitem_path e :
  Spec.valid_names e = true -> Spec.unique_names e = true ->
  forall cur p f,
    In e cur -> Spec.distinct (map entry_name cur) = true ->
    In (p, f) (entry_paths e) ->
    lookup cur (split SLASH p) = Ok (is_File f).
Proof.
  induction e as [f0|n c IH] using entry_ind'; intros V U cur p f I D P.
  - cbn [entry_paths] in P. destruct P as [P|[]]. injection P as <- <-.
    cbn [Spec.valid_names] in V. unfold Spec.clean in V.
    apply andb_prop in V. destruct V as [_ V]. apply negb_true_iff in V.
    rewrite (split_clean _ V). unfold lookup. cbn [but_last removelast getitem_walk bind].
    cbn [last_item rev app bind].
    pose proof (find_named_distinct cur (is_File f0) D I) as F.
    cbn [entry_name] in F. rewrite F. reflexivity.
  - apply valid_folder in V. destruct V as (_ & Vs & _ & _ & Vc).
    cbn [Spec.unique_names] in U. apply andb_prop in U. destruct U as [Dc Uc].
    cbn [entry_paths] in P. apply in_map_iff in P.
    destruct P as ([q f'] & E & P). cbn [fst snd] in E. injection E as <- <-.
    apply in_flat_map in P. destruct P as (e' & Ie' & P).
    rewrite (split_folder _ _ Vs).
    unfold lookup.
    rewrite but_last_cons, last_item_cons by apply split_not_nil.
    cbn [getitem_walk]. rewrite (find_folder_distinct cur n c D I).
    rewrite Forall_forall in IH.
    rewrite forallb_forall in Vc, Uc.
    apply (IH e' Ie' (Vc e' Ie') (Uc e' Ie') c q f' Ie' Dc P).
Qed.

Lemma replace_clean a b s : contains a s = false -> replace a b s = s.
Proof.
  intros B. unfold replace. rewrite <- (map_id s) at 2. apply map_ext_in.
  intros c Hc. destruct (c =? a) eqn:E; [|reflexivity].
  apply Z.eqb_eq in E. subst c. exfalso.
  apply (contains_false _ _ _ B Hc). reflexivity.
Qed.

Lemma getitem_well_formed self p f :
  Spec.well_formed (contents self) = true ->
  In (p, f) (flat_map entry_paths (contents self)) ->
  contains BACKSLASH p = false ->
  __getitem__ self p = Ok (is_File f).
Proof.
  intros W P B.
  apply well_formed_inv in W. destruct W as (V & D & U).
  apply in_flat_map in P. destruct P as (e & I & P).
  rewrite forallb_forall in V, U.
  unfold __getitem__. rewrite (replace_clean _ _ _ B).
  apply (getitem_path e (V e I) (U e I) (contents self) p f I D P).
Qed.

(** X2. In a well-formed tree every file is found by its path:
    [__getitem__] on the full slash-delimited path of a file returns
    that file. *)
Theorem getitem_finds_file :
  forall self p f,
    Spec.well_formed (contents self) = true ->
    In (p, f) (flat_map entry_paths (contents self)) ->
    contains BACKSLASH p = false ->
    __getitem__ self p = Ok (is_File f).
Proof.
  intros self p f W P B.
  apply well_formed_inv in W. destruct W as (V & D & U).
  apply in_flat_map in P. destruct P as (e & I & P).
  rewrite forallb_forall in V, U.
  unfold __getitem__. rewrite (replace_clean _ _ _ B).
  apply (getitem_path e (V e I) (U e I) (contents self) p f I D P).
Qed.

Lemma getitem_finds_file_witness :
  __getitem__ (sample_archive Big) (lit "dir/sub/y")
    = Ok (is_File (new_File (lit "y") (blit "yy"))).
Proof.
  apply (getitem_finds_file (sample_archive Big) (lit "dir/sub/y")
           (new_File (lit "y") (blit "yy"))).
  - vm_compute. reflexivity.
  - vm_compute. tauto.
  - vm_compute. reflexivity.
Defined.

(** ** Storing under a path *)

Lemma under_nil pd : under [] pd = pd.
Proof. destruct pd. reflexivity. Qed.

Lemma under_cons n folders pd :
  under (n :: folders) pd =
  (n ++ SLASH :: fst (under folders pd), snd (under folders pd)).
Proof.
  unfold under. cbn [fst snd app]. rewrite join_cons; [reflexivity|].
  destruct folders; discriminate.
Qed.

Lemma map_under_cons n folders l :
  map (under (n :: folders)) l =
  map (fun pd => (n ++ SLASH :: fst pd, snd pd)) (map (under folders) l).
Proof. rewrite map_map. apply map_ext. intros pd. apply under_cons. Qed.

Lemma tree_files_one e : Spec.tree_files [e] = Spec.files_of e.
Proof. unfold Spec.tree_files. cbn [flat_map]. apply app_nil_r. Qed.

Lemma tree_files_replace pre n c c' post l :
  Permutation (Spec.tree_files c') (l ++ Spec.tree_files c) ->
  Permutation (Spec.tree_files (pre ++ Folder n c' :: post))
    (map (fun pd => (n ++ SLASH :: fst pd, snd pd)) l
       ++ Spec.tree_files (pre ++ Folder n c :: post)).
Proof.
  intros P. rewrite !tree_files_app.
  rewrite (tree_files_cons _ post), (tree_files_cons (Folder n c) post).
  rewrite !tree_files_folder.
  apply (Permutation_map (fun pd => (n ++ SLASH :: fst pd, snd pd))) in P.
  rewrite map_app in P.
  eapply perm_trans.
  - apply Permutation_app_head. apply Permutation_app_tail. exact P.
  - rewrite <- !app_assoc. rewrite app_assoc.
    rewrite (app_assoc (map _ l)).
    apply Permutation_app_tail. apply Permutation_app_comm.
Qed.


Lemma setitem_unfold cls self key val :
  val <> Other ->
  __setitem__ cls self key val =
  match last_item (folderStructure_of key) with
  | Raise e => (cls, self, Raise e)
  | Ok last =>
      let (c, r) := setitem_walk (contents self) (tl (folderStructure_of key))
                      (setitem_last key val) in
      ({| File_name := Some last |}, set_contents self c, r)
  end.
Proof. destruct val; [reflexivity|reflexivity|contradiction]. Qed.



(** ** Keys without separators *)

Lemma folderStructure_flat key :
  contains SLASH key = false -> contains BACKSLASH key = false ->
  folderStructure_of key = [key].
Proof.
  intros S B. unfold folderStructure_of. rewrite (replace_clean _ _ _ B).
  apply split_clean. exact S.
Qed.

Lemma find_named_app_none cur v n :
  find_named cur n = None ->
  find_named (cur ++ [v]) n =
  if str_eqb (entry_name v) n then Some v else None.
Proof.
  induction cur as [|x r IH]; [reflexivity|].
  cbn [find_named app]. destruct (str_eqb (entry_name x) n); [discriminate|].
  exact IH.
Qed.

Lemma remove_named_app_none cur v n :
  find_named cur n = None -> entry_name v = n ->
  remove_named (cur ++ [v]) n = cur.
Proof.
  intros F E. induction cur as [|x r IH].
  - cbn. rewrite E, str_eqb_refl. reflexivity.
  - cbn [find_named] in F. cbn [remove_named app].
    destruct (str_eqb (entry_name x) n); [discriminate|].
    rewrite IH by exact F. reflexivity.
Qed.

Lemma set_contents_same self : set_contents self (contents self) = self.
Proof. destruct self. reflexivity. Qed.

Lemma set_contents_twice self a b :
  set_contents (set_contents self a) b = set_contents self b.
Proof. reflexivity. Qed.

(** X4. Storing under a key without separators, when no root entry has
    that name: a value that the root does not hold is added to the root
    and nothing else changes, and one that the root holds already (under
    another name) is not added again.  If the name of an added value is
    the key, [__getitem__] then returns it, and [__delitem__] takes it
    out again, leaving the archive as it was. *)
Theorem setitem_getitem_delitem :
  forall cls self key v,
    contains SLASH key = false -> contains BACKSLASH key = false ->
    find_named (contents self) key = None ->
    let after := set_contents self (contents self ++ [v]) in
    __setitem__ cls self key (Obj v) = ({| File_name := Some key |}, after, Ok tt) /\
    __setitem__ cls self key (Held v) = ({| File_name := Some key |}, self, Ok tt) /\
    (entry_name v = key ->
     __getitem__ after key = Ok v /\ __delitem__ after key = (self, Ok tt)) /\
    (entry_name v <> key ->
     __getitem__ after key = Raise KeyError /\
     __delitem__ after key = (after, Raise KeyError)).
Proof.
  intros cls self key v S B F after.
  pose proof (folderStructure_flat key S B) as FS.
  split; [|split; [|split]].
  - rewrite setitem_unfold, FS by discriminate.
    cbn [last_item rev app tl setitem_walk].
    unfold setitem_last. rewrite F. reflexivity.
  - rewrite setitem_unfold, FS by discriminate.
    cbn [last_item rev app tl setitem_walk].
    unfold setitem_last. rewrite F. cbn [set_add].
    rewrite set_contents_same. reflexivity.
  - intros E. split.
    + unfold __getitem__. fold (folderStructure_of key). rewrite FS.
      cbn [but_last removelast getitem_walk bind last_item rev app].
      subst after. cbn [contents set_contents].
      rewrite (find_named_app_none _ _ _ F), E, str_eqb_refl. reflexivity.
    + unfold __delitem__. fold (folderStructure_of key). rewrite FS.
      cbn [tl delitem_walk]. subst after. cbn [contents set_contents].
      rewrite (find_named_app_none _ _ _ F), E, str_eqb_refl.
      rewrite (remove_named_app_none _ _ _ F E).
      destruct self; reflexivity.
  - intros E.
    assert (N : str_eqb (entry_name v) key = false).
    { destruct (str_eqb (entry_name v) key) eqn:Q; [|reflexivity].
      apply str_eqb_eq in Q. contradiction. }
    split.
    + unfold __getitem__. fold (folderStructure_of key). rewrite FS.
      cbn [but_last removelast getitem_walk bind last_item rev app].
      subst after. cbn [contents set_contents].
      rewrite (find_named_app_none _ _ _ F), N. reflexivity.
    + unfold __delitem__. fold (folderStructure_of key). rewrite FS.
      cbn [tl delitem_walk]. subst after. cbn [contents set_contents].
      rewrite (find_named_app_none _ _ _ F), N. reflexivity.
Qed.

Lemma setitem_getitem_delitem_witness :
  let after := set_contents (sample_archive Big) (sample_tree ++ [is_File file_c]) in
  __setitem__ no_attrs (sample_archive Big) (lit "c") (Obj (is_File file_c))
    = ({| File_name := Some (lit "c") |}, after, Ok tt) /\
  __setitem__ no_attrs (sample_archive Big) (lit "c") (Held (is_File file_c))
    = ({| File_name := Some (lit "c") |}, sample_archive Big, Ok tt) /\
  (entry_name (is_File file_c) = lit "c" ->
   __getitem__ after (lit "c") = Ok (is_File file_c) /\
   __delitem__ after (lit "c") = (sample_archive Big, Ok tt)) /\
  (entry_name (is_File file_c) <> lit "c" ->
   __getitem__ after (lit "c") = Raise KeyError /\
   __delitem__ after (lit "c") = (after, Raise KeyError)).
Proof.
  apply (setitem_getitem_delitem no_attrs (sample_archive Big) (lit "c")
           (is_File file_c)); vm_compute; reflexivity.
Defined.

Lemma find_named_remove cur n e :
  Spec.distinct (map entry_name cur) = true ->
  find_named cur n = Some e ->
  find_named (remove_named cur n) n = None /\
  Permutation cur (e :: remove_named cur n).
Proof.
  induction cur as [|x r IH]; intros D F; [discriminate|].
  cbn [map] in D. apply distinct_cons in D. destruct D as [N D].
  cbn [find_named remove_named] in *.
  destruct (str_eqb (entry_name x) n) eqn:E.
  - injection F as <-. split; [|reflexivity].
    apply str_eqb_eq in E. subst n.
    destruct (find_named r (entry_name x)) as [y|] eqn:G; [|reflexivity].
    apply find_named_some in G. destruct G as [I Q]. exfalso. apply N.
    rewrite <- Q. apply in_map. exact I.
  - destruct (IH D F) as [G P]. cbn [find_named]. rewrite E. split; [exact G|].
    eapply perm_trans; [apply perm_skip; exact P|apply perm_swap].
Qed.

(** X5. Storing under a key without separators when a root entry already
    has that name does not replace it: the call raises [RuntimeError]
    (the set is changed while it is iterated), the old entry is gone and
    the new value is not stored, so the name then resolves to nothing. *)
Theorem setitem_existing_name :
  forall cls self key val old,
    val <> Other ->
    contains SLASH key = false -> contains BACKSLASH key = false ->
    Spec.distinct (map entry_name (contents self)) = true ->
    find_named (contents self) key = Some old ->
    let after := set_contents self (remove_named (contents self) key) in
    __setitem__ cls self key val
      = ({| File_name := Some key |}, after, Raise RuntimeError) /\
    Permutation (contents self) (old :: contents after) /\
    __getitem__ after key = Raise KeyError.
Proof.
  intros cls self key val old N S B D F after.
  pose proof (folderStructure_flat key S B) as FS.
  destruct (find_named_remove _ _ _ D F) as [G P].
  split; [|split].
  - rewrite setitem_unfold, FS by exact N.
    cbn [last_item rev app tl setitem_walk].
    unfold setitem_last. rewrite F. reflexivity.
  - exact P.
  - unfold __getitem__. fold (folderStructure_of key). rewrite FS.
    cbn [but_last removelast getitem_walk bind last_item rev app].
    subst after. cbn [contents set_contents]. rewrite G. reflexivity.
Qed.

Lemma setitem_existing_name_witness :
  let after := set_contents (sample_archive Big)
                 (remove_named sample_tree (lit "a")) in
  __setitem__ no_attrs (sample_archive Big) (lit "a") (Obj (is_File file_c))
    = ({| File_name := Some (lit "a") |}, after, Raise RuntimeError) /\
  Permutation sample_tree (is_File (new_File (lit "a") (blit "A")) :: contents after) /\
  __getitem__ after (lit "a") = Raise KeyError.
Proof.
  apply (setitem_existing_name no_attrs (sample_archive Big) (lit "a")
           (Obj (is_File file_c)) (is_File (new_File (lit "a") (blit "A"))));
    try discriminate; vm_compute; reflexivity.
Defined.

(** ** Deleting *)

Lemma remove_named_perm cur n e :
  find_named cur n = Some e -> Permutation cur (e :: remove_named cur n).
Proof.
  induction cur as [|x r IH]; intros F; [discriminate|].
  cbn [find_named remove_named] in *.
  destruct (str_eqb (entry_name x) n).
  - injection F as <-. reflexivity.
  - eapply perm_trans; [apply perm_skip, IH, F|apply perm_swap].
Qed.

Lemma tree_files_perm a b :
  Permutation a b -> Permutation (Spec.tree_files a) (Spec.tree_files b).
Proof. apply Permutation_flat_map. Qed.

Lemma delitem_walk_inv key folders : forall cur c r,
  delitem_walk cur folders (delitem_last key) = (c, r) ->
  (r = Raise KeyError /\ c = cur) \/
  (r = Ok tt /\
   exists e, In e (tree_entries cur) /\ entry_name e = key /\
     Permutation (Spec.tree_files cur)
       (map (under folders) (Spec.files_of e) ++ Spec.tree_files c)).
Proof.
  induction folders as [|n rest IH]; intros cur c r H.
  - cbn [delitem_walk] in H. unfold delitem_last in H.
    destruct (find_named cur key) as [e|] eqn:F.
    + injection H as <- <-. right. split; [reflexivity|].
      exists e. destruct (find_named_some _ _ _ F) as [I N].
      split; [apply tree_entries_in; exact I|]. split; [exact N|].
      rewrite (map_ext _ (fun pd => pd) under_nil), map_id.
      rewrite <- tree_files_one, <- tree_files_app.
      apply tree_files_perm. apply (remove_named_perm _ _ _ F).
    + injection H as <- <-. left. split; reflexivity.
  - cbn [delitem_walk] in H.
    destruct (with_folder cur n (fun c0 => delitem_walk c0 rest (delitem_last key)))
      as [[l u]|] eqn:W.
    + injection H as <- <-.
      apply with_folder_some in W.
      destruct W as (pre & c0 & post & -> & -> & ->).
      destruct (delitem_walk c0 rest (delitem_last key)) as [c1 r1] eqn:S.
      cbn [fst snd].
      destruct (IH _ _ _ S) as [[-> ->]|[-> (e & I & N & P)]].
      * left. split; reflexivity.
      * right. split; [reflexivity|]. exists e.
        split; [apply tree_entries_folder; exact I|]. split; [exact N|].
        rewrite map_under_cons. apply tree_files_replace. exact P.
    + injection H as <- <-. left. split; reflexivity.
Qed.

Lemma delitem_unfold self key :
  __delitem__ self key =
  let (c, r) := delitem_walk (contents self) (tl (folderStructure_of key))
                  (delitem_last key) in
  (set_contents self c, r).
Proof. reflexivity. Qed.

Lemma delitem_cases self key self' r :
  __delitem__ self key = (self', r) ->
  (r = Raise KeyError /\ self' = self) \/
  (r = Ok tt /\
   endian self' = endian self /\ hashMultiplier self' = hashMultiplier self /\
   exists e, In e (tree_entries (contents self)) /\ entry_name e = key /\
     Permutation (Spec.tree_files (contents self))
       (map (under (tl (folderStructure_of key))) (Spec.files_of e)
          ++ Spec.tree_files (contents self'))).
Proof.
  intros H. rewrite delitem_unfold in H.
  destruct (delitem_walk (contents self) (tl (folderStructure_of key))
              (delitem_last key)) as [c r0] eqn:S.
  injection H as <- <-.
  destruct (delitem_walk_inv _ _ _ _ _ S) as [[-> ->]|[-> E]].
  - left. split; [reflexivity|apply set_contents_same].
  - right. repeat split. exact E.
Qed.

(** X6. [__delitem__] either raises [KeyError] and leaves the archive
    exactly as it was, or returns after taking out one entry whose name
    is the key in full; every file outside that entry is still there. *)
Theorem delitem_outcome :
  forall self key self' r,
    __delitem__ self key = (self', r) ->
    (r = Raise KeyError /\ self' = self) \/
    (r = Ok tt /\
     endian self' = endian self /\ hashMultiplier self' = hashMultiplier self /\
     exists e, In e (tree_entries (contents self)) /\ entry_name e = key /\
       Permutation (Spec.tree_files (contents self))
         (map (under (tl (folderStructure_of key))) (Spec.files_of e)
            ++ Spec.tree_files (contents self'))).
Proof.
  intros self key self' r H. rewrite delitem_unfold in H.
  destruct (delitem_walk (contents self) (tl (folderStructure_of key))
              (delitem_last key)) as [c r0] eqn:S.
  injection H as <- <-.
  destruct (delitem_walk_inv _ _ _ _ _ S) as [[-> ->]|[-> E]].
  - left. split; [reflexivity|apply set_contents_same].
  - right. repeat split. exact E.
Qed.

Lemma delitem_outcome_witness :
  (Ok tt = Raise KeyError /\
   set_contents (sample_archive Big) (remove_named sample_tree (lit "dir"))
     = sample_archive Big) \/
  (Ok tt = Ok tt /\ Big = Big /\ 0x65 = 0x65 /\
   exists e, In e (tree_entries sample_tree) /\ entry_name e = lit "dir" /\
     Permutation (Spec.tree_files sample_tree)
       (map (under (tl (folderStructure_of (lit "dir")))) (Spec.files_of e)
          ++ Spec.tree_files (remove_named sample_tree (lit "dir")))).
Proof.
  apply (delitem_outcome (sample_archive Big) (lit "dir")
           (set_contents (sample_archive Big) (remove_named sample_tree (lit "dir")))
           (Ok tt)).
  vm_compute. reflexivity.
Defined.

Lemma find_named_none cur key :
  (forall e, In e cur -> entry_name e <> key) -> find_named cur key = None.
Proof.
  intros H. destruct (find_named cur key) as [e|] eqn:F; [|reflexivity].
  apply find_named_some in F. destruct F as [I N]. destruct (H e I N).
Qed.

Lemma setitem_walk_unnamed key (v : value) folders : forall cur,
  (forall e, In e (tree_entries cur) -> entry_name e <> key) ->
  snd (setitem_walk cur folders (setitem_last key v)) = Ok tt.
Proof.
  induction folders as [|n rest IH]; intros cur H.
  - cbn [setitem_walk]. unfold setitem_last.
    rewrite find_named_none; [reflexivity|].
    intros e I. apply H. apply tree_entries_in. exact I.
  - cbn [setitem_walk].
    destruct (with_folder cur n (fun c0 => setitem_walk c0 rest (setitem_last key v)))
      as [[l u]|] eqn:W.
    + apply with_folder_some in W.
      destruct W as (pre & c0 & post & -> & -> & ->). cbn [snd].
      apply IH. intros e I. apply H. apply tree_entries_folder. exact I.
    + specialize (IH [] (fun e (I : In e (tree_entries [])) => match I with end)).
      destruct (setitem_walk [] rest (setitem_last key v)) as [c1 r1].
      exact IH.
Qed.

(** X7. The final loops of [__setitem__] and [__delitem__] compare entry
    names with the key in full.  So when no entry of the tree bears the
    key as its name (as is the case for every key with a slash once no
    name holds one), [__delitem__] raises [KeyError] and changes
    nothing, even for the path of a file that [__getitem__] finds, and
    [__setitem__] returns normally. *)
Theorem full_key_comparison :
  forall self key,
    (forall e, In e (tree_entries (contents self)) -> entry_name e <> key) ->
    __delitem__ self key = (self, Raise KeyError) /\
    forall cls val, val <> Other -> snd (__setitem__ cls self key val) = Ok tt.
Proof.
  intros self key H. split.
  - destruct (__delitem__ self key) as [self' r] eqn:D.
    destruct (delitem_cases _ _ _ _ D) as [[-> ->]|(_ & _ & _ & e & I & N & _)].
    + reflexivity.
    + destruct (H e I N).
  - intros cls v N. rewrite setitem_unfold by exact N.
    destruct (last_item_ok (folderStructure_of key) (split_not_nil _ _))
      as (last & -> & _). cbv zeta.
    pose proof (setitem_walk_unnamed key v (tl (folderStructure_of key))
                  (contents self) H) as S.
    destruct (setitem_walk (contents self) (tl (folderStructure_of key))
                (setitem_last key v)) as [c r]. exact S.
Qed.

Lemma full_key_comparison_witness :
  __delitem__ (sample_archive Big) (lit "dir/x")
    = (sample_archive Big, Raise KeyError) /\
  forall cls val, val <> Other ->
    snd (__setitem__ cls (sample_archive Big) (lit "dir/x") val) = Ok tt.
Proof.
  apply (full_key_comparison (sample_archive Big) (lit "dir/x")).
  intros e I. vm_compute in I.
  repeat (destruct I as [I|I]; [subst e; vm_compute; discriminate|]).
  destruct I.
Defined.

(** ** What the loader builds *)

Lemma load_ok_inv self data self' :
  _load self data = (self', Ok 0) ->
  exists e dso n m nodes c,
    endians (slice data 0x06 0x08) = Some e /\
    unpack_I e (slice data 0x0C 0x10) = Ok dso /\
    unpack_H e (slice data 0x1A 0x1C) = Ok n /\
    unpack_I e (slice data 0x1C 0x20) = Ok m /\
    read_nodes e data (Z.to_nat n) 0x20 [] = Ok nodes /\
    add_nodes data (0x20 + 0x10 * n + 0x08) dso nodes [] = (c, Ok tt) /\
    self' = {| contents := c; endian := e; hashMultiplier := m |}.
Proof.
  unfold _load. intros H.
  repeat (cbv beta iota zeta in H;
          cbn [endian set_endian set_hashMultiplier set_contents clear contents
               hashMultiplier] in H;
          match type of H with
          | (if ?c then _ else _) = _ => destruct c eqn:?
          | match ?x with _ => _ end = _ => destruct x eqn:?
          end); try discriminate.
  injection H as <-.
  do 6 eexists. repeat split; try eassumption.
  match goal with u : unit |- _ => destruct u end. assumption.
Qed.

Lemma split_no_sep sep s :
  Forall (fun seg => contains sep seg = false) (split sep s).
Proof.
  induction s as [|c r IH]; [repeat constructor|].
  cbn [split]. destruct (c =? sep) eqn:E.
  - constructor; [reflexivity|exact IH].
  - destruct (split sep r) as [|h t]; [repeat constructor|].
    + cbn. rewrite Z.eqb_sym, E. reflexivity.
    + inversion IH; subst. constructor; [|assumption].
      cbn [contains existsb]. rewrite Z.eqb_sym, E. assumption.
Qed.

Lemma distinct_NoDup l : Spec.distinct l = true <-> NoDup l.
Proof.
  induction l as [|n r IH]; [split; [constructor|reflexivity]|].
  cbn [Spec.distinct]. rewrite andb_true_iff, negb_true_iff, IH. split.
  - intros [E D]. constructor; [|exact D]. intros I.
    assert (X : existsb (str_eqb n) r = true).
    { apply existsb_exists. exists n. split; [exact I|apply str_eqb_refl]. }
    congruence.
  - intros D. inversion D; subst. split; [|assumption].
    destruct (existsb (str_eqb n) r) eqn:E; [|reflexivity].
    apply existsb_exists in E. destruct E as (x & I & Q).
    apply str_eqb_eq in Q. subst x. contradiction.
Qed.

Lemma folder_names_app a b : folder_names (a ++ b) = folder_names a ++ folder_names b.
Proof. apply flat_map_app. Qed.

Lemma with_folder_none {R} cur n (k : list entry -> list entry * R) :
  with_folder cur n k = None -> ~ In n (folder_names cur).
Proof.
  induction cur as [|x r IH]; intros H I; [exact I|].
  cbn [with_folder] in H.
  destruct x as [f|n' c].
  - destruct (with_folder r n k) as [[l u]|]; [discriminate|].
    exact (IH eq_refl I).
  - destruct (str_eqb n' n) eqn:E.
    + destruct (k c); discriminate.
    + destruct (with_folder r n k) as [[l u]|]; [discriminate|].
      cbn in I. destruct I as [->|I]; [rewrite str_eqb_refl in E; discriminate|].
      exact (IH eq_refl I).
Qed.

Lemma loaded_shape_iff c :
  loaded_shape c = true <->
  NoDup (folder_names c) /\ Forall (fun e => as_loaded e = true) c.
Proof.
  unfold loaded_shape. rewrite andb_true_iff, distinct_NoDup, forallb_forall,
    Forall_forall. reflexivity.
Qed.

Lemma as_loaded_folder n c :
  as_loaded (Folder n c) = true <->
  contains SLASH n = false /\ c <> [] /\ loaded_shape c = true.
Proof.
  cbn [as_loaded]. unfold loaded_shape.
  rewrite !andb_true_iff, !negb_true_iff. split.
  - intros [[[A B] C] D]. repeat split; try assumption.
    destruct c; [discriminate|discriminate].
  - intros (A & B & C & D). repeat split; try assumption.
    destruct c; [contradiction|reflexivity].
Qed.

Lemma place_nonempty folders : forall cur file, place cur folders file <> [].
Proof.
  destruct folders as [|n rest]; intros cur file; cbn [place].
  - destruct cur; discriminate.
  - destruct (with_folder cur n (fun c => (place c rest file, tt)))
      as [[l u]|] eqn:W.
    + apply with_folder_some in W. destruct W as (pre & c & post & _ & -> & _).
      destruct pre; discriminate.
    + destruct cur; discriminate.
Qed.

Lemma place_shape folders : forall cur file,
  Forall (fun seg => contains SLASH seg = false) folders ->
  contains SLASH (name file) = false ->
  loaded_shape cur = true ->
  loaded_shape (place cur folders file) = true.
Proof.
  induction folders as [|n rest IH]; intros cur file HF Hn HC.
  - cbn [place]. apply loaded_shape_iff in HC. destruct HC as [D A].
    apply loaded_shape_iff. rewrite folder_names_app. cbn [folder_names flat_map].
    rewrite !app_nil_r. split; [exact D|].
    apply Forall_app. split; [exact A|]. constructor; [|constructor].
    cbn [as_loaded]. rewrite Hn. reflexivity.
  - inversion HF as [|? ? Hs HF']; subst. cbn [place].
    destruct (with_folder cur n (fun c => (place c rest file, tt)))
      as [[l u]|] eqn:W.
    + apply with_folder_some in W.
      destruct W as (pre & c & post & -> & -> & _). cbn [fst].
      apply loaded_shape_iff in HC. destruct HC as [D A].
      apply loaded_shape_iff. split.
      * rewrite folder_names_app in *. exact D.
      * apply Forall_app in A. destruct A as [A1 A2].
        inversion A2 as [|? ? A3 A4]; subst.
        apply Forall_app. split; [exact A1|]. constructor; [|exact A4].
        apply as_loaded_folder in A3. destruct A3 as (_ & _ & A3).
        apply as_loaded_folder. repeat split.
        -- exact Hs.
        -- apply place_nonempty.
        -- apply IH; assumption.
    + apply with_folder_none in W.
      apply loaded_shape_iff in HC. destruct HC as [D A].
      apply loaded_shape_iff. rewrite folder_names_app. split.
      * cbn [folder_names flat_map]. rewrite app_nil_r.
        apply NoDup_app; [exact D|repeat constructor; intros []|].
        intros x I1 [<-|[]]. contradiction.
      * apply Forall_app. split; [exact A|]. constructor; [|constructor].
        apply as_loaded_folder. repeat split.
        -- exact Hs.
        -- apply place_nonempty.
        -- apply IH; [assumption|assumption|reflexivity].
Qed.

Lemma file_count_app a b :
  Spec.file_count (a ++ b) = (Spec.file_count a + Spec.file_count b)%nat.
Proof.
  unfold Spec.file_count. rewrite map_app.
  induction (map Spec.count_files a) as [|x l IH]; [reflexivity|].
  change ((x :: l) ++ map Spec.count_files b)
    with (x :: (l ++ map Spec.count_files b)).
  rewrite !list_sum_cons. rewrite IH. lia.
Qed.

Lemma file_count_cons e c :
  Spec.file_count (e :: c) = (Spec.count_files e + Spec.file_count c)%nat.
Proof. reflexivity. Qed.

Lemma place_count folders : forall cur file,
  Spec.file_count (place cur folders file) = S (Spec.file_count cur).
Proof.
  induction folders as [|n rest IH]; intros cur file; cbn [place].
  - rewrite file_count_app. cbn. lia.
  - destruct (with_folder cur n (fun c => (place c rest file, tt)))
      as [[l u]|] eqn:W.
    + apply with_folder_some in W.
      destruct W as (pre & c & post & -> & -> & _). cbn [fst].
      rewrite !file_count_app, !file_count_cons. cbn [Spec.count_files].
      fold (Spec.file_count (place c rest file)). fold (Spec.file_count c).
      rewrite IH. lia.
    + rewrite file_count_app, file_count_cons. cbn [Spec.count_files].
      fold (Spec.file_count (place [] rest file)). rewrite IH. cbn. lia.
Qed.

Lemma split_single sep s x : split sep s = [x] -> x = s.
Proof. intros H. rewrite <- (join_split sep s), H. reflexivity. Qed.

Lemma Forall_but_last {A} (P : A -> Prop) l : Forall P l -> Forall P (but_last l).
Proof.
  intros H. apply Forall_forall. intros x I. rewrite Forall_forall in H.
  apply H. unfold but_last in I.
  induction l as [|a [|b r] IH]; [destruct I|destruct I|].
  cbn [removelast] in I. destruct I as [->|I]; [left; reflexivity|].
  right. apply IH; [|exact I]. intros y Hy. apply H. right. exact Hy.
Qed.

Lemma add_node_shape data offset dso node cur cur' :
  add_node data offset dso node cur = Ok cur' ->
  (loaded_shape cur = true -> loaded_shape cur' = true) /\
  Spec.file_count cur' = S (Spec.file_count cur).
Proof.
  destruct node as [[[flag no] start] len]. unfold add_node.
  intros H. apply bind_ok in H. destruct H as (nm & Hn & H).
  pose proof (split_no_sep SLASH nm) as NS.
  destruct (Nat.eqb (length (split SLASH nm)) 1) eqn:E.
  - injection H as <-. split.
    + intros HC. apply Nat.eqb_eq in E.
      destruct (split SLASH nm) as [|x [|y r]] eqn:S; try discriminate.
      apply split_single in S. subst x. inversion NS; subst.
      apply (place_shape [] cur (new_File nm _)); [constructor|assumption|exact HC].
    + rewrite file_count_app. cbn. lia.
  - apply bind_ok in H. destruct H as (last & L & H). injection H as <-.
    split.
    + intros HC. apply place_shape; [apply Forall_but_last; exact NS| |exact HC].
      cbn [name].
      destruct (last_item_ok (split SLASH nm) (split_not_nil _ _))
        as (x & Lx & Ex).
      rewrite L in Lx. injection Lx as <-.
      rewrite Ex in NS. apply Forall_app in NS. destruct NS as [_ NS].
      inversion NS; subst. assumption.
    + apply place_count.
Qed.

Lemma add_nodes_shape data offset dso nodes : forall cur c,
  add_nodes data offset dso nodes cur = (c, Ok tt) ->
  (loaded_shape cur = true -> loaded_shape c = true) /\
  Spec.file_count c = (length nodes + Spec.file_count cur)%nat.
Proof.
  induction nodes as [|node rest IH]; intros cur c H.
  - injection H as <-. split; [auto|reflexivity].
  - cbn [add_nodes] in H.
    destruct (add_node data offset dso node cur) as [cur'|x] eqn:A; [|discriminate].
    destruct (add_node_shape _ _ _ _ _ _ A) as [S1 C1].
    destruct (IH _ _ H) as [S2 C2]. split; [auto|].
    rewrite C2, C1. cbn [length]. lia.
Qed.

Lemma read_nodes_length e data n : forall off acc nodes,
  read_nodes e data n off acc = Ok nodes ->
  length nodes = (length acc + n)%nat.
Proof.
  induction n as [|n IH]; intros off acc nodes H.
  - injection H as <-. lia.
  - cbn [read_nodes] in H. apply bind_ok in H. destruct H as (node & _ & H).
    apply IH in H. rewrite H, length_app. cbn. lia.
Qed.

Lemma unpack_nonneg e size bs v : unpack e size bs = Ok v -> 0 <= v.
Proof.
  unfold unpack. destruct (Nat.eqb (length bs) size); [|discriminate].
  intros H. injection H as <-.
  pose proof (le_combine_bound (order e bs)). lia.
Qed.

Lemma load_shape_inv self data self' :
  _load self data = (self', Ok 0) ->
  loaded_shape (contents self') = true /\
  unpack_H (endian self') (slice data 0x1A 0x1C)
    = Ok (Z.of_nat (Spec.file_count (contents self'))).
Proof.
  intros H. apply load_ok_inv in H.
  destruct H as (e & dso & n & m & nodes & c & _ & _ & Hn & _ & R & A & ->).
  cbn [contents endian].
  destruct (add_nodes_shape _ _ _ _ _ _ A) as [S C]. split; [apply S; reflexivity|].
  rewrite Hn. f_equal. rewrite C. apply read_nodes_length in R.
  rewrite R. cbn [length Spec.file_count map list_sum fold_right].
  apply unpack_nonneg in Hn. lia.
Qed.

Ltac load_goal :=
  repeat (cbv beta iota zeta;
          cbn [endian set_endian set_hashMultiplier set_contents clear contents
               hashMultiplier fst snd];
          match goal with
          | |- context [if ?c then _ else _] => destruct c eqn:?
          | |- context [match ?x with _ => _ end] => destruct x eqn:?
          end).

Lemma bind_error {A B} (r : result A) (k : A -> result B) x :
  bind r k = Raise x -> r = Raise x \/ exists a, r = Ok a /\ k a = Raise x.
Proof.
  destruct r as [a|e]; cbn; intros H; [right; eauto|left].
  injection H as ->. reflexivity.
Qed.

Lemma decode_error_len n : forall bs x,
  (length bs <= n)%nat -> decode bs = Raise x -> x = UnicodeDecodeError.
Proof.
  induction n as [|n IH]; intros bs x L H.
  - destruct bs; [discriminate|cbn in L; lia].
  - destruct bs as [|b0 r]; [discriminate|]. cbn [decode] in H. cbn [length] in L.
    cbv zeta in H.
    repeat match type of H with
    | (if ?c then _ else _) = _ => destruct c
    | match ?l with [] => _ | _ :: _ => _ end = _ => destruct l; cbn [length] in L
    end; try (injection H as <-; reflexivity);
    (apply bind_error in H; destruct H as [H|(a & _ & H)];
     [apply IH in H; [exact H|lia]|discriminate]).
Qed.

Lemma decode_error bs x : decode bs = Raise x -> x = UnicodeDecodeError.
Proof. apply (decode_error_len (length bs)). lia. Qed.

Lemma bytes_to_string_error data offset x :
  bytes_to_string data offset = Raise x -> x = UnicodeDecodeError.
Proof.
  unfold bytes_to_string. destruct (find data offset =? -1); apply decode_error.
Qed.

Lemma add_node_error data offset dso node cur x :
  add_node data offset dso node cur = Raise x -> x = UnicodeDecodeError.
Proof.
  destruct node as [[[flag no] start] len]. unfold add_node. intros H.
  apply bind_error in H. destruct H as [H|(nm & _ & H)].
  - apply bytes_to_string_error in H. exact H.
  - destruct (Nat.eqb (length (split SLASH nm)) 1); [discriminate|].
    destruct (last_item_ok (split SLASH nm) (split_not_nil _ _)) as (l & L & _).
    rewrite L in H. discriminate.
Qed.

Lemma add_nodes_error data offset dso nodes : forall cur c x,
  add_nodes data offset dso nodes cur = (c, Raise x) -> x = UnicodeDecodeError.
Proof.
  induction nodes as [|node rest IH]; intros cur c x H; [discriminate|].
  cbn [add_nodes] in H.
  destruct (add_node data offset dso node cur) as [cur'|y] eqn:A.
  - eapply IH. exact H.
  - injection H as _ <-. eapply add_node_error. exact A.
Qed.

Lemma unpack_error e size bs x : unpack e size bs = Raise x -> x = struct_error.
Proof.
  unfold unpack. destruct (Nat.eqb (length bs) size); [discriminate|].
  intros H. injection H as <-. reflexivity.
Qed.

Lemma index_error data i x : index data i = Raise x -> x = IndexError.
Proof.
  unfold index. cbv zeta.
  destruct (from_end data i <? 0); [intros H; injection H as <-; reflexivity|].
  destruct (nth_error data (Z.to_nat (from_end data i))); [discriminate|].
  intros H. injection H as <-. reflexivity.
Qed.

Lemma read_node_error e data off x :
  read_node e data off = Raise x -> x = struct_error \/ x = IndexError.
Proof.
  unfold read_node. intros H.
  apply bind_error in H. destruct H as [H|(flag & _ & H)];
    [right; eapply index_error; exact H|].
  apply bind_error in H. destruct H as [H|(a & _ & H)];
    [left; eapply unpack_error; exact H|].
  apply bind_error in H. destruct H as [H|(b & _ & H)];
    [left; eapply unpack_error; exact H|].
  apply bind_error in H. destruct H as [H|(c & _ & H)];
    [left; eapply unpack_error; exact H|discriminate].
Qed.

Lemma read_nodes_error e data n : forall off acc x,
  read_nodes e data n off acc = Raise x -> x = struct_error \/ x = IndexError.
Proof.
  induction n as [|n IH]; intros off acc x H; [discriminate|].
  cbn [read_nodes] in H. apply bind_error in H.
  destruct H as [H|(node & _ & H)]; [eapply read_node_error; exact H|].
  eapply IH. exact H.
Qed.

Lemma load_raise_inv self data self' x :
  _load self data = (self', Raise x) ->
  ((x = struct_error \/ x = IndexError) /\ contents self' = contents self) \/
  (x = UnicodeDecodeError /\
   contents self' = contents (fst (_load (set_contents self []) data))).
Proof.
  unfold _load. intros H.
  repeat (cbv beta iota zeta in H |- *;
          cbn [endian set_endian set_hashMultiplier set_contents clear contents
               hashMultiplier] in H |- *;
          match type of H with
          | (if ?c then _ else _) = _ => destruct c eqn:?
          | match ?x with _ => _ end = _ => destruct x eqn:?
          end); try discriminate;
  injection H as <- <-;
  try (left; split; [left; eapply unpack_error; eassumption|reflexivity]).
  - right. split; [eapply add_nodes_error; eassumption|reflexivity].
  - left. split; [eapply read_nodes_error; eassumption|reflexivity].
Qed.

(** ** Reading a name *)

Lemma find_zero_none bs pos : ~ In Byte.x00 bs -> find_zero bs pos = -1.
Proof.
  revert pos. induction bs as [|b r IH]; intros pos H; [reflexivity|].
  cbn [find_zero]. destruct (Byte.eqb b Byte.x00) eqn:E.
  - apply Byte.byte_dec_bl in E. subst b. exfalso. apply H. left. reflexivity.
  - apply IH. intros I. apply H. right. exact I.
Qed.

Lemma find_zero_some bs : forall pos p,
  0 <= pos -> find_zero bs pos = p -> p <> -1 ->
  pos <= p /\ ~ In Byte.x00 (firstn (Z.to_nat (p - pos)) bs).
Proof.
  induction bs as [|b r IH]; intros pos p Hp H N; [cbn in H; congruence|].
  cbn [find_zero] in H. destruct (Byte.eqb b Byte.x00) eqn:E.
  - subst p. rewrite Z.sub_diag. split; [lia|]. intros [].
  - destruct (IH (pos + 1) p ltac:(lia) H N) as [L F]. split; [lia|].
    replace (Z.to_nat (p - pos)) with (S (Z.to_nat (p - (pos + 1)))) by lia.
    cbn [firstn]. intros [Q|I]; [|exact (F I)].
    subst b. discriminate.
Qed.

Lemma decode_no_nul_len n : forall bs s,
  (length bs <= n)%nat -> decode bs = Ok s -> ~ In Byte.x00 bs -> ~ In 0 s.
Proof.
  induction n as [|n IH]; intros bs s L H Z.
  - destruct bs; [injection H as <-; intros []|cbn in L; lia].
  - destruct bs as [|b0 r]; [injection H as <-; intros []|].
    cbn [decode] in H. cbn [length] in L. cbv zeta in H.
    assert (Hb : byte.unsigned b0 <> 0).
    { intros Q. apply Z. left.
      rewrite <- (byte.of_Z_unsigned b0), Q. reflexivity. }
    pose proof (byte.unsigned_range b0) as Rb.
    assert (Zr : ~ In Byte.x00 r) by (intros I; apply Z; right; exact I).
    repeat match type of H with
    | (if ?c then _ else _) = _ => destruct c eqn:?
    | match ?l with [] => _ | _ :: _ => _ end = _ => destruct l; cbn [length] in L
    end; try discriminate;
    (apply bind_ok in H; destruct H as (s' & D & H); injection H as <-;
     apply IH in D; [|lia|intros I; apply Zr; cbn; tauto];
     intros [Q|I]; [|exact (D I)]).
    + lia.
    + unfold is_cont, cont in *. pose proof (byte.unsigned_range b).
      rewrite ?andb_true_iff in *. lia.
    + unfold is_cont, cont in *. rewrite ?andb_true_iff in *. lia.
    + unfold is_cont, cont in *. rewrite ?andb_true_iff in *. lia.
Qed.

Lemma decode_no_nul bs s : decode bs = Ok s -> ~ In Byte.x00 bs -> ~ In 0 s.
Proof. apply (decode_no_nul_len (length bs)). lia. Qed.

Lemma In_firstn {A} (x : A) n l : In x (firstn n l) -> In x l.
Proof.
  revert l. induction n as [|n IH]; intros l H; [destruct H|].
  destruct l as [|a r]; [destruct H|]. cbn [firstn] in H.
  destruct H as [->|H]; [left; reflexivity|right; apply IH; exact H].
Qed.

Lemma find_zero_found bs : forall pos,
  0 <= pos -> In Byte.x00 bs -> 0 <= find_zero bs pos.
Proof.
  induction bs as [|b r IH]; intros pos Hp I; [destruct I|].
  cbn [find_zero]. destruct (Byte.eqb b Byte.x00) eqn:E; [exact Hp|].
  destruct I as [->|I]; [discriminate|]. apply IH; [lia|exact I].
Qed.

Lemma bytes_to_string_no_nul data offset s :
  bytes_to_string data offset = Ok s -> ~ In 0 s.
Proof.
  assert (Ho : 0 <= bound data offset) by (unfold bound; lia).
  unfold bytes_to_string.
  destruct (find data offset =? -1) eqn:E; intros H.
  - apply Z.eqb_eq in E. apply (decode_no_nul _ _ H). unfold slice_from.
    unfold find in E. cbv zeta in E.
    intros I. pose proof (find_zero_found _ _ Ho I). lia.
  - apply Z.eqb_neq in E. apply (decode_no_nul _ _ H).
    unfold find in *. cbv zeta in *.
    destruct (find_zero_some _ _ _ Ho eq_refl E) as [L F].
    unfold slice. cbv zeta. rewrite (bound_nonneg data (find_zero _ _)) by lia.
    exact F.
Qed.

Lemma bytes_to_string_end pre enc path :
  encode path = Ok enc -> ~ In 0 path ->
  bytes_to_string (pre ++ enc) (blen pre) = Ok path.
Proof.
  intros He Hz. pose proof (encode_nonzero _ _ He Hz) as Hn.
  unfold bytes_to_string, find, slice_from. cbv zeta.
  rewrite bound_nonneg by apply blen_nonneg.
  replace (skipn (Z.to_nat (blen pre)) (pre ++ enc)) with enc
    by (unfold blen; rewrite Nat2Z.id, skipn_app, skipn_all, Nat.sub_diag;
        reflexivity).
  rewrite find_zero_none by exact Hn. cbn [Z.eqb].
  apply decode_encode. exact He.
Qed.

Lemma bytes_to_string_past data offset :
  blen data <= offset -> bytes_to_string data offset = Ok [].
Proof.
  intros H. pose proof (blen_nonneg data) as Hn.
  unfold bytes_to_string, find, slice_from. cbv zeta.
  rewrite bound_nonneg by lia.
  rewrite skipn_all2 by (unfold blen in H; lia). reflexivity.
Qed.

(** X8. [bytes_to_string] reads the UTF-8 text that starts at [offset] and
    stops before the first NUL byte or at the end of the data: a text
    without NUL that was encoded at that place is read back, whether it
    is followed by a NUL or by the end of the buffer; at or past the end
    the result is the empty string; the text returned never holds a NUL,
    whatever the offset; and the only exception is
    [UnicodeDecodeError]. *)
Theorem bytes_to_string_reads :
  forall pre enc path,
    encode path = Ok enc -> ~ In 0 path ->
    (forall post, bytes_to_string (pre ++ enc ++ Byte.x00 :: post) (blen pre) = Ok path) /\
    bytes_to_string (pre ++ enc) (blen pre) = Ok path /\
    (forall data offset, blen data <= offset -> bytes_to_string data offset = Ok []) /\
    (forall data offset s, bytes_to_string data offset = Ok s -> ~ In 0 s) /\
    (forall data offset x,
       bytes_to_string data offset = Raise x -> x = UnicodeDecodeError).
Proof.
  intros pre enc path He Hz. repeat split.
  - intros post. apply bytes_to_string_at; [reflexivity|assumption|assumption].
  - apply bytes_to_string_end; assumption.
  - apply bytes_to_string_past.
  - intros data offset s. apply bytes_to_string_no_nul.
  - intros data offset x. apply bytes_to_string_error.
Qed.

Lemma bytes_to_string_reads_witness :
  (forall post,
     bytes_to_string (blit "SFNT" ++ [Byte.x64; Byte.xc3; Byte.xa9] ++ Byte.x00 :: post)
                     (blen (blit "SFNT")) = Ok [0x64; 0xE9]) /\
  bytes_to_string (blit "SFNT" ++ [Byte.x64; Byte.xc3; Byte.xa9]) (blen (blit "SFNT"))
    = Ok [0x64; 0xE9] /\
  (forall data offset, blen data <= offset -> bytes_to_string data offset = Ok []) /\
  (forall data offset s, bytes_to_string data offset = Ok s -> ~ In 0 s) /\
  (forall data offset x,
     bytes_to_string data offset = Raise x -> x = UnicodeDecodeError).
Proof.
  apply (bytes_to_string_reads (blit "SFNT") [Byte.x64; Byte.xc3; Byte.xa9] [0x64; 0xE9]).
  - vm_compute. reflexivity.
  - simpl. lia.
Defined.

(** ** The loader: exceptions, shape of the tree, independence of the past *)

(** X9. The exceptions of [_load].  It raises nothing but [struct.error],
    [IndexError] (both on a buffer that ends too early, and both before
    the contents are touched) and [UnicodeDecodeError] (a name that is
    not UTF-8).  The latter is raised after [self.clear()]: the archive
    then holds the files placed so far and none of its previous ones, as
    the buffer with one undecodable name shows. *)
Theorem load_exceptions :
  (forall self data self' x,
     _load self data = (self', Raise x) ->
     ((x = struct_error \/ x = IndexError) /\ contents self' = contents self) \/
     (x = UnicodeDecodeError /\
      contents self' = contents (fst (_load (set_contents self []) data)))) /\
  _load (sample_archive Big) bad_name_buffer =
    (set_contents (sample_archive Big) [], Raise UnicodeDecodeError) /\
  snd (_load (sample_archive Big) truncated_buffer) = Raise IndexError.
Proof.
  split; [|split].
  - apply load_raise_inv.
  - vm_compute. reflexivity.
  - vm_compute. reflexivity.
Qed.

Lemma load_exceptions_witness :
  ((IndexError = struct_error \/ IndexError = IndexError) /\
   contents (fst (_load (sample_archive Big) truncated_buffer))
     = contents (sample_archive Big)) \/
  (IndexError = UnicodeDecodeError /\
   contents (fst (_load (sample_archive Big) truncated_buffer)) =
   contents (fst (_load (set_contents (sample_archive Big) []) truncated_buffer))).
Proof.
  apply (proj1 load_exceptions (sample_archive Big) truncated_buffer).
  vm_compute. reflexivity.
Defined.

(** X10. What a successful [_load] builds: a tree in which no name holds a
    slash, the folders of each container have distinct names and no
    folder is empty, with exactly as many files as the node count of the
    SFAT header. *)
Theorem load_shape :
  forall self data self',
    _load self data = (self', Ok 0) ->
    loaded_shape (contents self') = true /\
    unpack_H (endian self') (slice data 0x1A 0x1C)
      = Ok (Z.of_nat (Spec.file_count (contents self'))).
Proof.
  intros self data self' H. apply load_ok_inv in H.
  destruct H as (e & dso & n & m & nodes & c & _ & _ & Hn & _ & R & A & ->).
  cbn [contents endian].
  destruct (add_nodes_shape _ _ _ _ _ _ A) as [S C]. split; [apply S; reflexivity|].
  rewrite Hn. f_equal. rewrite C. apply read_nodes_length in R.
  rewrite R. cbn [length Spec.file_count map list_sum fold_right].
  apply unpack_nonneg in Hn. lia.
Qed.

Lemma load_shape_witness :
  loaded_shape (contents (fst (_load empty_archive (sample_buffer Little)))) = true /\
  unpack_H (endian (fst (_load empty_archive (sample_buffer Little))))
           (slice (sample_buffer Little) 0x1A 0x1C)
    = Ok (Z.of_nat (Spec.file_count
                      (contents (fst (_load empty_archive (sample_buffer Little)))))).
Proof.
  apply (load_shape empty_archive (sample_buffer Little)).
  vm_compute. reflexivity.
Defined.

(** X11. [_load] does not merge: the code it returns or the exception it
    raises depends on the buffer alone, and after a successful load the
    contents, the endianness and the hash multiplier are those of the
    buffer, whatever the archive held before. *)
Theorem load_replaces :
  forall self other data,
    snd (_load self data) = snd (_load other data) /\
    (snd (_load self data) = Ok 0 ->
     fst (_load self data) = fst (_load other data)).
Proof.
  intros self other data.
  unfold _load. load_goal; cbn [fst snd]; split; try reflexivity;
    try discriminate; try congruence.
Qed.

Lemma load_replaces_witness :
  fst (_load (sample_archive Big) (sample_buffer Little))
    = fst (_load empty_archive (sample_buffer Little)).
Proof.
  apply (proj2 (load_replaces (sample_archive Big) empty_archive (sample_buffer Little))).
  vm_compute. reflexivity.
Defined.

(** ** The constructor *)

Lemma load_first_violation self data :
  Spec.fields_before (Spec.first_violation data) data = true ->
     Spec.first_violation data <> 0 ->
  exists self', load self data = (self', Raise ValueError).
Proof.
  intros P V. destruct (load_returns_code self data P V) as (self' & code & L).
  pose proof (load_code_sound _ _ _ _ L) as S.
  exists self'. unfold load. rewrite L.
  destruct (code =? 0) eqn:E; [apply Z.eqb_eq in E; congruence|reflexivity].
Qed.

(** X12. The constructor.  Without data it returns an empty archive with
    the endianness and multiplier it was given.  With a buffer that
    fails a structural check it raises [ValueError] when the buffer
    holds the fields read before the first check it fails, and another
    exception when it is too short to hold them.  With the bytes saved
    from a well-formed archive, with a name table of at most 2^26
    bytes, it returns an archive that holds the saved files and has the
    endianness and the hash multiplier of the saving archive, whatever
    values were passed. *)
Theorem init_archive :
  forall e m,
    __init__ None e m = Ok {| contents := []; endian := e; hashMultiplier := m |} /\
    (forall data,
       Spec.first_violation data <> 0 ->
       Spec.fields_before (Spec.first_violation data) data = true ->
       __init__ (Some data) e m = Raise ValueError) /\
    (forall data,
       Spec.first_violation data <> 0 ->
       Spec.fields_before (Spec.first_violation data) data = false ->
       exists x, x <> ValueError /\ __init__ (Some data) e m = Raise x) /\
    (forall frames self desired t buf,
       Spec.well_formed (contents self) = true ->
       build_tables frames self desired = Ok t ->
       blen (fileNamesTable t) <= 2 ^ 26 ->
       save frames self desired = Ok buf ->
       exists c,
         __init__ (Some buf) e m =
           Ok {| contents := c; endian := endian self;
                 hashMultiplier := hashMultiplier self |} /\
         Permutation (Spec.tree_files c) (Spec.tree_files (contents self))).
Proof.
  intros e m. split; [reflexivity|split; [|split]].
  - intros data V P. unfold __init__.
    destruct (load_first_violation {| contents := []; endian := e; hashMultiplier := m |}
                data P V) as (self' & ->). reflexivity.
  - intros data V P. unfold __init__, load.
    destruct (_load {| contents := []; endian := e; hashMultiplier := m |} data)
      as [self' [code|x]] eqn:H.
    + pose proof (load_code_sound _ _ _ _ H) as Hs.
      apply load_code_fields in H. rewrite Hs in P. congruence.
    + exists x. split; [|reflexivity].
      destruct (load_raise_inv _ _ _ _ H) as [[[->| ->] _]|[-> _]]; discriminate.
  - intros frames self desired t buf W B N S.
    apply well_formed_inv in W. destruct W as (V & _ & _).
    apply save_inv in S. destruct S as (t' & B' & E).
    rewrite B in B'. injection B' as <-.
    destruct (load_save frames self desired t buf
                {| contents := []; endian := e; hashMultiplier := m |} V B E N)
      as (c & L & P).
    exists c. split; [|exact P]. unfold __init__, load. rewrite L. reflexivity.
Qed.

Lemma init_archive_witness :
  exists c,
    __init__ (Some (sample_buffer Little)) Big 0 =
      Ok {| contents := c; endian := Little; hashMultiplier := 0x65 |} /\
    Permutation (Spec.tree_files c) (Spec.tree_files sample_tree).
Proof.
  apply (proj2 (proj2 (proj2 (init_archive Big 0))) sample_frames
           (sample_archive Little) 0x70
           (sample_tables Little) (sample_buffer Little)).
  - vm_compute. reflexivity.
  - vm_compute. reflexivity.
  - vm_compute. discriminate.
  - vm_compute. reflexivity.
Defined.

(** ** The order of iteration does not matter to [save] *)

Lemma sorted_unique {A} (l1 : list (Z * A)) : forall l2,
  Permutation l1 l2 -> NoDup (map fst l1) ->
  StronglySorted (fun a b => fst a <= fst b) l1 ->
  StronglySorted (fun a b => fst a <= fst b) l2 ->
  l1 = l2.
Proof.
  induction l1 as [|a r1 IH]; intros l2 P N S1 S2.
  - apply Permutation_nil in P. subst. reflexivity.
  - destruct l2 as [|b r2]; [apply Permutation_sym, Permutation_nil in P; discriminate|].
    inversion S1 as [|? ? S1' F1]; subst. inversion S2 as [|? ? S2' F2]; subst.
    cbn [map] in N. inversion N as [|? ? Na N']; subst.
    assert (E : a = b).
    { assert (Ia : In a (b :: r2)) by (eapply Permutation_in; [exact P|left; reflexivity]).
      assert (Ib : In b (a :: r1))
        by (eapply Permutation_in; [apply Permutation_sym; exact P|left; reflexivity]).
      destruct Ia as [->|Ia]; [reflexivity|].
      destruct Ib as [->|Ib]; [reflexivity|].
      rewrite Forall_forall in F1, F2.
      pose proof (F1 b Ib). pose proof (F2 a Ia).
      assert (Q : fst a = fst b) by lia.
      exfalso. apply Na. rewrite Q. apply in_map. exact Ib. }
    subst b. f_equal. apply IH; try assumption.
    eapply Permutation_cons_inv. exact P.
Qed.

Lemma mapM_total {A B} (f : A -> result B) (g : A -> B) l :
  (forall x, f x = Ok (g x)) -> mapM f l = Ok (map g l).
Proof.
  intros H. induction l as [|x r IH]; [reflexivity|].
  cbn [mapM map]. rewrite H, IH. reflexivity.
Qed.

Lemma combine_map_self {A B} (g : A -> B) l :
  combine (map g l) l = map (fun x => (g x, x)) l.
Proof. induction l as [|x r IH]; [reflexivity|]. cbn. rewrite IH. reflexivity. Qed.

Lemma sort_by_hash frames self l :
  sort (sort_key (S (S frames)) self) l =
  Ok (map snd (sort_keyed
                 (map (fun pf => (Spec.hash (fst pf) (hashMultiplier self), pf)) l))).
Proof.
  unfold sort.
  rewrite (mapM_total _ (fun pf => Spec.hash (fst pf) (hashMultiplier self)))
    by apply sort_key_room.
  cbn [bind]. rewrite combine_map_self. reflexivity.
Qed.

(** With fewer than two frames the sort key cannot be computed: the
    sort raises, unless the list is empty. *)
Lemma sort_short frames self l :
  (frames < 2)%nat ->
  sort (sort_key frames self) l =
  match l with [] => Ok [] | _ :: _ => Raise RecursionError end.
Proof.
  intros H. destruct l as [|x r]; [reflexivity|].
  unfold sort. cbn [mapM]. rewrite sort_key_short by exact H. reflexivity.
Qed.

Lemma sort_perm {frames} self l1 l2 :
  Permutation l1 l2 ->
  NoDup (map (fun pf => Spec.hash (fst pf) (hashMultiplier self)) l1) ->
  sort (sort_key frames self) l1 = sort (sort_key frames self) l2.
Proof.
  intros P N.
  destruct (Nat.lt_ge_cases frames 2) as [Hf|Hf].
  { rewrite !sort_short by exact Hf.
    destruct l1 as [|x r1], l2 as [|y r2]; try reflexivity.
    - apply Permutation_nil in P. discriminate.
    - apply Permutation_sym, Permutation_nil in P. discriminate. }
  destruct frames as [|[|frames]]; [lia|lia|].
  rewrite !sort_by_hash. do 2 f_equal.
  set (dec := fun pf : str * File => (Spec.hash (fst pf) (hashMultiplier self), pf)).
  assert (T : forall l : list (Z * (str * File)),
             StronglySorted (fun a b => fst a <= fst b) (sort_keyed l)).
  { intros l. apply Sorted_StronglySorted; [|apply sort_keyed_sorted].
    intros x y z. apply Z.le_trans. }
  apply sorted_unique; [| |apply T|apply T].
  - eapply perm_trans; [apply sort_keyed_perm|].
    eapply perm_trans; [|apply Permutation_sym, sort_keyed_perm].
    apply Permutation_map. exact P.
  - eapply Permutation_NoDup;
      [apply Permutation_map, Permutation_sym, sort_keyed_perm|].
    rewrite map_map. exact N.
Qed.

(** What [save] makes of the flat list. *)
Lemma save_of_flat {frames} self d fl :
  flatten frames (contents self) [] = Ok fl ->
  save frames self d =
  (flatList <- sort (sort_key frames self) fl ;;
   '(fileNamesTable, files) <- names_table flatList [] [] ;;
   let SFATNodesTableLen := 0x10 * Z.of_nat (length files) in
   dataStartOffset_ <-
     call frames (fun _ =>
       Ok (SARC.round_up (0x20 + SFATNodesTableLen + 0x08 + blen fileNamesTable)
                         0x10)) ;;
   let dataStartOffset := effective_dataStartOffset dataStartOffset_ d in
   match get_alignment (Z.to_nat (Z.log2 dataStartOffset)) dataStartOffset with
   | None => Raise Diverges
   | Some alignment =>
       let '(fileDataTable, files) := data_table alignment 0 files [] [] in
       emit self {| flatList := flatList; files := files;
             fileNamesTable := fileNamesTable;
             dataStartOffset_min := dataStartOffset_;
             dataStartOffset := dataStartOffset;
             alignment := alignment;
             fileDataTable := fileDataTable |}
   end).
Proof.
  intros F. unfold save, build_tables. rewrite F. cbn [bind].
  destruct (sort (sort_key frames self) fl) as [fl'|]; [|reflexivity]. cbn [bind].
  destruct (names_table fl' [] []) as [[names files0]|]; [|reflexivity].
  cbn [bind]. cbv zeta.
  destruct frames as [|frames]; [reflexivity|]. cbn [call bind].
  destruct (get_alignment _ _); [|reflexivity].
  destruct (data_table _ _ _ _ _). reflexivity.
Qed.

Lemma emit_same_settings self1 self2 t :
  endian self1 = endian self2 -> hashMultiplier self1 = hashMultiplier self2 ->
  emit self1 t = emit self2 t.
Proof. intros E M. unfold emit. rewrite E, M. reflexivity. Qed.

Lemma sort_key_same {frames} self1 self2 l :
  endian self1 = endian self2 -> hashMultiplier self1 = hashMultiplier self2 ->
  sort (sort_key frames self1) l = sort (sort_key frames self2) l.
Proof. intros E M. unfold sort_key. rewrite E, M. reflexivity. Qed.

Lemma save_flat_perm {frames} self1 self2 d fl1 fl2 :
  endian self1 = endian self2 -> hashMultiplier self1 = hashMultiplier self2 ->
  flatten frames (contents self1) [] = Ok fl1 ->
  flatten frames (contents self2) [] = Ok fl2 ->
  Permutation fl1 fl2 ->
  NoDup (map (fun pf => Spec.hash (fst pf) (hashMultiplier self1)) fl1) ->
  save frames self1 d = save frames self2 d.
Proof.
  intros E M F1 F2 P N.
  rewrite (save_of_flat _ _ _ F1), (save_of_flat _ _ _ F2).
  rewrite (sort_perm self1 fl1 fl2 P N), (sort_key_same self1 self2 fl2 E M).
  destruct (sort (sort_key frames self2) fl2) as [fl'|]; [|reflexivity]. cbn [bind].
  destruct (names_table fl' [] []) as [[names files0]|]; [|reflexivity].
  cbn [bind]. cbv zeta.
  destruct frames as [|frames]; [reflexivity|]. cbn [call bind].
  destruct (get_alignment _ _); [|reflexivity].
  destruct (data_table _ _ _ _ _). apply emit_same_settings; assumption.
Qed.

Lemma reordered_paths c c' :
  reordered c c' ->
  Permutation (flat_map entry_paths c) (flat_map entry_paths c').
Proof.
  induction 1 as [|f c c' _ IH|n a a' c c' _ IHa _ IHc|x y c|c1 c2 c3 _ IH1 _ IH2].
  - reflexivity.
  - cbn [flat_map]. apply Permutation_app_head. exact IH.
  - cbn [flat_map entry_paths]. apply Permutation_app; [|exact IHc].
    apply Permutation_map. exact IHa.
  - cbn [flat_map]. apply Permutation_app_swap_app.
  - eapply perm_trans; eassumption.
Qed.

Lemma valid_names_folder n a a' :
  (forallb Spec.valid_names a = true -> forallb Spec.valid_names a' = true) ->
  Spec.valid_names (Folder n a) = true -> Spec.valid_names (Folder n a') = true.
Proof.
  intros H. cbn [Spec.valid_names]. rewrite !andb_true_iff.
  intros [A B]. split; [exact A|apply H; exact B].
Qed.

Lemma reordered_valid c c' :
  reordered c c' ->
  forallb Spec.valid_names c = true -> forallb Spec.valid_names c' = true.
Proof.
  induction 1 as [|f c c' _ IH|n a a' c c' _ IHa _ IHc|x y c|c1 c2 c3 _ IH1 _ IH2].
  - auto.
  - cbn [forallb]. rewrite !andb_true_iff. intros [A B]. auto.
  - cbn [forallb]. rewrite !andb_true_iff. intros [A B].
    split; [exact (valid_names_folder n a a' IHa A)|auto].
  - cbn [forallb]. rewrite !andb_true_iff. tauto.
  - auto.
Qed.

Lemma reordered_depth c c' : reordered c c' -> depth c = depth c'.
Proof.
  unfold depth.
  induction 1 as [|f c c' _ IH|n a a' c c' _ IHa _ IHc|x y c|c1 c2 c3 _ IH1 _ IH2].
  - reflexivity.
  - cbn [map]. rewrite !list_max_cons, IH. reflexivity.
  - cbn [map]. rewrite !list_max_cons, IHc. cbn [entry_depth].
    rewrite IHa. reflexivity.
  - cbn [map]. rewrite !list_max_cons. lia.
  - congruence.
Qed.

Lemma save_paths_perm {frames} self1 self2 d :
  endian self1 = endian self2 -> hashMultiplier self1 = hashMultiplier self2 ->
  forallb Spec.valid_names (contents self1) = true ->
  forallb Spec.valid_names (contents self2) = true ->
  (depth (contents self1) <=? frames)%nat = (depth (contents self2) <=? frames)%nat ->
  Permutation (flat_map entry_paths (contents self1))
              (flat_map entry_paths (contents self2)) ->
  NoDup (path_hashes (hashMultiplier self1) (contents self1)) ->
  save frames self1 d = save frames self2 d.
Proof.
  intros E M V1 V2 D P N.
  pose proof (flatten_valid frames _ [] V1) as F1.
  pose proof (flatten_valid frames _ [] V2) as F2.
  rewrite <- D in F2. cbn [app] in F1, F2.
  destruct (depth (contents self1) <=? frames)%nat.
  - apply (save_flat_perm self1 self2 d _ _ E M F1 F2); assumption.
  - unfold save, build_tables. rewrite F1, F2. reflexivity.
Qed.

(** X13. The bytes [save] produces do not depend on the order in which the
    sets of the tree are iterated: with names the format can carry and
    no two paths with the same hash, listing the entries of any
    containers in another order gives the same buffer (or the same
    exception). *)
Theorem save_order_independent :
  forall frames self c' d,
    reordered (contents self) c' ->
    forallb Spec.valid_names (contents self) = true ->
    NoDup (path_hashes (hashMultiplier self) (contents self)) ->
    save frames (set_contents self c') d = save frames self d.
Proof.
  intros frames self c' d R V N. symmetry.
  apply save_paths_perm; try reflexivity; try assumption.
  - cbn [contents set_contents]. eapply reordered_valid; eassumption.
  - cbn [contents set_contents]. rewrite (reordered_depth _ _ R). reflexivity.
  - cbn [contents set_contents]. apply reordered_paths. exact R.
Qed.

Ltac nodup_Z :=
  vm_compute;
  repeat (constructor;
          [ let I := fresh in
            intros I;
            repeat (destruct I as [I|I]; [discriminate I|]); exact I | ]);
  constructor.

Lemma save_order_independent_witness :
  save sample_frames (set_contents (sample_archive Big) sample_tree_reordered) 0x70
    = save sample_frames (sample_archive Big) 0x70.
Proof.
  apply (save_order_independent sample_frames (sample_archive Big) sample_tree_reordered 0x70).
  - eapply reordered_trans; [apply reordered_swap|].
    apply reordered_folder; [apply reordered_swap|].
    apply reordered_file, reordered_file, reordered_nil.
  - vm_compute. reflexivity.
  - nodup_Z.
Defined.

(** ** Saving what was loaded *)

Lemma clean_inv n :
  Spec.clean n = true -> contains 0 n = false /\ contains SLASH n = false.
Proof.
  unfold Spec.clean. rewrite andb_true_iff, !negb_true_iff. tauto.
Qed.

Lemma valid_path_folder n q :
  contains SLASH n = false ->
  (valid_path (n ++ SLASH :: q) <-> folder_name_ok n /\ valid_path q).
Proof.
  intros S. unfold valid_path. rewrite (split_folder _ _ S).
  rewrite but_last_cons, last_item_cons by apply split_not_nil.
  split.
  - intros [F L]. inversion F; subst. tauto.
  - intros [N [F L]]. split; [constructor; assumption|exact L].
Qed.

Lemma valid_path_name n :
  contains SLASH n = false -> (valid_path n <-> contains 0 n = false).
Proof.
  intros S. unfold valid_path. rewrite (split_clean _ S).
  cbn [but_last removelast last_item rev app]. split.
  - intros [_ (l & E & Z)]. injection E as <-. exact Z.
  - intros Z. split; [constructor|eauto].
Qed.

Lemma base_folder n q : contains SLASH n = false -> base (n ++ SLASH :: q) = base q.
Proof.
  intros S. unfold base. rewrite (split_folder _ _ S).
  rewrite last_item_cons by apply split_not_nil. reflexivity.
Qed.

Lemma base_name n : contains SLASH n = false -> base n = n.
Proof. intros S. unfold base. rewrite (split_clean _ S). reflexivity. Qed.

(** The paths of a tree with valid names are valid. *)
Lemma files_of_valid e :
  Spec.valid_names e = true ->
  forall pd, In pd (Spec.files_of e) -> valid_path (fst pd).
Proof.
  induction e as [f|n c F] using entry_ind'; intros V pd I.
  - cbn in I. destruct I as [<-|[]]. cbn [fst].
    cbn [Spec.valid_names] in V. apply clean_inv in V. destruct V as [Z S].
    apply valid_path_name; assumption.
  - destruct (valid_folder _ _ V) as (Z & S & B & N & Vc).
    cbn [Spec.files_of] in I. apply in_map_iff in I.
    destruct I as ([q d] & <- & I). cbn [fst snd].
    apply in_flat_map in I. destruct I as (o & Io & I).
    rewrite Forall_forall in F. rewrite forallb_forall in Vc.
    apply valid_path_folder; [exact S|]. split; [repeat split; assumption|].
    exact (F o Io (Vc o Io) _ I).
Qed.

Lemma as_loaded_files e : as_loaded e = true -> Spec.files_of e <> [].
Proof.
  induction e as [f|n c F] using entry_ind'; intros A; [discriminate|].
  apply as_loaded_folder in A. destruct A as (_ & N & L).
  apply loaded_shape_iff in L. destruct L as [_ L].
  destruct c as [|o r]; [contradiction|].
  inversion F as [|? ? Ho _]; subst. inversion L as [|? ? Ao _]; subst.
  specialize (Ho Ao). cbn [Spec.files_of flat_map].
  destruct (Spec.files_of o); [contradiction|discriminate].
Qed.

(** A loaded tree whose paths are valid has valid names. *)
Lemma loaded_valid e :
  as_loaded e = true ->
  (forall pd, In pd (Spec.files_of e) -> valid_path (fst pd)) ->
  Spec.valid_names e = true.
Proof.
  induction e as [f|n c F] using entry_ind'; intros A P.
  - cbn [as_loaded] in A. apply negb_true_iff in A.
    cbn [Spec.valid_names]. unfold Spec.clean. rewrite A.
    specialize (P _ (or_introl eq_refl)). cbn [fst] in P.
    apply valid_path_name in P; [|exact A]. rewrite P. reflexivity.
  - pose proof (as_loaded_files _ A) as NE.
    apply as_loaded_folder in A. destruct A as (S & N & L).
    apply loaded_shape_iff in L. destruct L as [_ L].
    assert (Q : forall q d, In (q, d) (flat_map Spec.files_of c) ->
                            folder_name_ok n /\ valid_path q).
    { intros q d I. apply (valid_path_folder n q S).
      apply (P (n ++ SLASH :: q, d)). cbn [Spec.files_of].
      apply (in_map (fun pd => (n ++ SLASH :: fst pd, snd pd)) _ _ I). }
    assert (Hn : folder_name_ok n).
    { cbn [Spec.files_of] in NE.
      destruct (flat_map Spec.files_of c) as [|[q d] r] eqn:E; [contradiction|].
      apply (Q q d). left. reflexivity. }
    destruct Hn as (Z & B & Ne).
    cbn [Spec.valid_names]. unfold Spec.clean. rewrite Z, S, B. cbn [negb andb].
    destruct n as [|x n']; [contradiction|]. cbn [negb andb].
    apply forallb_forall. intros o Io.
    rewrite Forall_forall in F, L. apply (F o Io (L o Io)).
    intros [q d] I. apply (Q q d). apply in_flat_map. exists o. split; assumption.
Qed.

Lemma entry_paths_rebuild e :
  Spec.valid_names e = true ->
  entry_paths e = map rebuild (Spec.files_of e).
Proof.
  induction e as [f|n c F] using entry_ind'; intros V.
  - cbn [Spec.valid_names] in V. apply clean_inv in V. destruct V as [_ S].
    cbn [entry_paths Spec.files_of map]. unfold rebuild. cbn [fst snd].
    rewrite (base_name _ S). destruct f. reflexivity.
  - destruct (valid_folder _ _ V) as (_ & S & _ & _ & Vc).
    cbn [entry_paths Spec.files_of]. rewrite map_map.
    assert (E : flat_map entry_paths c = map rebuild (flat_map Spec.files_of c)).
    { clear V. induction F as [|o r Ho _ IH]; [reflexivity|].
      cbn [forallb] in Vc. apply andb_prop in Vc. destruct Vc as [Vo Vr].
      cbn [flat_map]. rewrite map_app, (Ho Vo), (IH Vr). reflexivity. }
    rewrite E, map_map. apply map_ext. intros [q d].
    unfold rebuild. cbn [fst snd]. rewrite (base_folder _ _ S). reflexivity.
Qed.

Lemma tree_paths_rebuild c :
  forallb Spec.valid_names c = true ->
  flat_map entry_paths c = map rebuild (Spec.tree_files c).
Proof.
  unfold Spec.tree_files. induction c as [|o r IH]; intros V; [reflexivity|].
  cbn [forallb] in V. apply andb_prop in V. destruct V as [Vo Vr].
  cbn [flat_map]. rewrite map_app, (entry_paths_rebuild _ Vo), (IH Vr). reflexivity.
Qed.

Lemma loaded_tree_valid c c0 :
  loaded_shape c = true ->
  forallb Spec.valid_names c0 = true ->
  Permutation (Spec.tree_files c) (Spec.tree_files c0) ->
  forallb Spec.valid_names c = true.
Proof.
  intros L V P. apply loaded_shape_iff in L. destruct L as [_ L].
  apply forallb_forall. intros o Io. rewrite Forall_forall in L.
  apply (loaded_valid o (L o Io)). intros pd I.
  assert (J : In pd (Spec.tree_files c0)).
  { eapply Permutation_in; [exact P|].
    apply in_flat_map. exists o. split; assumption. }
  apply in_flat_map in J. destruct J as (o0 & Io0 & J).
  rewrite forallb_forall in V. exact (files_of_valid o0 (V o0 Io0) pd J).
Qed.

Lemma slashes_clean n : contains SLASH n = false -> slashes n = 0%nat.
Proof.
  intros H. apply count_occ_not_In. intros I.
  exact (contains_false _ _ _ H I eq_refl).
Qed.

Lemma slashes_folder n q :
  contains SLASH n = false -> slashes (n ++ SLASH :: q) = S (slashes q).
Proof.
  intros H. unfold slashes. rewrite count_occ_app, count_occ_cons_eq by reflexivity.
  fold (slashes n). rewrite (slashes_clean n H). reflexivity.
Qed.

Lemma in_list_max x l : In x l -> (x <= list_max l)%nat.
Proof.
  intros I. pose proof (proj1 (list_max_le l (list_max l)) (Nat.le_refl _)) as F.
  rewrite Forall_forall in F. exact (F x I).
Qed.

(** A path has no more folders than the tree has levels. *)
Lemma files_depth e :
  Spec.valid_names e = true ->
  forall pd, In pd (Spec.files_of e) -> (slashes (fst pd) <= entry_depth e)%nat.
Proof.
  induction e as [f|n c F] using entry_ind'; intros V pd I.
  - cbn in I. destruct I as [<-|[]]. cbn [fst entry_depth].
    cbn [Spec.valid_names] in V. apply clean_inv in V. destruct V as [_ Hs].
    rewrite (slashes_clean _ Hs). lia.
  - destruct (valid_folder _ _ V) as (_ & Hs & _ & _ & Vc).
    cbn [Spec.files_of] in I. apply in_map_iff in I.
    destruct I as ([q d] & <- & I). cbn [fst snd].
    apply in_flat_map in I. destruct I as (o & Io & I).
    rewrite Forall_forall in F. rewrite forallb_forall in Vc.
    pose proof (F o Io (Vc o Io) _ I) as L. cbn [fst] in L.
    rewrite (slashes_folder _ _ Hs). cbn [entry_depth].
    pose proof (in_list_max (entry_depth o) (map entry_depth c)
                  (in_map entry_depth c o Io)).
    lia.
Qed.

(** A tree without empty folders has no more levels than its deepest
    path has folders. *)
Lemma loaded_depth e : forall k,
  as_loaded e = true ->
  (forall pd, In pd (Spec.files_of e) -> (slashes (fst pd) <= k)%nat) ->
  (entry_depth e <= k)%nat.
Proof.
  induction e as [f|n c F] using entry_ind'; intros k A P; [cbn; lia|].
  pose proof (as_loaded_files _ A) as NE.
  apply as_loaded_folder in A. destruct A as (Hs & N & L).
  apply loaded_shape_iff in L. destruct L as [_ L].
  assert (Q : forall q d, In (q, d) (flat_map Spec.files_of c) ->
                          (S (slashes q) <= k)%nat).
  { intros q d I. rewrite <- (slashes_folder n q Hs).
    apply (P (n ++ SLASH :: q, d)). cbn [Spec.files_of].
    apply in_map_iff. exists (q, d). split; [reflexivity|exact I]. }
  destruct k as [|k].
  { exfalso. cbn [Spec.files_of] in NE.
    destruct (flat_map Spec.files_of c) as [|[q d] r] eqn:E; [apply NE; reflexivity|].
    specialize (Q q d (or_introl eq_refl)). lia. }
  cbn [entry_depth]. apply le_n_S. apply list_max_le.
  apply Forall_forall. intros x Ix. apply in_map_iff in Ix.
  destruct Ix as (o & <- & Io).
  rewrite Forall_forall in F, L.
  apply (F o Io k (L o Io)). intros [q d] I. cbn [fst].
  assert (J : In (q, d) (flat_map Spec.files_of c))
    by (apply in_flat_map; exists o; split; assumption).
  specialize (Q q d J). lia.
Qed.

Lemma loaded_tree_depth c c0 :
  loaded_shape c = true ->
  forallb Spec.valid_names c0 = true ->
  Permutation (Spec.tree_files c) (Spec.tree_files c0) ->
  (depth c <= depth c0)%nat.
Proof.
  intros L V P. apply loaded_shape_iff in L. destruct L as [_ L].
  unfold depth at 1. apply list_max_le.
  apply Forall_forall. intros x Ix. apply in_map_iff in Ix.
  destruct Ix as (o & <- & Io).
  rewrite Forall_forall in L.
  apply (loaded_depth o _ (L o Io)). intros pd I.
  assert (J : In pd (Spec.tree_files c0)).
  { eapply Permutation_in; [exact P|].
    apply in_flat_map. exists o. split; assumption. }
  apply in_flat_map in J. destruct J as (o0 & Io0 & J).
  rewrite forallb_forall in V.
  pose proof (files_depth o0 (V o0 Io0) pd J).
  pose proof (in_list_max (entry_depth o0) (map entry_depth c0)
                (in_map entry_depth c0 o0 Io0)).
  unfold depth. lia.
Qed.

Lemma save_ok_depth {frames} self d buf :
  forallb Spec.valid_names (contents self) = true ->
  save frames self d = Ok buf ->
  (depth (contents self) <= frames)%nat.
Proof.
  intros V S. unfold save, build_tables in S.
  rewrite (flatten_valid frames _ [] V) in S.
  destruct (Nat.leb_spec (depth (contents self)) frames) as [D|D];
    [exact D|discriminate].
Qed.

(** X14. Saving what was loaded from a saved archive gives the same bytes:
    for a well-formed tree in which no two paths have the same hash,
    saved with a name table of at most 2^26 bytes, the archive loaded
    from [save]'s output saves (with the same requested offset and the
    same room for calls) to that very output. *)
Theorem save_load_save :
  forall frames self desired t buf other self',
    Spec.well_formed (contents self) = true ->
    NoDup (path_hashes (hashMultiplier self) (contents self)) ->
    build_tables frames self desired = Ok t ->
    blen (fileNamesTable t) <= 2 ^ 26 ->
    save frames self desired = Ok buf ->
    load other buf = (self', Ok tt) ->
    save frames self' desired = Ok buf.
Proof.
  intros frames self desired t buf other self' W N B Hs S L.
  apply well_formed_inv in W. destruct W as (V & _ & _).
  pose proof S as S0.
  apply save_inv in S0. destruct S0 as (t' & B' & E).
  rewrite B in B'. injection B' as <-.
  destruct (load_save frames self desired t buf other V B E Hs) as (c & Lc & P).
  unfold load in L. rewrite Lc in L. cbn [Z.eqb] in L. injection L as <-.
  pose proof (load_shape_inv _ _ _ Lc) as [Sh _]. cbn [contents] in Sh.
  pose proof (loaded_tree_valid c (contents self) Sh V P) as Vc.
  pose proof (save_ok_depth _ _ _ V S) as D.
  pose proof (loaded_tree_depth c (contents self) Sh V P) as Dc.
  rewrite <- S. symmetry.
  apply save_paths_perm; cbn [contents endian hashMultiplier];
    try reflexivity; try assumption.
  - destruct (Nat.leb_spec (depth (contents self)) frames);
      destruct (Nat.leb_spec (depth c) frames); try reflexivity; lia.
  - rewrite (tree_paths_rebuild _ V), (tree_paths_rebuild _ Vc).
    apply Permutation_map, Permutation_sym. exact P.
Qed.

Lemma save_load_save_witness :
  save sample_frames (fst (load empty_archive (sample_buffer Little))) 0x70
    = Ok (sample_buffer Little).
Proof.
  apply (save_load_save sample_frames (sample_archive Little) 0x70 (sample_tables Little)
           (sample_buffer Little) empty_archive).
  - vm_compute. reflexivity.
  - nodup_Z.
  - vm_compute. reflexivity.
  - vm_compute. discriminate.
  - vm_compute. reflexivity.
  - vm_compute. reflexivity.
Defined.

(** ** When [save] returns and what it raises *)



















Lemma dso_ge_0x30 {frames} self d t : build_tables frames self d = Ok t -> 0x30 <= dataStartOffset t.
Proof.
  intros B. pose proof (header_size_le _ _ _ B).
  pose proof (blen_nonneg (fileNamesTable t)).
  apply build_tables_inv in B.
  destruct B as (fl0 & files0 & _ & _ & _ & Hm & Hd & _).
  rewrite Hd. eapply Z.le_trans; [|apply effective_ge].
  rewrite Hm, round_up_0x10.
  set (x := 32 + 16 * Z.of_nat (length files0) + 8 + blen (fileNamesTable t)).
  pose proof (spec_round_up_ge x 16 ltac:(lia)) as G.
  pose proof (spec_round_up_mod x 16 ltac:(lia)) as M.
  pose proof (Z.div_mod (Spec.round_up x 16) 16 ltac:(lia)) as D.
  assert (40 <= x) by (subst x; lia). lia.
Qed.









Example save_struct_error :
  save sample_frames (new_archive Big (2 ^ 32)) 0 = Raise struct_error /\
  save sample_frames (new_archive Big (-1)) 0 = Raise struct_error.
Proof. split; vm_compute; reflexivity. Qed.

Example save_encode_error :
  save sample_frames {| contents := [is_File (new_File [0xD800] [])];
          endian := Big; hashMultiplier := 0x65 |} 0 = Raise UnicodeEncodeError.
Proof. vm_compute. reflexivity. Qed.

(** ** The layout of a saved archive *)

Lemma nth_error_combine {A B} (l1 : list A) : forall (l2 : list B) i a b,
  nth_error l1 i = Some a -> nth_error l2 i = Some b ->
  nth_error (combine l1 l2) i = Some (a, b).
Proof.
  induction l1 as [|x r IH]; intros [|y l] [|i] a b E1 E2; cbn in *;
    try discriminate.
  - congruence.
  - apply IH; assumption.
Qed.

Lemma Forall2_nth {A B} (P : A -> B -> Prop) l1 l2 :
  Forall2 P l1 l2 -> forall i a b,
  nth_error l1 i = Some a -> nth_error l2 i = Some b -> P a b.
Proof.
  induction 1 as [|x y r1 r2 H _ IH]; intros [|i] a b E1 E2; cbn in *;
    try discriminate.
  - congruence.
  - eapply IH; eassumption.
Qed.

Lemma saved_record {frames} self d t buf i p f fod :
  build_tables frames self d = Ok t -> emit self t = Ok buf ->
  nth_error (flatList t) i = Some (p, f) ->
  nth_error (files t) i = Some fod ->
  let e := endian self in
  let names := 0x28 + 0x10 * Z.of_nat (length (files t)) in
  fst (fst fod) = f /\
  record_field e buf i 0 = Ok (Spec.hash p (hashMultiplier self)) /\
  record_field e buf i 1 = Ok (Z.lor (snd (fst fod) / 4) 0x1000000) /\
  record_field e buf i 2 = Ok (payload_start fod) /\
  record_field e buf i 3 = Ok (payload_end fod) /\
  slice buf (dataStartOffset t + payload_start fod)
            (dataStartOffset t + payload_end fod) = data f /\
  snd (fst fod) mod 4 = 0 /\
  exists enc, encode p = Ok enc /\
    slice buf (names + snd (fst fod)) (names + snd (fst fod) + blen enc + 1)
      = enc ++ [Byte.x00].
Proof.
  intros Ht He Ep Ef e0 names0.
  pose proof (build_tables_rows _ _ _ Ht) as (Rows & _).
  pose proof (build_tables_lengths _ _ _ Ht) as Hlen.
  pose proof (header_size_le _ _ _ Ht) as Hsize.
  apply emit_inv in He. cbv zeta in He.
  destruct He as (Rt & Rd & Rn & Rm & HF & ->).
  set (m := hashMultiplier self) in *. set (e := endian self) in *.
  set (qs := map (node_fields m) (combine (files t) (flatList t))) in *.
  assert (Hqs : length qs = length (files t)).
  { subst qs. rewrite length_map. apply combine_length_eq. exact Hlen. }
  rewrite Hqs in *.
  set (n := Z.of_nat (length (files t))) in *.
  set (hs := 40 + 16 * n + blen (fileNamesTable t)) in *.
  set (pad := padding hs (dataStartOffset t)) in *.
  assert (Hpad : blen pad = dataStartOffset t - hs).
  { subst pad. unfold padding. destruct (Z.ltb_spec hs (dataStartOffset t)).
    - apply blen_zeros. lia.
    - change (blen []) with 0. lia. }
  destruct fod as [[f0 no] off].
  pose proof (Forall2_nth _ _ _ Rows i _ _ Ep Ef) as (Rf & Rname & Rno & Rdata).
  cbn [fst snd] in Rf, Rname, Rno, Rdata. subst f0.
  unfold payload_start, payload_end. cbn [fst snd].
  assert (Eq : nth_error qs i = Some (node_fields m ((f, no, off), (p, f)))).
  { subst qs. rewrite nth_error_map.
    rewrite (nth_error_combine _ _ _ _ _ Ef Ep). reflexivity. }
  cbn [node_fields] in Eq.
  assert (R : node_in_range (Spec.hash p m, Z.lor (no / 4) 0x1000000, off,
                             off + blen (data f))).
  { rewrite Forall_forall in HF. apply HF. eapply nth_error_In. exact Eq. }
  match goal with |- context [header ?e ?a ?b ?c ?d ++ _ ++ ?r] =>
    destruct (record_fields e (header e a b c d) qs r i _ _ _ _
                (blen_header _ _ _ _ _) Eq R) as (E0 & E1 & E2 & E3)
  end.
  cbv zeta in E0, E1, E2, E3.
  split; [reflexivity|]. split; [exact E0|]. split; [exact E1|].
  split; [exact E2|]. split; [exact E3|].
  destruct Rdata as (dpre & dpost & Ed & Edp).
  destruct Rname as (npre & enc & npost & En & Enp & Eenc & Emod).
  split; [|split; [exact Emod|exists enc; split; [exact Eenc|]]].
  - rewrite Ed.
    match goal with |- slice ?b _ _ = _ =>
      replace b with
        ((header e (dataStartOffset t + blen (dpre ++ data f ++ dpost))
            (dataStartOffset t) n m ++ concat (map (node_bytes e) qs)
          ++ sfnt_header e ++ fileNamesTable t ++ pad ++ dpre)
         ++ data f ++ dpost)
        by (rewrite <- !app_assoc; reflexivity)
    end.
    apply slice_at; [|lia].
    rewrite !blen_app, blen_header, blen_nodes, blen_sfnt_header, Hpad, Hqs.
    subst hs n. lia.
  - rewrite En.
    match goal with |- slice ?b _ _ = _ =>
      replace b with
        ((header e (dataStartOffset t + blen (fileDataTable t))
            (dataStartOffset t) n m ++ concat (map (node_bytes e) qs)
          ++ sfnt_header e ++ npre)
         ++ (enc ++ [Byte.x00]) ++ (npost ++ pad ++ fileDataTable t))
        by (rewrite <- !app_assoc; reflexivity)
    end.
    apply slice_at.
    + rewrite !blen_app, blen_header, blen_nodes, blen_sfnt_header, Hqs.
      subst names0 n. lia.
    + rewrite blen_app. change (blen [Byte.x00]) with 1. lia.
Qed.

Lemma data_table_ranges al files0 : forall idx tbl out fdt files1,
  data_table al idx files0 tbl out = (fdt, files1) ->
  0 < al ->
  exists news,
    files1 = out ++ news /\ blen tbl <= blen fdt /\
    Forall (fun fod => blen tbl <= payload_start fod /\
                       payload_end fod <= blen fdt) news /\
    StronglySorted (fun a b => payload_end a <= payload_start b) news.
Proof.
  induction files0 as [|[file no] rest IH]; intros idx tbl out fdt files1 H Ha.
  - cbn in H. injection H as <- <-. exists []. rewrite app_nil_r.
    repeat split; try constructor. lia.
  - cbn [data_table] in H.
    set (tbl1 := if 0 <? idx
                 then tbl ++ zeros (SARC.round_up (blen tbl) al - blen tbl)
                 else tbl) in H.
    assert (L1 : blen tbl <= blen tbl1).
    { subst tbl1. destruct (0 <? idx); [|lia].
      pose proof (round_up_ge (blen tbl) al (blen_nonneg tbl) Ha).
      rewrite blen_app, blen_zeros by lia. lia. }
    apply IH in H; [|exact Ha].
    destruct H as (news & -> & L2 & F & S).
    rewrite blen_app in L2. pose proof (blen_nonneg (data file)).
    exists ((file, no, blen tbl1) :: news).
    split; [rewrite <- app_assoc; reflexivity|]. split; [lia|]. split.
    + constructor.
      * unfold payload_start, payload_end. cbn [fst snd]. lia.
      * eapply Forall_impl; [|exact F]. intros fod [A B].
        rewrite blen_app in A. lia.
    + constructor; [exact S|].
      eapply Forall_impl; [|exact F]. intros fod [A B].
      unfold payload_end at 1. cbn [fst snd]. rewrite blen_app in A. lia.
Qed.

Lemma alignment_positive {frames} self d t : build_tables frames self d = Ok t -> 0 < alignment t.
Proof.
  intros B. pose proof (dso_ge_0x30 _ _ _ B) as Hd.
  apply build_tables_inv in B.
  destruct B as (fl0 & files0 & _ & _ & _ & _ & _ & Hal & _).
  destruct (get_alignment_terminates (dataStartOffset t) ltac:(lia))
    as (a & Ea & Na).
  rewrite Hal in Ea. injection Ea as <-.
  unfold get_alignment in Hal.
  apply alignment_loop_mask in Hal; [|eexists; reflexivity].
  destruct Hal as (mask & Em).
  assert (0 <= alignment t) by (rewrite Em; apply Z.land_nonneg; left; lia).
  lia.
Qed.

Lemma save_length {frames} self d t buf :
  build_tables frames self d = Ok t -> emit self t = Ok buf ->
  blen buf = dataStartOffset t + blen (fileDataTable t).
Proof.
  intros Ht He.
  pose proof (build_tables_lengths _ _ _ Ht) as Hlen.
  pose proof (header_size_le _ _ _ Ht) as Hsize.
  apply emit_inv in He. cbv zeta in He.
  destruct He as (_ & _ & _ & _ & _ & ->).
  set (qs := map (node_fields (hashMultiplier self)) (combine (files t) (flatList t))) in *.
  assert (Hqs : length qs = length (files t)).
  { subst qs. rewrite length_map. apply combine_length_eq. exact Hlen. }
  rewrite !blen_app, blen_header, blen_nodes, blen_sfnt_header, Hqs.
  unfold padding.
  destruct (Z.ltb_spec (40 + 16 * Z.of_nat (length (files t)) + blen (fileNamesTable t))
                       (dataStartOffset t)).
  - rewrite blen_zeros by lia. lia.
  - change (blen []) with 0. lia.
Qed.

(** X17. The index of a saved archive points at its files.  For the
    [i]-th file in hash order, the [i]-th SFAT record of the buffer
    holds the hash of its path, the offset of its name in the name table
    (in units of four bytes, with the flag 0x01000000), and the start
    and the end of its payload; at that place of the name table sits the
    UTF-8 path followed by a NUL, and between start and end (from the
    data start offset) sit exactly the bytes of the file. *)
Theorem saved_index :
  forall frames self desired t buf,
    build_tables frames self desired = Ok t ->
    save frames self desired = Ok buf ->
    (exists fl, flatten frames (contents self) [] = Ok fl /\ Permutation (flatList t) fl) /\
    length (files t) = length (flatList t) /\
    forall i path file,
      nth_error (flatList t) i = Some (path, file) ->
      exists nameOffset start enc,
        nth_error (files t) i = Some (file, nameOffset, start) /\
        record_field (endian self) buf i 0
          = Ok (Spec.hash path (hashMultiplier self)) /\
        record_field (endian self) buf i 1
          = Ok (Z.lor (nameOffset / 4) 0x1000000) /\
        nameOffset mod 4 = 0 /\
        encode path = Ok enc /\
        (let names := 0x28 + 0x10 * Z.of_nat (length (files t)) in
         slice buf (names + nameOffset) (names + nameOffset + blen enc + 1)
           = enc ++ [Byte.x00]) /\
        record_field (endian self) buf i 2 = Ok start /\
        record_field (endian self) buf i 3 = Ok (start + blen (data file)) /\
        slice buf (dataStartOffset t + start)
                  (dataStartOffset t + start + blen (data file)) = data file.
Proof.
  intros frames self d t buf B S.
  apply save_inv in S. destruct S as (t' & B' & E).
  rewrite B in B'. injection B' as <-.
  pose proof (build_tables_lengths _ _ _ B) as Hlen.
  split; [|split; [exact Hlen|]].
  - destruct (build_tables_inv _ _ _ B) as (fl0 & _ & F & So & _).
    exists fl0. split; [exact F|]. apply sort_inv in So. apply So.
  - intros i p f Ep.
    destruct (nth_error (files t) i) as [fod|] eqn:Ef.
    2:{ apply nth_error_None in Ef.
        assert (i < length (flatList t))%nat
          by (apply nth_error_Some; congruence). lia. }
    destruct (saved_record self d t buf i p f fod B E Ep Ef)
      as (Q0 & R0 & R1 & R2 & R3 & D & M & enc & En & Sn).
    destruct fod as [[f0 no] off]. cbn [fst snd] in *. subst f0.
    unfold payload_start, payload_end in *. cbn [fst snd] in *.
    exists no, off, enc. repeat split; try assumption.
    rewrite <- Z.add_assoc. exact D.
Qed.

Lemma saved_index_witness :
  (exists fl, flatten sample_frames sample_tree [] = Ok fl /\
              Permutation (flatList (sample_tables Big)) fl) /\
  length (files (sample_tables Big)) = length (flatList (sample_tables Big)) /\
  forall i path file,
    nth_error (flatList (sample_tables Big)) i = Some (path, file) ->
    exists nameOffset start enc,
      nth_error (files (sample_tables Big)) i = Some (file, nameOffset, start) /\
      record_field Big (sample_buffer Big) i 0 = Ok (Spec.hash path 0x65) /\
      record_field Big (sample_buffer Big) i 1
        = Ok (Z.lor (nameOffset / 4) 0x1000000) /\
      nameOffset mod 4 = 0 /\
      encode path = Ok enc /\
      (let names := 0x28 + 0x10 * Z.of_nat (length (files (sample_tables Big))) in
       slice (sample_buffer Big) (names + nameOffset)
             (names + nameOffset + blen enc + 1) = enc ++ [Byte.x00]) /\
      record_field Big (sample_buffer Big) i 2 = Ok start /\
      record_field Big (sample_buffer Big) i 3 = Ok (start + blen (data file)) /\
      slice (sample_buffer Big)
            (dataStartOffset (sample_tables Big) + start)
            (dataStartOffset (sample_tables Big) + start + blen (data file))
        = data file.
Proof.
  apply (saved_index sample_frames (sample_archive Big) 0x70 (sample_tables Big) (sample_buffer Big)).
  - vm_compute. reflexivity.
  - vm_compute. reflexivity.
Defined.

(** X18. The payloads of a saved archive do not overlap: in the order of
    the index each payload ends at or before the start of the next one,
    all of them lie inside the file data table, and the buffer is the
    data start offset plus that table long. *)
Theorem payloads_disjoint :
  forall frames self desired t buf,
    build_tables frames self desired = Ok t ->
    save frames self desired = Ok buf ->
    StronglySorted (fun a b => payload_end a <= payload_start b) (files t) /\
    Forall (fun fod => 0 <= payload_start fod /\
                       payload_end fod <= blen (fileDataTable t)) (files t) /\
    blen buf = dataStartOffset t + blen (fileDataTable t).
Proof.
  intros frames self d t buf B S.
  apply save_inv in S. destruct S as (t' & B' & E).
  rewrite B in B'. injection B' as <-.
  pose proof (alignment_positive _ _ _ B) as Ha.
  pose proof (save_length _ _ _ _ B E) as L.
  destruct (build_tables_inv _ _ _ B) as (fl0 & files0 & _ & _ & _ & _ & _ & _ & D).
  apply data_table_ranges in D; [|exact Ha].
  destruct D as (news & -> & _ & F & So). cbn [app].
  split; [exact So|]. split; [|exact L].
  eapply Forall_impl; [|exact F]. intros fod [A1 A2].
  change (blen []) with 0 in A1. split; assumption.
Qed.

Lemma payloads_disjoint_witness :
  StronglySorted (fun a b => payload_end a <= payload_start b)
                 (files (sample_tables Big)) /\
  Forall (fun fod => 0 <= payload_start fod /\
                     payload_end fod <= blen (fileDataTable (sample_tables Big)))
         (files (sample_tables Big)) /\
  blen (sample_buffer Big)
    = dataStartOffset (sample_tables Big) + blen (fileDataTable (sample_tables Big)).
Proof.
  apply (payloads_disjoint sample_frames (sample_archive Big) 0x70 (sample_tables Big)
           (sample_buffer Big)).
  - vm_compute. reflexivity.
  - vm_compute. reflexivity.
Defined.

Lemma data_table_aligned k files0 : forall idx tbl out fdt files1,
  data_table (2 ^ k) idx files0 tbl out = (fdt, files1) ->
  0 <= k -> 0 <= idx -> (idx = 0 -> blen tbl = 0) ->
  exists news,
    files1 = out ++ news /\
    Forall (fun fod => (2 ^ k | payload_start fod)) news.
Proof.
  induction files0 as [|[file no] rest IH]; intros idx tbl out fdt files1 H Hk Hi H0.
  - cbn in H. injection H as _ <-. exists []. rewrite app_nil_r.
    split; [reflexivity|constructor].
  - cbn [data_table] in H. apply IH in H; [|exact Hk|lia|lia].
    destruct H as (news & -> & F).
    eexists. rewrite <- app_assoc. split; [reflexivity|].
    cbn [app]. constructor; [|exact F].
    unfold payload_start. cbn [snd].
    assert (P : 0 < 2 ^ k) by (apply Z.pow_pos_nonneg; lia).
    destruct (Z.ltb_spec 0 idx).
    + pose proof (round_up_ge (blen tbl) (2 ^ k) (blen_nonneg tbl) P).
      rewrite blen_app, blen_zeros by lia.
      replace (blen tbl + (SARC.round_up (blen tbl) (2 ^ k) - blen tbl))
        with (SARC.round_up (blen tbl) (2 ^ k)) by lia.
      apply round_up_divides; [exact Hk|apply Z.divide_refl].
    + rewrite H0 by lia. apply Z.divide_0_r.
Qed.

Lemma default_offset m d :
  SARC.round_up d 0x10 <= m -> effective_dataStartOffset m d mod 0x200 = 0.
Proof.
  intros H. unfold effective_dataStartOffset.
  rewrite Z.max_l by exact H. rewrite Z.eqb_refl, round_up_0x200.
  apply spec_round_up_mod. lia.
Qed.

(** X19. Where the alignment is what it is meant to be.  When the data
    start offset is a multiple of 0x80 (as it always is when the
    requested offset does not exceed the minimum, the offset then being
    rounded up to 0x200), the alignment [save] derives is the largest
    power of two that divides the data start offset, and every payload
    starts at a multiple of it. *)
Theorem alignment_of_default_offset :
  forall frames self desired t,
    build_tables frames self desired = Ok t ->
    (SARC.round_up desired 0x10 <= dataStartOffset_min t ->
     dataStartOffset t mod 0x200 = 0) /\
    (dataStartOffset t mod 0x80 = 0 ->
     Spec.largest_pow2_divisor (alignment t) (dataStartOffset t) /\
     Forall (fun fod => (alignment t | payload_start fod)) (files t)).
Proof.
  intros frames self d t B.
  pose proof (dso_ge_0x30 _ _ _ B) as Hd.
  destruct (build_tables_inv _ _ _ B)
    as (fl0 & files0 & _ & _ & _ & _ & He & Ha & D).
  split.
  - intros H. rewrite He. apply default_offset. exact H.
  - intros M.
    destruct (alignment_of_multiple_of_0x80 (dataStartOffset t) ltac:(lia) M)
      as (a & Ea & L).
    rewrite Ha in Ea. injection Ea as <-. split; [exact L|].
    destruct L as ((k & Hk & Ek) & _). rewrite Ek in D |- *.
    apply data_table_aligned in D; [|exact Hk|lia|reflexivity].
    destruct D as (news & -> & F). exact F.
Qed.

Lemma alignment_of_default_offset_witness :
  dataStartOffset sample_tables_default mod 0x200 = 0 /\
  Spec.largest_pow2_divisor (alignment sample_tables_default)
                            (dataStartOffset sample_tables_default) /\
  Forall (fun fod => (alignment sample_tables_default | payload_start fod))
         (files sample_tables_default).
Proof.
  destruct (alignment_of_default_offset sample_frames (sample_archive Big) 0 sample_tables_default)
    as [A B]; [vm_compute; reflexivity|].
  split; [apply A; vm_compute; discriminate|apply B; vm_compute; reflexivity].
Defined.

Example str_sample :
  __str__ sample_frames (sample_archive Big) =
  Ok (lit "dir/" ++ [NEWLINE] ++ lit "  sub/" ++ [NEWLINE] ++ lit "    y"
      ++ [NEWLINE] ++ lit "  x" ++ [NEWLINE] ++ lit "a" ++ [NEWLINE]
      ++ lit "b.txt").
Proof. vm_compute. reflexivity. Qed.

(** ** The listing [__str__] *)




























Lemma uniq_folder n a : Spec.unique_names (Folder n a) = true <-> uniq a.
Proof.
  cbn [Spec.unique_names]. unfold uniq.
  rewrite andb_true_iff, distinct_NoDup. reflexivity.
Qed.














(** ** The lines of the listing *)








(** ** The round trip through the accessors *)

Lemma head_segment_cons c r :
  c <> SLASH -> head_segment (c :: r) = c :: head_segment r.
Proof.
  intros H. unfold head_segment. cbn [split].
  destruct (Z.eqb_spec c SLASH); [contradiction|].
  destruct (split SLASH r) as [|h t] eqn:E; [destruct (split_not_nil _ _ E)|].
  reflexivity.
Qed.

Lemma head_segment_app p q : head_segment (p ++ SLASH :: q) = head_segment p.
Proof.
  induction p as [|c r IH].
  - unfold head_segment. cbn [app split]. rewrite Z.eqb_refl. reflexivity.
  - destruct (Z.eq_dec c SLASH) as [->|N].
    + unfold head_segment. cbn [app split]. rewrite Z.eqb_refl. reflexivity.
    + cbn [app]. rewrite !head_segment_cons by exact N. rewrite IH. reflexivity.
Qed.

Lemma distinct_in_eq c e1 e2 :
  Spec.distinct (map entry_name c) = true ->
  In e1 c -> In e2 c -> entry_name e1 = entry_name e2 -> e1 = e2.
Proof.
  intros D I1 I2 E.
  pose proof (find_named_distinct c e1 D I1) as F1.
  pose proof (find_named_distinct c e2 D I2) as F2.
  rewrite E in F1. congruence.
Qed.

Lemma app_slash_neq (p q : str) : p <> p ++ SLASH :: q.
Proof.
  intros E. apply (f_equal (@length Z)) in E. rewrite length_app in E.
  cbn [length] in E. lia.
Qed.

Lemma tree_prefix_free c :
  Forall (fun e => Spec.valid_names e = true -> Spec.unique_names e = true ->
                   prefix_free (map fst (Spec.files_of e))) c ->
  forallb Spec.valid_names c = true ->
  Spec.distinct (map entry_name c) = true ->
  forallb Spec.unique_names c = true ->
  prefix_free (map fst (Spec.tree_files c)).
Proof.
  intros F V D U p q I J.
  apply in_map_iff in I. destruct I as (pd & <- & I).
  apply in_map_iff in J. destruct J as (pd' & E & J).
  apply in_flat_map in I. destruct I as (e1 & I1 & I).
  apply in_flat_map in J. destruct J as (e2 & I2 & J).
  rewrite forallb_forall in V, U. rewrite Forall_forall in F.
  pose proof (files_of_head e1 (V e1 I1) pd I) as H1.
  pose proof (files_of_head e2 (V e2 I2) pd' J) as H2.
  rewrite E, head_segment_app, H1 in H2.
  pose proof (distinct_in_eq c e1 e2 D I1 I2 H2) as Q. subst e2.
  apply (F e1 I1 (V e1 I1) (U e1 I1) (fst pd) q).
  - apply in_map. exact I.
  - rewrite <- E. apply in_map. exact J.
Qed.

Lemma entry_prefix_free e :
  Spec.valid_names e = true -> Spec.unique_names e = true ->
  prefix_free (map fst (Spec.files_of e)).
Proof.
  induction e as [f|n c F] using entry_ind'; intros V U p q I J.
  - cbn in I, J. destruct I as [<-|[]]. destruct J as [J|[]].
    exact (app_slash_neq _ _ J).
  - destruct (valid_folder _ _ V) as (_ & _ & _ & _ & Vc).
    cbn [Spec.unique_names] in U. apply andb_prop in U. destruct U as (D & Uc).
    cbn [Spec.files_of] in I, J. rewrite map_map in I, J. cbn [fst] in I, J.
    apply in_map_iff in I. destruct I as (pd & <- & I).
    apply in_map_iff in J. destruct J as (pd' & E & J).
    rewrite <- app_assoc in E. cbn [app] in E.
    apply app_inv_head in E. injection E as E.
    apply (tree_prefix_free c F Vc D Uc (fst pd) q).
    + apply in_map. exact I.
    + rewrite <- E. apply in_map. exact J.
Qed.

Lemma well_formed_prefix_free c :
  Spec.well_formed c = true -> prefix_free (map fst (Spec.tree_files c)).
Proof.
  intros H. apply well_formed_inv in H. destruct H as (V & D & U).
  apply tree_prefix_free; try assumption.
  apply Forall_forall. intros e _. apply entry_prefix_free.
Qed.

Lemma prefix_free_incl (a b : list str) :
  (forall p, In p a -> In p b) -> prefix_free b -> prefix_free a.
Proof. intros I F p q Hp Hq. exact (F p q (I _ Hp) (I _ Hq)). Qed.

Lemma files_of_folder_in m b pd :
  In pd (Spec.files_of (Folder m b)) -> exists q, fst pd = m ++ SLASH :: q.
Proof.
  cbn [Spec.files_of]. intros I. apply in_map_iff in I.
  destruct I as ([q d] & <- & _). exists q. reflexivity.
Qed.

Lemma folder_names_member n b r : In (Folder n b) r -> In n (folder_names r).
Proof.
  intros I. unfold folder_names. apply in_flat_map.
  exists (Folder n b). split; [exact I|left; reflexivity].
Qed.

Lemma nodup_app_disjoint {A} (a b : list A) z :
  NoDup (a ++ b) -> In z a -> In z b -> False.
Proof.
  induction a as [|x l IH]; intros N Ia Ib; [destruct Ia|].
  cbn [app] in N. inversion N as [|? ? Nx Nl]; subst.
  destruct Ia as [->|Ia]; [apply Nx; apply in_or_app; right; exact Ib|].
  exact (IH Nl Ia Ib).
Qed.

Lemma loaded_names_nodup c :
  loaded_shape c = true ->
  NoDup (map fst (Spec.tree_files c)) ->
  prefix_free (map fst (Spec.tree_files c)) ->
  NoDup (map entry_name c).
Proof.
  induction c as [|x r IH]; intros L N P; [constructor|].
  apply loaded_shape_iff in L. destruct L as [Nf A].
  inversion A as [|? ? Ax Ar]; subst.
  unfold Spec.tree_files in N, P. cbn [flat_map] in N, P.
  rewrite map_app in N, P.
  assert (Lr : loaded_shape r = true).
  { apply loaded_shape_iff. split; [|exact Ar].
    destruct x; cbn [folder_names flat_map app] in Nf; [exact Nf|].
    inversion Nf; assumption. }
  cbn [map]. constructor.
  - intros I. apply in_map_iff in I. destruct I as (y & Ey & Iy).
    rewrite Forall_forall in Ar. pose proof (Ar y Iy) as Ay.
    pose proof (as_loaded_files x Ax) as Fx.
    pose proof (as_loaded_files y Ay) as Fy.
    destruct (Spec.files_of x) as [|pdx lx] eqn:Ex; [contradiction|].
    destruct (Spec.files_of y) as [|pdy ly] eqn:Ey'; [contradiction|].
    assert (Ix : In pdx (Spec.files_of x)) by (rewrite Ex; left; reflexivity).
    assert (Iy' : In pdy (Spec.files_of y)) by (rewrite Ey'; left; reflexivity).
    assert (Jy : In (fst pdy) (map fst (flat_map Spec.files_of r))).
    { apply in_map. apply in_flat_map. exists y. split; assumption. }
    assert (Jx : In (fst pdx) (map fst (pdx :: lx))) by (left; reflexivity).
    destruct x as [f|n a], y as [g|m b]; cbn [entry_name] in Ey.
    + cbn in Ix, Iy'. destruct Ix as [<-|[]]. destruct Iy' as [<-|[]].
      cbn [fst] in *. rewrite Ey in Jy.
      exact (nodup_app_disjoint _ _ _ N Jx Jy).
    + cbn in Ix. destruct Ix as [<-|[]].
      destruct (files_of_folder_in _ _ _ Iy') as (q & Q).
      apply (P (name f) q).
      * apply in_or_app. left. left. reflexivity.
      * apply in_or_app. right. rewrite <- Ey, <- Q. exact Jy.
    + cbn in Iy'. destruct Iy' as [<-|[]].
      destruct (files_of_folder_in _ _ _ Ix) as (q & Q).
      apply (P (name g) q).
      * apply in_or_app. right. exact Jy.
      * apply in_or_app. left. rewrite Ey, <- Q. exact Jx.
    + subst m. cbn [folder_names flat_map app] in Nf. inversion Nf as [|? ? Nn _]; subst.
      apply Nn. eapply folder_names_member. exact Iy.
  - apply IH; [exact Lr| |].
    + apply NoDup_app_remove_l in N. exact N.
    + eapply prefix_free_incl; [|exact P]. intros p I. apply in_or_app. right. exact I.
Qed.

Lemma nodup_middle {A} (a b c : list A) : NoDup (a ++ b ++ c) -> NoDup b.
Proof.
  intros N. apply NoDup_app_remove_l in N.
  apply NoDup_app_remove_r in N. exact N.
Qed.

Lemma loaded_unique e :
  as_loaded e = true ->
  NoDup (map fst (Spec.files_of e)) ->
  prefix_free (map fst (Spec.files_of e)) ->
  Spec.unique_names e = true.
Proof.
  induction e as [f|n a F] using entry_ind'; intros A N P; [reflexivity|].
  apply as_loaded_folder in A. destruct A as (_ & _ & L).
  cbn [Spec.files_of] in N, P. rewrite map_map in N, P. cbn [fst] in N, P.
  rewrite <- (map_map fst (fun p => n ++ SLASH :: p)) in N, P.
  fold (Spec.tree_files a) in N, P.
  apply NoDup_map_inv in N.
  assert (Pa : prefix_free (map fst (Spec.tree_files a))).
  { intros p q Ip Iq. apply (P (n ++ SLASH :: p) q).
    - apply (in_map (fun p => n ++ SLASH :: p)). exact Ip.
    - rewrite <- app_assoc. cbn [app].
      apply (in_map (fun p => n ++ SLASH :: p)). exact Iq. }
  apply uniq_folder. split; [apply loaded_names_nodup; assumption|].
  apply forallb_forall. intros x Ix.
  rewrite Forall_forall in F.
  apply loaded_shape_iff in L. destruct L as [_ L]. rewrite Forall_forall in L.
  apply (F x Ix (L x Ix)).
  - destruct (in_split _ _ Ix) as (l1 & l2 & ->).
    unfold Spec.tree_files in N. rewrite flat_map_app in N. cbn [flat_map] in N.
    rewrite !map_app in N. apply nodup_middle in N. exact N.
  - eapply prefix_free_incl; [|exact Pa]. intros p I.
    apply in_map_iff in I. destruct I as (pd & <- & I).
    apply in_map. apply in_flat_map. exists x. split; assumption.
Qed.

Lemma loaded_well_formed c c0 :
  loaded_shape c = true -> Spec.well_formed c0 = true ->
  Permutation (Spec.tree_files c) (Spec.tree_files c0) ->
  Spec.well_formed c = true.
Proof.
  intros L W P.
  pose proof (well_formed_nodup _ W) as N0.
  pose proof (well_formed_prefix_free _ W) as P0.
  apply well_formed_inv in W. destruct W as (V0 & _ & _).
  pose proof (loaded_tree_valid c c0 L V0 P) as V.
  assert (Pm : Permutation (map fst (Spec.tree_files c)) (map fst (Spec.tree_files c0)))
    by (apply Permutation_map; exact P).
  assert (N : NoDup (map fst (Spec.tree_files c)))
    by (eapply Permutation_NoDup; [apply Permutation_sym; exact Pm|exact N0]).
  assert (Pf : prefix_free (map fst (Spec.tree_files c))).
  { eapply prefix_free_incl; [|exact P0]. intros p I.
    eapply Permutation_in; eassumption. }
  unfold Spec.well_formed. rewrite V. cbn [andb]. apply andb_true_iff. split.
  - apply distinct_NoDup. apply loaded_names_nodup; assumption.
  - apply forallb_forall. intros x Ix.
    apply loaded_shape_iff in L. destruct L as [_ L]. rewrite Forall_forall in L.
    apply (loaded_unique x (L x Ix)).
    + destruct (in_split _ _ Ix) as (l1 & l2 & ->).
      unfold Spec.tree_files in N. rewrite flat_map_app in N. cbn [flat_map] in N.
      rewrite !map_app in N. apply nodup_middle in N. exact N.
    + eapply prefix_free_incl; [|exact Pf]. intros p I.
      apply in_map_iff in I. destruct I as (pd & <- & I).
      apply in_map. apply in_flat_map. exists x. split; assumption.
Qed.

(** X22. The round trip through the accessors: the tree loaded from the
    bytes saved from a well-formed tree, with a name table of at most
    2^26 bytes, is well-formed again, and every file of the saved tree
    whose path holds no backslash is returned, name and payload, by
    [__getitem__] on its path. *)
Theorem saved_files_are_found :
  forall frames self desired t buf other self',
    Spec.well_formed (contents self) = true ->
    build_tables frames self desired = Ok t ->
    blen (fileNamesTable t) <= 2 ^ 26 ->
    save frames self desired = Ok buf ->
    load other buf = (self', Ok tt) ->
    Spec.well_formed (contents self') = true /\
    forall p f,
      In (p, f) (flat_map entry_paths (contents self)) ->
      contains BACKSLASH p = false ->
      __getitem__ self' p = Ok (is_File f).
Proof.
  intros frames self desired t buf other self' W B Hs S L.
  pose proof W as W0.
  apply well_formed_inv in W. destruct W as (V & _ & _).
  apply save_inv in S. destruct S as (t' & B' & E).
  rewrite B in B'. injection B' as <-.
  destruct (load_save frames self desired t buf other V B E Hs) as (c & Lc & P).
  unfold load in L. rewrite Lc in L. cbn [Z.eqb] in L. injection L as <-.
  pose proof (load_shape_inv _ _ _ Lc) as [Sh _]. cbn [contents] in Sh.
  pose proof (loaded_well_formed c (contents self) Sh W0 P) as Wc.
  cbn [contents]. split; [exact Wc|].
  intros p f I Bs. apply getitem_well_formed; cbn [contents]; try assumption.
  pose proof (loaded_tree_valid c (contents self) Sh V P) as Vc.
  rewrite (tree_paths_rebuild _ Vc).
  rewrite (tree_paths_rebuild _ V) in I.
  eapply Permutation_in; [|exact I].
  apply Permutation_map, Permutation_sym. exact P.
Qed.

Lemma saved_files_are_found_witness :
  Spec.well_formed (contents (fst (load empty_archive (sample_buffer Little)))) = true /\
  forall p f,
    In (p, f) (flat_map entry_paths (contents (sample_archive Little))) ->
    contains BACKSLASH p = false ->
    __getitem__ (fst (load empty_archive (sample_buffer Little))) p = Ok (is_File f).
Proof.
  apply (saved_files_are_found sample_frames (sample_archive Little) 0x70 (sample_tables Little)
           (sample_buffer Little) empty_archive).
  - vm_compute. reflexivity.
  - vm_compute. reflexivity.
  - vm_compute. discriminate.
  - vm_compute. reflexivity.
  - vm_compute. reflexivity.
Defined.

(** ** Rounding *)

(** X23. [round_up(x, y)], the bit trick [((x - 1) | (y - 1)) + 1], is the
    least multiple of [y] not below [x] when [y] is a power of two, for
    every integer [x]; for other [y] it is not: [round_up(17, 0x70)] is
    0x80. *)
Theorem round_up_least_multiple :
  forall x k,
    0 <= k ->
    (2 ^ k | SARC.round_up x (2 ^ k)) /\
    x <= SARC.round_up x (2 ^ k) < x + 2 ^ k /\
    SARC.round_up 17 0x70 = 0x80.
Proof.
  intros x k Hk. rewrite round_up_pow2 by exact Hk.
  assert (P : 0 < 2 ^ k) by (apply Z.pow_pos_nonneg; lia).
  split; [|split; [|reflexivity]].
  - unfold Spec.round_up. apply Z.divide_factor_r.
  - split; [apply spec_round_up_ge; exact P|].
    unfold Spec.round_up.
    pose proof (Z.div_mod (x + 2 ^ k - 1) (2 ^ k) ltac:(lia)) as D.
    pose proof (Z.mod_pos_bound (x + 2 ^ k - 1) (2 ^ k) P). lia.
Qed.

Lemma round_up_least_multiple_witness :
  (2 ^ 4 | SARC.round_up 0x29 (2 ^ 4)) /\
  0x29 <= SARC.round_up 0x29 (2 ^ 4) < 0x29 + 2 ^ 4 /\
  SARC.round_up 17 0x70 = 0x80.
Proof. apply (round_up_least_multiple 0x29 4). lia. Defined.

(** ** What the loader reads from the index *)

Lemma add_node_inv data offset dso node cur cur' :
  add_node data offset dso node cur = Ok cur' ->
  exists pd, readable data offset dso node pd /\
    Permutation (Spec.tree_files cur') (pd :: Spec.tree_files cur).
Proof.
  destruct node as [[[flag no] start] len]. intros H.
  destruct (bytes_to_string data (offset + no * 4)) as [nm|x] eqn:B.
  - destruct (add_node_files data offset dso flag no start len nm cur B)
      as (cur2 & E & P).
    rewrite H in E. injection E as <-.
    exists (nm, slice data (dso + start) (dso + start + len)).
    split; [|exact P]. cbn [readable fst snd]. split; [exact B|reflexivity].
  - unfold add_node in H. rewrite B in H. discriminate.
Qed.

Lemma add_nodes_inv data offset dso nodes : forall cur c,
  add_nodes data offset dso nodes cur = (c, Ok tt) ->
  exists pds, Forall2 (readable data offset dso) nodes pds /\
    Permutation (Spec.tree_files c) (pds ++ Spec.tree_files cur).
Proof.
  induction nodes as [|node rest IH]; intros cur c H.
  - injection H as <-. exists []. split; [constructor|reflexivity].
  - cbn [add_nodes] in H.
    destruct (add_node data offset dso node cur) as [cur'|x] eqn:A; [|discriminate].
    destruct (add_node_inv _ _ _ _ _ _ A) as (pd & R & P1).
    destruct (IH _ _ H) as (pds & F & P2).
    exists (pd :: pds). split; [constructor; assumption|].
    eapply perm_trans; [exact P2|]. cbn [app].
    eapply perm_trans; [apply Permutation_app_head; exact P1|].
    apply Permutation_sym, Permutation_middle.
Qed.

(** X24. What a successful [_load] makes of the index: one file per SFAT
    record, none dropped and none invented.  The path of the file is
    the text read at the record's name offset (in units of four bytes
    after the SFNT header) and its payload is the slice of the buffer
    between the record's two data offsets, counted from the data start
    offset of the header. *)
Theorem load_files :
  forall self data self',
    _load self data = (self', Ok 0) ->
    exists dso n nodes pds,
      unpack_I (endian self') (slice data 0x0C 0x10) = Ok dso /\
      unpack_H (endian self') (slice data 0x1A 0x1C) = Ok n /\
      read_nodes (endian self') data (Z.to_nat n) 0x20 [] = Ok nodes /\
      Forall2 (readable data (0x20 + 0x10 * n + 0x08) dso) nodes pds /\
      Permutation (Spec.tree_files (contents self')) pds.
Proof.
  intros self data self' H. apply load_ok_inv in H.
  destruct H as (e & dso & n & m & nodes & c & _ & Hd & Hn & _ & R & A & ->).
  cbn [contents endian].
  destruct (add_nodes_inv _ _ _ _ _ _ A) as (pds & F & P).
  exists dso, n, nodes, pds. repeat split; try assumption.
  change (Spec.tree_files []) with (@nil (str * bytes)) in P.
  rewrite app_nil_r in P. exact P.
Qed.

Lemma load_files_witness :
  exists dso n nodes pds,
    unpack_I (endian (fst (_load empty_archive (sample_buffer Big))))
             (slice (sample_buffer Big) 0x0C 0x10) = Ok dso /\
    unpack_H (endian (fst (_load empty_archive (sample_buffer Big))))
             (slice (sample_buffer Big) 0x1A 0x1C) = Ok n /\
    read_nodes (endian (fst (_load empty_archive (sample_buffer Big))))
               (sample_buffer Big) (Z.to_nat n) 0x20 [] = Ok nodes /\
    Forall2 (readable (sample_buffer Big) (0x20 + 0x10 * n + 0x08) dso) nodes pds /\
    Permutation
      (Spec.tree_files (contents (fst (_load empty_archive (sample_buffer Big))))) pds.
Proof.
  apply (load_files empty_archive (sample_buffer Big)).
  vm_compute. reflexivity.
Defined.

(** ** The header of a saved archive *)

Lemma sfnt_fields e (hdr nodes rest : bytes) n :
  blen hdr = 0x20 -> blen nodes = 0x10 * n ->
  let buf := hdr ++ nodes ++ sfnt_header e ++ rest in
  slice buf (0x20 + 0x10 * n) (0x20 + 0x10 * n + 0x04) = SFNT_magic /\
  slice buf (0x20 + 0x10 * n + 0x04) (0x20 + 0x10 * n + 0x06)
    = order e (le_split 2 0x08).
Proof.
  intros Hh Hq buf. subst buf. unfold sfnt_header. split.
  - replace (hdr ++ nodes ++
             (SFNT_magic ++ match e with
                            | Big => [Byte.x00; Byte.x08]
                            | Little => [Byte.x08; Byte.x00]
                            end ++ [Byte.x00; Byte.x00]) ++ rest)
      with ((hdr ++ nodes) ++
            SFNT_magic ++ (match e with
                           | Big => [Byte.x00; Byte.x08]
                           | Little => [Byte.x08; Byte.x00]
                           end ++ [Byte.x00; Byte.x00] ++ rest))
      by (rewrite <- !app_assoc; reflexivity).
    apply slice_at; [rewrite blen_app; lia|reflexivity].
  - replace (hdr ++ nodes ++
             (SFNT_magic ++ match e with
                            | Big => [Byte.x00; Byte.x08]
                            | Little => [Byte.x08; Byte.x00]
                            end ++ [Byte.x00; Byte.x00]) ++ rest)
      with ((hdr ++ nodes ++ SFNT_magic) ++
            order e (le_split 2 0x08) ++ ([Byte.x00; Byte.x00] ++ rest))
      by (rewrite <- !app_assoc; destruct e; reflexivity).
    apply slice_at; [rewrite !blen_app; change (blen SFNT_magic) with 4; lia|].
    rewrite blen_order_split. lia.
Qed.

Lemma spec_bom_bytes e : Spec.bom (bom_bytes e) = Some e.
Proof. destruct e; reflexivity. Qed.

(** X25. What [save] writes is what [_load] checks: every buffer [save]
    returns passes the eight structural checks, and its header carries
    the archive's endianness, the number of files of the tree, the hash
    multiplier and the length of the buffer. *)
Theorem saved_passes_checks :
  forall frames self desired buf,
    save frames self desired = Ok buf ->
    Spec.first_violation buf = 0 /\
    Spec.bom (slice buf 0x06 0x08) = Some (endian self) /\
    unpack_H (endian self) (slice buf 0x1A 0x1C)
      = Ok (Z.of_nat (Spec.file_count (contents self))) /\
    unpack_I (endian self) (slice buf 0x1C 0x20) = Ok (hashMultiplier self) /\
    unpack_I (endian self) (slice buf 0x08 0x0C) = Ok (blen buf).
Proof.
  intros frames self d buf S.
  apply save_inv in S. destruct S as (t & B & E).
  pose proof (save_length _ _ _ _ B E) as L.
  pose proof (build_tables_lengths _ _ _ B) as Hlen.
  pose proof (build_tables_file_count _ _ _ B) as Hcount.
  apply emit_inv in E. cbv zeta in E.
  destruct E as (Rt & Rd & Rn & Rm & HF & Eb).
  set (m := hashMultiplier self) in *. set (e := endian self) in *.
  set (qs := map (node_fields m) (combine (files t) (flatList t))) in *.
  assert (Hqs : length qs = length (files t)).
  { subst qs. rewrite length_map. apply combine_length_eq. exact Hlen. }
  set (n := Z.of_nat (length (files t))) in *.
  set (total := dataStartOffset t + blen (fileDataTable t)) in *.
  set (rest := fileNamesTable t ++
               padding (40 + 16 * Z.of_nat (length qs) + blen (fileNamesTable t))
                       (dataStartOffset t) ++ fileDataTable t) in *.
  destruct (header_fields e total (dataStartOffset t) n m
              (concat (map (node_bytes e) qs) ++ sfnt_header e ++ rest))
    as (E1 & E2 & E3 & E4 & E5 & E6 & E7 & E8 & E9).
  destruct (sfnt_fields e (header e total (dataStartOffset t) n m)
              (concat (map (node_bytes e) qs)) rest n
              (blen_header _ _ _ _ _)
              ltac:(rewrite blen_nodes, Hqs; reflexivity)) as (E10 & E11).
  cbv zeta in E1, E2, E3, E4, E5, E6, E7, E8, E9, E10, E11.
  rewrite <- Eb in E1, E2, E3, E4, E5, E6, E7, E8, E9, E10, E11.
  assert (U2 : forall v, 0 <= v < 2 ^ 16 ->
                         unpack e 2 (order e (le_split 2 v)) = Ok v)
    by (intros v Hv; apply unpack_order_split; exact Hv).
  assert (U4 : forall v, in32 v -> unpack e 4 (order e (le_split 4 v)) = Ok v)
    by (intros v Hv; apply unpack_order_split; exact Hv).
  assert (Cn : Spec.node_count e buf = n).
  { unfold Spec.node_count. rewrite E8, U2 by exact Rn. reflexivity. }
  split; [|split; [|split; [|split]]].
  - unfold Spec.first_violation, Spec.field_is.
    rewrite E1. change (blit "SARC") with SARC_magic. rewrite bytes_eqb_refl.
    cbn [negb]. rewrite E2, spec_bom_bytes.
    rewrite E3, (U2 0x14) by lia. cbn [Z.eqb Pos.eqb negb].
    rewrite E4, (U4 total) by exact Rt. rewrite L. fold total.
    rewrite Z.eqb_refl. cbn [negb].
    rewrite E6. change (blit "SFAT") with SFAT_magic. rewrite bytes_eqb_refl.
    cbn [negb]. rewrite E7, (U2 0x0C) by lia. cbn [Z.eqb Pos.eqb negb].
    cbv zeta. rewrite Cn, E10. change (blit "SFNT") with SFNT_magic.
    rewrite bytes_eqb_refl. cbn [negb].
    rewrite E11, (U2 0x08) by lia. reflexivity.
  - rewrite E2. apply spec_bom_bytes.
  - unfold unpack_H. rewrite E8, U2 by exact Rn. subst n. rewrite Hcount. reflexivity.
  - unfold unpack_I. rewrite E9. apply U4. exact Rm.
  - unfold unpack_I. rewrite E4, L. apply U4. exact Rt.
Qed.

Lemma saved_passes_checks_witness :
  Spec.first_violation (sample_buffer Little) = 0 /\
  Spec.bom (slice (sample_buffer Little) 0x06 0x08) = Some Little /\
  unpack_H Little (slice (sample_buffer Little) 0x1A 0x1C)
    = Ok (Z.of_nat (Spec.file_count sample_tree)) /\
  unpack_I Little (slice (sample_buffer Little) 0x1C 0x20) = Ok 0x65 /\
  unpack_I Little (slice (sample_buffer Little) 0x08 0x0C)
    = Ok (blen (sample_buffer Little)).
Proof.
  apply (saved_passes_checks sample_frames (sample_archive Little) 0x70 (sample_buffer Little)).
  vm_compute. reflexivity.
Defined.

(** ** The records of the index *)

(** X26. One SFAT record as [_load] reads it.  The bytes it picks, which
    differ with the endianness (the flag at offset 4 or 7, the name
    offset in the three bytes at 5 or 4), amount in both cases to
    reading four 32-bit words: the first (the hash) is ignored, the top
    byte of the second is the flag and its low 24 bits are the name
    offset, the third is the start of the payload and the fourth minus
    the third its length. *)
Theorem read_node_fields :
  forall e pre post h a b c,
    in32 h -> in32 a -> in32 b -> in32 c ->
    read_node e (pre ++ node_bytes e (h, a, b, c) ++ post) (blen pre)
      = Ok (byte.of_Z (Z.shiftr a 24), a mod 2 ^ 24, b, c - b).
Proof.
  intros e pre post h a b c Rh Ra Rb Rc.
  apply (read_node_at e pre (h, a, b, c) post (blen pre) eq_refl).
  cbn [node_in_range]. auto.
Qed.

Lemma read_node_fields_witness :
  read_node Little (blit "SFAT" ++ node_bytes Little (0x61, 0x1000002, 0x10, 0x15) ++ [])
            (blen (blit "SFAT"))
    = Ok (byte.of_Z (Z.shiftr 0x1000002 24), 0x1000002 mod 2 ^ 24, 0x10, 0x15 - 0x10).
Proof.
  apply (read_node_fields Little (blit "SFAT") [] 0x61 0x1000002 0x10 0x15);
    unfold in32; lia.
Defined.

(** ** The flat list *)







